(** * ZIP index and ACS fetch service: a shallow embedding and its properties

    The development follows two classes of the repository:
    [ACSAPIService] (js/acsApiService.js: persistent cache, sliding-window
    rate limiter, retry loop) and [ZIPCodeIndex] (record store, categorical
    indices, grid-based radius search), plus the retry helper of the older
    [CensusDataFetcher].

    Conventions.  Millisecond clocks and byte counts are integers ([Z]).
    Coordinates and distances are JavaScript numbers in the source; here they
    are rationals ([Q]) and the transcendental functions of [Math] are
    parameters, so that what is proved does not depend on how they round.
    A JavaScript [Map] or [Set] is an association list or list kept in
    insertion order, as iteration order is observable in the code.
    Asynchronous functions are modelled by the sequence of effects they
    perform (a trace) together with the way they complete. *)

From Stdlib Require Import String Ascii.
From Stdlib Require Import ZArith Bool Arith Lia QArith Qround Lqa.
From Stdlib Require Import List Permutation Sorted.
Import ListNotations.

Set Implicit Arguments.

Close Scope Q_scope.
Open Scope Z_scope.

(* ================================================================== *)
(** * Part I: definitions                                              *)
(* ================================================================== *)

(** ** Library behaviour the code relies on *)

Module JS.

(** [Array.prototype.sort] with a comparator.  The sort is stable; [le x y]
    stands for "the comparator does not place [y] before [x]", i.e.
    [cmp(x, y) <= 0]. *)
Fixpoint place {A : Type} (le : A -> A -> bool) (x : A) (l : list A) : list A :=
  match l with
  | [] => [x]
  | y :: rest => if le x y then x :: y :: rest else y :: place le x rest
  end.

Fixpoint sort {A : Type} (le : A -> A -> bool) (l : list A) : list A :=
  match l with
  | [] => []
  | x :: rest => place le x (sort le rest)
  end.

(** A [Map] in insertion order: [set] on a key that is present replaces the
    value where it stands, on a new key it appends. *)
Section Collections.
Variables K V : Type.
Variable eqb : K -> K -> bool.

Definition Map_get (k : K) (m : list (K * V)) : option V :=
  option_map snd (find (fun kv => eqb (fst kv) k) m).

Fixpoint Map_set (k : K) (v : V) (m : list (K * V)) : list (K * V) :=
  match m with
  | [] => [(k, v)]
  | (k', v') :: rest =>
      if eqb k' k then (k, v) :: rest else (k', v') :: Map_set k v rest
  end.

(** [Set.prototype.add]. *)
Definition Set_add (x : K) (s : list K) : list K :=
  if existsb (eqb x) s then s else s ++ [x].

End Collections.

(** [String.prototype.toUpperCase], [toLowerCase] and [padStart] on ASCII
    text. *)
Definition upper_char (c : ascii) : ascii :=
  let n := nat_of_ascii c in
  if ((97 <=? n) && (n <=? 122))%nat then ascii_of_nat (n - 32) else c.

Definition lower_char (c : ascii) : ascii :=
  let n := nat_of_ascii c in
  if ((65 <=? n) && (n <=? 90))%nat then ascii_of_nat (n + 32) else c.

Fixpoint map_string (f : ascii -> ascii) (s : string) : string :=
  match s with
  | EmptyString => EmptyString
  | String c rest => String (f c) (map_string f rest)
  end.

Definition toUpperCase : string -> string := map_string upper_char.
Definition toLowerCase : string -> string := map_string lower_char.

Fixpoint repeat_char (c : ascii) (n : nat) : string :=
  match n with O => EmptyString | S n' => String c (repeat_char c n') end.

Definition padStart (targetLength : nat) (c : ascii) (s : string) : string :=
  String.append (repeat_char c (targetLength - String.length s)) s.

(** Truthiness of a string. *)
Definition truthy (s : string) : bool := negb (String.eqb s EmptyString).

(** How an asynchronous call completes.  [ThrowUndefined] is a [throw] of a
    variable that was never assigned, [ReturnUndefined] falling off the end
    of the function body. *)
Inductive completion (V E : Type) : Type :=
| Return (v : V)
| ReturnUndefined
| Throw (e : E)
| ThrowUndefined.

Arguments Return {V E} v.
Arguments ReturnUndefined {V E}.
Arguments Throw {V E} e.
Arguments ThrowUndefined {V E}.

(** What one invocation of a wrapped asynchronous operation does. *)
Inductive outcome (V E : Type) : Type :=
| Fulfilled (v : V)
| Rejected (e : E).

Arguments Fulfilled {V E} v.
Arguments Rejected {V E} e.

(** An [Error] object, as far as the code inspects it. *)
Record error : Type := mkError { name : string; message : string }.

End JS.

(** ** Retry loops *)

Module Retry.
Import JS.

(** Effects of a retry loop, in program order. *)
Inductive event : Type :=
| EvSleep (ms : Z)              (* await this.sleep(ms) / setTimeout(resolve, ms) *)
| EvRateLimit                   (* await this.enforceRateLimit() *)
| EvInvoke (attempt : nat)      (* the wrapped operation is called *)
| EvLogError (e : error).       (* this.logError('Max retries exceeded ...') *)

Section Loops.
Variable V : Type.

(** [op a] is what the wrapped operation does when it is called during
    attempt number [a]. *)
Variable op : nat -> outcome V error.

(** The constructor's [options.maxRetries || 3]. *)
Definition maxRetries_option (opt : nat) : nat :=
  match opt with O => 3%nat | _ => opt end.

Variable maxRetries : nat.

(** [ACSAPIService.fetchBatchWithRetry]: the [for] loop, with [remaining] the
    number of iterations the loop condition still allows. *)
Fixpoint fetchBatchWithRetry_from (remaining attempt : nat) (lastError : option error)
  : list event * completion V error :=
  match remaining with
  | O => ([], match lastError with Some e => Throw e | None => ThrowUndefined end)
  | S remaining' =>
      let backoff :=
        if (1 <? attempt)%nat
        then [EvSleep (2 ^ (Z.of_nat attempt - 1) * 1000)]
        else [] in
      let prefix := backoff ++ [EvRateLimit; EvInvoke attempt] in
      match op attempt with
      | Fulfilled v => (prefix, Return v)
      | Rejected e =>
          if (attempt =? maxRetries)%nat
          then (prefix ++ [EvLogError e], Throw e)
          else
            let (rest, c) := fetchBatchWithRetry_from remaining' (S attempt) (Some e) in
            (prefix ++ rest, c)
      end
  end.

Definition fetchBatchWithRetry : list event * completion V error :=
  fetchBatchWithRetry_from maxRetries 1 None.

(** [CensusDataFetcher.fetchWithRetry]: the delay follows a failed attempt
    and is capped at ten seconds. *)
Fixpoint fetchWithRetry_from (remaining attempt : nat)
  : list event * completion V error :=
  match remaining with
  | O => ([], ReturnUndefined)
  | S remaining' =>
      match op attempt with
      | Fulfilled v => ([EvInvoke attempt], Return v)
      | Rejected e =>
          if (attempt =? maxRetries)%nat
          then ([EvInvoke attempt], Throw e)
          else
            let delay := Z.min (1000 * 2 ^ Z.of_nat attempt) 10000 in
            let (rest, c) := fetchWithRetry_from remaining' (S attempt) in
            (EvInvoke attempt :: EvSleep delay :: rest, c)
      end
  end.

Definition fetchWithRetry : list event * completion V error :=
  fetchWithRetry_from maxRetries 1.

End Loops.

(** Observations on traces. *)

(** The attempts on which the operation was called, in order. *)
Fixpoint invocations (t : list event) : list nat :=
  match t with
  | [] => []
  | EvInvoke a :: t' => a :: invocations t'
  | _ :: t' => invocations t'
  end.

(** The suspensions requested between the previous call of the operation
    (or the start) and the call of attempt [a]; [None] if attempt [a] never
    happens. *)
Fixpoint sleeps_before (a : nat) (pending : list Z) (t : list event) : option (list Z) :=
  match t with
  | [] => None
  | EvSleep d :: t' => sleeps_before a (pending ++ [d]) t'
  | EvInvoke b :: t' => if (b =? a)%nat then Some pending else sleeps_before a [] t'
  | _ :: t' => sleeps_before a pending t'
  end.

(** Whether every call of the operation comes right after an admission by
    the rate limiter. *)
Fixpoint admitted_before_each_call (t : list event) : bool :=
  match t with
  | [] => true
  | EvRateLimit :: EvInvoke _ :: t' => admitted_before_each_call t'
  | EvInvoke _ :: _ => false
  | _ :: t' => admitted_before_each_call t'
  end.

(** The total time the loop asks to sleep. *)
Fixpoint total_sleep (t : list event) : Z :=
  match t with
  | [] => 0
  | EvSleep d :: t' => d + total_sleep t'
  | _ :: t' => total_sleep t'
  end.

(** The spec's formula for the suspension before attempt [a]. *)
Definition spec_backoff (timeoutCap base : Z) (a : nat) : Z :=
  Z.min timeoutCap (base * 2 ^ (Z.of_nat a - 1)).

End Retry.

(** ** The browser's [localStorage] *)

Module Storage.

(** The fields the service reads from a cache entry once [JSON.parse] has
    succeeded.  [cachedAt] is [new Date(cached.metadata?.cachedAt || 0)
    .getTime()], hence [0] when the field is absent; [expiry] is [None] when
    the field is absent. *)
Record entry : Type := mkEntry {
  payload : string;     (* data and provider metadata, not inspected here *)
  cachedAt : Z;
  expiry : option Z
}.

(** A stored text, by what [JSON.parse] makes of it; [len] is its length.
    Of an array the code only counts, appends and drops elements and writes
    it back: [items] holds the lengths of the texts its elements serialise
    to. *)
Inductive value : Type :=
| Opaque (len : Z)                (* parsing throws, or gives null *)
| Entry (len : Z) (e : entry)
| Items (len : Z) (items : list Z).

Definition len_of (v : value) : Z :=
  match v with Opaque n => n | Entry n _ => n | Items n _ => n end.

(** The length of [JSON.stringify] of an array: the brackets, the elements
    and the commas between them. *)
Definition items_len (items : list Z) : Z :=
  2 + fold_right Z.add 0 items + Z.max 0 (Z.of_nat (length items) - 1).

(** Keys in the order [localStorage.key(i)] enumerates them.  Removing a
    key keeps the order of the others. *)
Definition t : Type := list (string * value).

Definition key (st : t) (i : nat) : option string :=
  option_map fst (nth_error st i).

Definition getItem (st : t) (k : string) : option value :=
  option_map snd (find (fun kv => String.eqb (fst kv) k) st).

Definition removeItem (k : string) (st : t) : t :=
  filter (fun kv => negb (String.eqb (fst kv) k)) st.

Definition total_size (st : t) : Z :=
  fold_right (fun kv acc => Z.of_nat (String.length (fst kv)) + len_of (snd kv) + acc) 0 st.

Fixpoint put (k : string) (v : value) (st : t) : t :=
  match st with
  | [] => [(k, v)]
  | (k', v') :: rest =>
      if String.eqb k' k then (k, v) :: rest else (k', v') :: put k v rest
  end.

(** [setItem] under a quota counted in characters of keys and values; [None]
    stands for the [QuotaExceededError] exception. *)
Definition setItem (quota : Z) (k : string) (v : value) (st : t) : option t :=
  let st' := put k v st in
  if total_size st' <=? quota then Some st' else None.

End Storage.

(** ** [ACSAPIService] *)

Module ACS.
Import JS.

Section Service.

(** Configuration fixed by the constructor. *)
Variable cachePrefix : string.        (* `acs_cache_v${cacheVersion}_` *)
Variable requestsPerMinute : nat.     (* options.requestsPerMinute || 50 *)
Variable quota : Z.                   (* capacity of localStorage *)

Definition cacheDuration : Z := 30 * 24 * 60 * 60 * 1000.

Definition in_namespace (k : string) : bool := String.prefix cachePrefix k.

(** *** Cache sweep *)

(** The test [cached.expiry && now > cached.expiry]. *)
Definition stale (now : Z) (cached : Storage.entry) : bool :=
  match Storage.expiry cached with
  | Some expiry => negb (expiry =? 0) && (expiry <? now)
  | None => false
  end.

(** [cleanCache]: the loop [for (i = 0; i < localStorage.length; i++)],
    reading [localStorage.length] and [localStorage.key(i)] afresh on every
    iteration.  [fuel] bounds the number of iterations. *)
Fixpoint cleanCache_loop (now : Z) (fuel i : nat) (st : Storage.t) : Storage.t :=
  match fuel with
  | O => st
  | S fuel' =>
      if (i <? length st)%nat then
        match nth_error st i with
        | None => st
        | Some (k, v) =>
            if in_namespace k then
              match v with
              | Storage.Entry _ cached =>
                  if stale now cached
                  then cleanCache_loop now fuel' (S i) (Storage.removeItem k st)
                  else cleanCache_loop now fuel' (S i) st
              | Storage.Opaque _ =>
                  cleanCache_loop now fuel' (S i) (Storage.removeItem k st)
              | Storage.Items _ _ =>          (* no [expiry] on an array *)
                  cleanCache_loop now fuel' (S i) st
              end
            else cleanCache_loop now fuel' (S i) st
        end
      else st
  end.

Definition cleanCache (now : Z) (st : Storage.t) : Storage.t :=
  cleanCache_loop now (length st) 0 st.

(** [clearCache]: the loop [for (i = localStorage.length - 1; i >= 0; i--)];
    [n] is [i + 1]. *)
Fixpoint clearCache_from (n : nat) (st : Storage.t) : Storage.t :=
  match n with
  | O => st
  | S i =>
      match Storage.key st i with
      | Some k =>
          if in_namespace k then clearCache_from i (Storage.removeItem k st)
          else clearCache_from i st
      | None => st
      end
  end.

Definition clearCache (st : Storage.t) : Storage.t :=
  clearCache_from (length st) st.

(** [getExpiredCacheCount]. *)
Definition is_expired (now : Z) (v : Storage.value) : bool :=
  match v with
  | Storage.Entry _ cached => stale now cached
  | Storage.Opaque _ => false
  | Storage.Items _ _ => false
  end.

Definition getExpiredCacheCount (now : Z) (st : Storage.t) : nat :=
  length (filter (fun kv => in_namespace (fst kv) && is_expired now (snd kv)) st).

(** *** Eviction and write *)

Definition cachedAt_of (v : Storage.value) : Z :=
  match v with
  | Storage.Entry _ e => Storage.cachedAt e
  | Storage.Opaque _ => 0
  | Storage.Items _ _ => 0
  end.

(** The [entries] array built by [clearOldestCacheEntries]. *)
Definition namespace_entries (st : Storage.t) : list (string * Z) :=
  map (fun kv => (fst kv, cachedAt_of (snd kv)))
      (filter (fun kv => in_namespace (fst kv)) st).

(** The comparator [(a, b) => a.cachedAt - b.cachedAt]. *)
Definition by_cachedAt (a b : string * Z) : bool := snd a - snd b <=? 0.

Definition oldest_entries (count : nat) (st : Storage.t) : list (string * Z) :=
  firstn count (JS.sort by_cachedAt (namespace_entries st)).

Definition clearOldestCacheEntries (count : nat) (st : Storage.t) : Storage.t :=
  fold_left (fun acc e => Storage.removeItem (fst e) acc) (oldest_entries count st) st.

(** [manageCacheSize(maxSizeMB = 50)]. *)
Definition ceil_div (a b : Z) : Z := - ((- a) / b).

Definition manageCacheSize (st : Storage.t) : Storage.t :=
  let maxSizeBytes := 50 * 1024 * 1024 in
  let totalSize := Storage.total_size st in
  if maxSizeBytes <? totalSize then
    (* Math.ceil((totalSize - maxSizeBytes * 0.8) / (1024 * 1024)) *)
    let toClear := ceil_div (totalSize * 5 - maxSizeBytes * 4) (5 * 1024 * 1024) in
    let entriesToClear := Z.max 50 (toClear * 10) in
    clearOldestCacheEntries (Z.to_nat entriesToClear) st
  else st.

(** What [cacheData] leaves behind: how the call completed, and whether it
    armed a timer ([setTimeout(..., 0)]) that calls [cacheData] again with
    the same arguments. *)
Record cacheData_result : Type := mkCacheDataResult {
  store_after : Storage.t;
  completed : completion unit error;
  retry_scheduled : bool
}.

Definition QuotaExceededError : error :=
  mkError "QuotaExceededError" "The quota has been exceeded.".

(** The [try] block of [cacheData]: the storage it leaves and the exception
    it raised, if any. *)
Definition cacheData_try (now : Z) (cacheKey : string) (payload : string) (len : Z)
  (st : Storage.t) : Storage.t * option error :=
  let cacheEntry := Storage.mkEntry payload now (Some (now + cacheDuration)) in
  match Storage.setItem quota cacheKey (Storage.Entry len cacheEntry) st with
  | Some st' => (manageCacheSize st', None)
  | None => (st, Some QuotaExceededError)
  end.

Definition cacheData_at (now : Z) (cacheKey : string) (payload : string) (len : Z)
  (st : Storage.t) : cacheData_result :=
  match cacheData_try now cacheKey payload len st with
  | (st', None) => mkCacheDataResult st' ReturnUndefined false
  | (st', Some error) =>
      if String.eqb (name error) "QuotaExceededError"
      then mkCacheDataResult (clearOldestCacheEntries 20 st') ReturnUndefined true
      else mkCacheDataResult st' ReturnUndefined false
  end.

(** [cacheData] followed by the timers it arms, at most [timers] of them;
    the result counts the calls of [setItem] made. *)
Fixpoint cacheData_run (timers : nat) (now : Z) (cacheKey payload : string) (len : Z)
  (st : Storage.t) : cacheData_result * nat :=
  let r := cacheData_at now cacheKey payload len st in
  match timers with
  | O => (r, 1%nat)
  | S timers' =>
      if retry_scheduled r then
        let (r', writes) := cacheData_run timers' now cacheKey payload len (store_after r) in
        (r', S writes)
      else (r, 1%nat)
  end.

(** *** Rate limiter *)

(** [enforceRateLimit], entered when [Date.now()] reads [now]; a suspended
    call resumes exactly [waitTime] ms later.  The result is the reading of
    [Date.now()] at which the call returns and the pruned window; [None]
    when [fuel] re-evaluations were not enough. *)
Fixpoint enforceRateLimit (fuel : nat) (now : Z) (requestTimestamps : list Z)
  : option (Z * list Z) :=
  let oneMinuteAgo := now - 60000 in
  let requestTimestamps := filter (fun ts => oneMinuteAgo <? ts) requestTimestamps in
  if (requestsPerMinute <=? length requestTimestamps)%nat then
    match fuel with
    | O => None
    | S fuel' =>
        let oldest := hd 0 requestTimestamps in
        let waitTime := 60000 - (now - oldest) + 100 in
        enforceRateLimit fuel' (now + Z.max 0 waitTime) requestTimestamps
    end
  else Some (now, requestTimestamps).

Definition cleanOldTimestamps (now : Z) (requestTimestamps : list Z) : list Z :=
  filter (fun ts => now - 60000 <? ts) requestTimestamps.

(** The two clocks of the platform.  [t] is the time elapsed since the
    page's time origin: [performance.now()] reads [t], [Date.now()] reads
    the time origin (milliseconds since 1970) plus [t]. *)
Section Clocks.
Variable timeOrigin : Z.

Definition Date_now (t : Z) : Z := timeOrigin + t.
Definition performance_now (t : Z) : Z := t.

(** One rate-limited request issued at [t] whose network call takes
    [duration] ms: [enforceRateLimit], then what [fetchBatchFromAPI] does to
    the window: it pushes [startTime = performance.now()], and its [finally]
    block calls [cleanOldTimestamps].  Yields the time at which the request
    is sent, the time at which it completes and the window left behind. *)
Definition request (fuel : nat) (t duration : Z) (requestTimestamps : list Z)
  : option (Z * Z * list Z) :=
  match enforceRateLimit fuel (Date_now t) requestTimestamps with
  | None => None
  | Some (admitted, window) =>
      let sent := admitted - timeOrigin in
      let window := window ++ [performance_now sent] in
      let finished := sent + duration in
      Some (sent, finished, cleanOldTimestamps (Date_now finished) window)
  end.

(** Requests issued one after the other; each is described by the pause
    before it is issued and the duration of its network call.  Returns the
    times at which the requests were sent. *)
Fixpoint requests (fuel : nat) (t : Z) (requestTimestamps : list Z)
  (plan : list (Z * Z)) : option (list Z) :=
  match plan with
  | [] => Some []
  | (pause, duration) :: plan' =>
      match request fuel (t + pause) duration requestTimestamps with
      | None => None
      | Some (sent, finished, window) =>
          option_map (cons sent) (requests fuel finished window plan')
      end
  end.

End Clocks.

(** *** Cache keys *)

(** [ToInt32], the conversion applied by the bitwise operators. *)
Definition toInt32 (z : Z) : Z := (z + 2 ^ 31) mod 2 ^ 32 - 2 ^ 31.

Definition hex_digit (d : Z) : ascii :=
  if d <? 10 then ascii_of_nat (48 + Z.to_nat d) else ascii_of_nat (87 + Z.to_nat d).

(** [Number.prototype.toString(16)] on a non-negative integer. *)
Fixpoint toString16_from (fuel : nat) (z : Z) (acc : string) : string :=
  match fuel with
  | O => acc
  | S fuel' =>
      let acc := String (hex_digit (z mod 16)) acc in
      if z / 16 =? 0 then acc else toString16_from fuel' (z / 16) acc
  end.

Definition toString16 (z : Z) : string := toString16_from 16 z EmptyString.

(** [hashString]: [hash = ((hash << 5) - hash) + char; hash = hash & hash]
    for every character, then [Math.abs(hash).toString(16).padStart(8, '0')]. *)
Fixpoint hashString_from (str : string) (hash : Z) : Z :=
  match str with
  | EmptyString => hash
  | String c rest =>
      let char := Z.of_nat (nat_of_ascii c) in
      hashString_from rest (toInt32 ((toInt32 (hash * 32) - hash) + char))
  end.

Definition hashString (str : string) : string :=
  padStart 8 "0" (toString16 (Z.abs (hashString_from str 0))).

(** Arrays live in a heap and are passed by reference. *)
Definition heap : Type := list (list string).

Definition read (h : heap) (r : nat) : list string := nth r h [].

Fixpoint write (h : heap) (r : nat) (a : list string) : heap :=
  match h, r with
  | [], _ => []
  | _ :: rest, O => a :: rest
  | x :: rest, S r' => x :: write rest r' a
  end.

Definition alloc (h : heap) (a : list string) : heap * nat := (h ++ [a], length h).

(** [getCacheKey]: [variables.sort()] sorts the array in place (by code
    units, the default order) and returns it. *)
Definition getCacheKey (zip : string) (variables : nat) (h : heap) : string * heap :=
  let sorted := JS.sort String.leb (read h variables) in
  let h := write h variables sorted in
  let varsHash := hashString (String.concat "," sorted) in
  (String.append cachePrefix (String.append zip (String.append "_" varsHash)), h).

(** *** Fetching *)

Record world : Type := mkWorld {
  arrays : heap;
  localStorage : Storage.t;
  cacheHits : nat;
  cacheMisses : nat
}.

(** [getFromCache]; [None] is [null].  Destructuring an array gives
    [undefined] for the three fields, and the object returned is
    [{data: undefined, metadata: undefined}], which prints as [{}]. *)
Definition getFromCache (now : Z) (zip : string) (variables : nat) (w : world)
  : option string * world :=
  let (cacheKey, h) := getCacheKey zip variables (arrays w) in
  let w := mkWorld h (localStorage w) (cacheHits w) (cacheMisses w) in
  match Storage.getItem (localStorage w) cacheKey with
  | None => (None, w)
  | Some (Storage.Opaque _) => (None, w)
  | Some (Storage.Items _ _) => (Some "{}"%string, w)
  | Some (Storage.Entry _ cached) =>
      match Storage.expiry cached with
      | Some expiry =>
          if expiry <? now
          then (None, mkWorld h (Storage.removeItem cacheKey (localStorage w))
                              (cacheHits w) (cacheMisses w))
          else (Some (Storage.payload cached), w)
      | None => (Some (Storage.payload cached), w)
      end
  end.

(** What the provider returned for one ZIP: the data with its metadata, and
    the length of the cache entry they serialise to. *)
Record fetched : Type := mkFetched {
  fetched_payload : string;
  fetched_len : Z
}.

(** [cacheData(zip, variables, data)]. *)
Definition cacheData (now : Z) (zip : string) (variables : nat) (data : fetched)
  (w : world) : world * cacheData_result :=
  let (cacheKey, h) := getCacheKey zip variables (arrays w) in
  let r := cacheData_at now cacheKey (fetched_payload data) (fetched_len data)
             (localStorage w) in
  (mkWorld h (store_after r) (cacheHits w) (cacheMisses w), r).

Fixpoint chunkArray_from (fuel : nat) (array : list string) (size : nat)
  : list (list string) :=
  match fuel with
  | O => []
  | S fuel' =>
      match array with
      | [] => []
      | _ => firstn size array :: chunkArray_from fuel' (skipn size array) size
      end
  end.

Definition chunkArray (array : list string) (size : nat) : list (list string) :=
  chunkArray_from (length array) array size.

Variable batchSize : nat.             (* options.batchSize || 10 *)
Variable maxRetries : nat.            (* options.maxRetries || 3 *)

(** [api zipCodes variables attempt]: what [fetchBatchFromAPI] does for this
    batch, with the variable names it reads from the array, on the given
    attempt. *)
Variable api : list string -> list string -> nat -> outcome (list (string * fetched)) error.

(** [entry_len n]: the length of the JSON text of the entry (time stamp,
    message, error text, stack and a copy of the statistics) that the call
    builds when it calls [logError] for the [n]-th time, counting from [0]. *)
Variable entry_len : nat -> Z.

(** The argument [variables] of the public methods. *)
Inductive argument : Type :=
| ArrayRef (r : nat)
| NotArray (s : string).

(** What [logError] does to [localStorage]: the entry, whose text has
    length [len], is appended to the array stored under ['acs_api_errors']
    (an empty array when the key is absent or holds the empty text), the
    oldest element is dropped when there are more than 50, and the array is
    written back.  An exception on the way (a stored text that does not
    parse or is not an array, the quota) is swallowed. *)
Definition logError_store (len : Z) (st : Storage.t) : Storage.t :=
  let stored :=
    match Storage.getItem st "acs_api_errors" with
    | None => Some []
    | Some (Storage.Items _ items) => Some items
    | Some (Storage.Opaque n) => if n =? 0 then Some [] else None
    | Some (Storage.Entry _ _) => None
    end in
  match stored with
  | None => st
  | Some storedErrors =>
      let storedErrors := storedErrors ++ [len] in
      let storedErrors :=
        if (50 <? length storedErrors)%nat then tl storedErrors else storedErrors in
      match Storage.setItem quota "acs_api_errors"
              (Storage.Items (Storage.items_len storedErrors) storedErrors) st with
      | Some st' => st'
      | None => st
      end
  end.

(** [count] calls of [logError], the first of them the [n]-th of the call. *)
Fixpoint log_entries (count n : nat) (st : Storage.t) : Storage.t :=
  match count with
  | O => st
  | S count' => log_entries count' (S n) (logError_store (entry_len n) st)
  end.

(** Whether a run of [fetchBatchWithRetry] ended with
    [logError('Max retries exceeded for batch', error)]. *)
Definition gave_up (trace : list Retry.event) : bool :=
  existsb (fun ev => match ev with Retry.EvLogError _ => true | _ => false end) trace.

(** The [catch] block of [fetchDataForZips]: the error is logged, as the
    [logged]-th entry of the call, and thrown again. *)
Definition log_and_rethrow (V : Type) (logged : nat) (e : error) (w : world)
  : world * completion V error :=
  (mkWorld (arrays w) (logError_store (entry_len logged) (localStorage w))
           (cacheHits w) (cacheMisses w),
   Throw e).

(** "Check cache first". *)
Fixpoint check_cache (now : Z) (variables : nat) (zipCodes : list string)
  (results : list (string * string)) (missingZips : list string) (w : world)
  : list (string * string) * list string * world :=
  match zipCodes with
  | [] => (results, missingZips, w)
  | zip :: rest =>
      match getFromCache now zip variables w with
      | (Some cached, w) =>
          check_cache now variables rest (Map_set String.eqb zip cached results) missingZips
            (mkWorld (arrays w) (localStorage w) (S (cacheHits w)) (cacheMisses w))
      | (None, w) =>
          check_cache now variables rest results (missingZips ++ [zip])
            (mkWorld (arrays w) (localStorage w) (cacheHits w) (S (cacheMisses w)))
      end
  end.

(** "Process batch results", for one fulfilled batch. *)
Fixpoint store_batch (now : Z) (variables : nat) (entries : list (string * fetched))
  (results : list (string * string)) (w : world) : list (string * string) * world :=
  match entries with
  | [] => (results, w)
  | (zip, data) :: rest =>
      let results := Map_set String.eqb zip (fetched_payload data) results in
      let (w, _) := cacheData now zip variables data w in
      store_batch now variables rest results w
  end.

(** "Process batch results": a fulfilled batch is stored, a rejected one
    logged with ['Batch fetch failed'].  [logged] counts the calls of
    [logError] made so far.  A batch fulfilled with [undefined] makes
    [Object.entries] throw, which ends the loop; the error is the last
    component of the result. *)
Fixpoint store_batches (now : Z) (variables : nat)
  (batchResults : list (completion (list (string * fetched)) error))
  (results : list (string * string)) (logged : nat) (w : world)
  : list (string * string) * nat * world * option error :=
  match batchResults with
  | [] => (results, logged, w, None)
  | Return entries :: rest =>
      let (results, w) := store_batch now variables entries results w in
      store_batches now variables rest results logged w
  | ReturnUndefined :: _ =>
      (results, logged, w,
       Some (mkError "TypeError" "Cannot convert undefined or null to object"))
  | _ :: rest =>
      let w := mkWorld (arrays w) (logError_store (entry_len logged) (localStorage w))
                       (cacheHits w) (cacheMisses w) in
      store_batches now variables rest results (S logged) w
  end.

(** [fetchDataForZips], entered when [Date.now()] reads [now]; the batches
    settle and are written back when it reads [later].  An exception in the
    [try] block is logged by the [catch] block and thrown again.  While the
    batches run, each one that gives up logs its last error; the order in
    which they do so decides nothing here, as the entries are told apart by
    their position only.  Statistics other than the cache counters, events
    and the in-memory error log are left out. *)
Definition fetchDataForZips (now later : Z) (zipCodes : list string) (variables : argument)
  (w : world) : world * completion (list (string * string)) error :=
  let (h, variables) :=
    match variables with
    | ArrayRef r => (arrays w, r)
    | NotArray v => alloc (arrays w) [v]
    end in
  let w := mkWorld h (localStorage w) (cacheHits w) (cacheMisses w) in
  match zipCodes with
  | [] => log_and_rethrow _ 0 (mkError "Error" "No ZIP codes provided") w
  | _ =>
      match read h variables with
      | [] => log_and_rethrow _ 0 (mkError "Error" "No variables specified") w
      | _ =>
          let '(results, missingZips, w) := check_cache now variables zipCodes [] [] w in
          match missingZips with
          | [] => (w, Return results)
          | _ =>
              let batches := chunkArray missingZips batchSize in
              let runs :=
                map (fun batch =>
                       Retry.fetchBatchWithRetry
                         (api batch (read (arrays w) variables)) maxRetries)
                    batches in
              let gaveUp := length (filter (fun run => gave_up (fst run)) runs) in
              let w := mkWorld (arrays w) (log_entries gaveUp 0 (localStorage w))
                               (cacheHits w) (cacheMisses w) in
              match store_batches later variables (map snd runs) results gaveUp w with
              | (results, _, w, None) => (w, Return results)
              | (_, logged, w, Some error) => log_and_rethrow _ logged error w
              end
          end
      end
  end.

(** [fetchSingleZip]: [result[zip] || null]. *)
Definition fetchSingleZip (now later : Z) (zip : string) (variables : argument) (w : world)
  : world * completion (option string) error :=
  match fetchDataForZips now later [zip] variables w with
  | (w, Return result) => (w, Return (Map_get String.eqb zip result))
  | (w, Throw e) => (w, Throw e)
  | (w, ReturnUndefined) => (w, ReturnUndefined)
  | (w, ThrowUndefined) => (w, ThrowUndefined)
  end.

(** The number of requests sent within the 60 seconds that end at [t]. *)
Definition sent_in_window (t : Z) (sent : list Z) : nat :=
  length (filter (fun s => (t - 60000 <? s) && (s <=? t)) sent).

End Service.

(** *** Error log *)

(** The bound set by the constructor. *)
Definition maxErrorLogSize : nat := 100.

(** What [logError] does to [this.errorLog]: [push], then [shift] when the
    log has grown past the bound.  The entry is the object built from the
    message and the error.  What it does to [localStorage] is
    [logError_store] above. *)
Definition logError (A : Type) (maxErrorLogSize : nat) (errorEntry : A) (errorLog : list A)
  : list A :=
  let errorLog := errorLog ++ [errorEntry] in
  if (maxErrorLogSize <? length errorLog)%nat then tl errorLog else errorLog.

(** [Array.prototype.slice(start)]: a negative [start] counts from the end. *)
Definition slice (A : Type) (start : Z) (l : list A) : list A :=
  let len := Z.of_nat (length l) in
  let from := if start <? 0 then Z.max (len + start) 0 else Z.min start len in
  skipn (Z.to_nat from) l.

(** [getErrorLog(limit)] is [this.errorLog.slice(-limit)]. *)
Definition getErrorLog (A : Type) (limit : Z) (errorLog : list A) : list A :=
  slice (- limit) errorLog.

(** The log after the given entries have been logged one after the other. *)
Definition log_all (A : Type) (maxErrorLogSize : nat) (entries errorLog : list A) : list A :=
  fold_left (fun log e => logError maxErrorLogSize e log) entries errorLog.

End ACS.

(** ** [ZIPCodeIndex] *)

Module ZipIndex.
Import JS.
Local Open Scope Q_scope.

Record ZipRecord : Type := mkZip {
  zip : string;
  lat : option Q;               (* null or a number *)
  lng : option Q;
  city : string;
  state_id : string;
  county_fips : string;
  county_name : string;
  population : Z
}.

(** An element of a grid cell: [{zip, lat, lng}]. *)
Record stub : Type := mkStub {
  stub_zip : string;
  stub_lat : Q;
  stub_lng : Q
}.

(** The key [`${latGrid},${lngGrid}`], as the pair it prints. *)
Definition gridKey : Type := (Z * Z)%type.

Definition gridKey_eqb (a b : gridKey) : bool :=
  (fst a =? fst b)%Z && (snd a =? snd b)%Z.

Record index : Type := mkIndex {
  zips : list (string * ZipRecord);
  stateIndex : list (string * list string);
  cityIndex : list (string * list string);
  countyIndex : list (string * list string);
  spatialIndex : list (gridKey * list stub);
  loaded : bool;
  totalRecords : nat
}.

(** The constructor, and [clear]. *)
Definition empty : index := mkIndex [] [] [] [] [] false 0.

(** [if (!m.has(k)) m.set(k, new Set()); m.get(k).add(zip)]. *)
Definition index_add (k z : string) (m : list (string * list string))
  : list (string * list string) :=
  match Map_get String.eqb k m with
  | Some set => Map_set String.eqb k (Set_add String.eqb z set) m
  | None => Map_set String.eqb k [z] m
  end.

Definition indexRecord (record : ZipRecord) (idx : index) : index :=
  let zips' := Map_set String.eqb (zip record) record (zips idx) in
  let stateIndex' :=
    if truthy (state_id record)
    then index_add (state_id record) (zip record) (stateIndex idx)
    else stateIndex idx in
  let cityIndex' :=
    if truthy (city record)
    then index_add (String.append (toLowerCase (city record))
                      (String.append "," (state_id record)))
                   (zip record) (cityIndex idx)
    else cityIndex idx in
  let countyIndex' :=
    if truthy (county_fips record)
    then index_add (county_fips record) (zip record) (countyIndex idx)
    else countyIndex idx in
  mkIndex zips' stateIndex' cityIndex' countyIndex'
          (spatialIndex idx) (loaded idx) (totalRecords idx).

Definition getGridKey (lat lng gridSize : Q) : gridKey :=
  (Qfloor (lat / gridSize), Qfloor (lng / gridSize)).

(** One iteration of the loop of [buildSpatialIndex]. *)
Definition add_stub (cells : list (gridKey * list stub)) (entry : string * ZipRecord)
  : list (gridKey * list stub) :=
  let (zip, record) := entry in
  match lat record, lng record with
  | Some la, Some lo =>
      let gridKey := getGridKey la lo 0.5 in
      let cell := match Map_get gridKey_eqb gridKey cells with
                  | Some c => c
                  | None => []
                  end in
      Map_set gridKey_eqb gridKey (cell ++ [mkStub zip la lo]) cells
  | _, _ => cells
  end.

Definition buildSpatialIndex (idx : index) : index :=
  mkIndex (zips idx) (stateIndex idx) (cityIndex idx) (countyIndex idx)
          (fold_left add_stub (zips idx) (spatialIndex idx))
          (loaded idx) (totalRecords idx).

(** [loadFromJSON], given the records of the fetched document. *)
Definition loadFromJSON (data : list ZipRecord) (idx : index) : index :=
  let idx := fold_left (fun acc record => indexRecord record acc) data idx in
  let idx := mkIndex (zips idx) (stateIndex idx) (cityIndex idx) (countyIndex idx)
                     (spatialIndex idx) true (length (zips idx)) in
  buildSpatialIndex idx.

(** [get]; [None] is [null]. *)
Definition get (idx : index) (zip : string) : option ZipRecord :=
  Map_get String.eqb (padStart 5 "0" zip) (zips idx).

(** The loop shared by [getByState] and [getByCounty]. *)
Fixpoint push_until (idx : index) (limit : nat) (zipSet : list string)
  (results : list (option ZipRecord)) : list (option ZipRecord) :=
  match zipSet with
  | [] => results
  | zip :: rest =>
      let results := results ++ [get idx zip] in
      if (limit <=? length results)%nat then results
      else push_until idx limit rest results
  end.

Definition getByState (idx : index) (stateId : string) (limit : nat)
  : list (option ZipRecord) :=
  let zipSet := match Map_get String.eqb (toUpperCase stateId) (stateIndex idx) with
                | Some s => s
                | None => []
                end in
  push_until idx limit zipSet [].

Definition getByCounty (idx : index) (countyFips : string) (limit : nat)
  : list (option ZipRecord) :=
  let zipSet := match Map_get String.eqb countyFips (countyIndex idx) with
                | Some s => s
                | None => []
                end in
  push_until idx limit zipSet [].

(** Several loads, one after the other, into the same index. *)
Definition load_all (loads : list (list ZipRecord)) (idx : index) : index :=
  fold_left (fun acc data => loadFromJSON data acc) loads idx.

(** The ZIPs filed under a state. *)
Definition state_zips (idx : index) (stateId : string) : list string :=
  match Map_get String.eqb stateId (stateIndex idx) with
  | Some s => s
  | None => []
  end.

(** How many elements of a result are records with the given ZIP. *)
Definition occurrences (z : string) (results : list (option ZipRecord)) : nat :=
  length (filter (fun o => match o with
                           | Some rec => String.eqb (zip rec) z
                           | None => false
                           end) results).

(** *** Radius search *)

(** The functions and the constant of [Math] that the search uses. *)
Record MathLib : Type := mkMath {
  Math_PI : Q;
  Math_sin : Q -> Q;
  Math_cos : Q -> Q;
  Math_sqrt : Q -> Q;
  Math_atan2 : Q -> Q -> Q
}.

(** An element of the result: [{...record, distance}]. *)
Record found : Type := mkFound {
  record : ZipRecord;
  distance : Q
}.

(** The comparator [(a, b) => a.distance - b.distance]. *)
Definition by_distance (a b : found) : bool := Qle_bool (distance a - distance b) 0.

(** The integers from [lo] to [hi], as a [for] loop visits them. *)
Definition Z_range (lo hi : Z) : list Z :=
  map (fun i => (lo + Z.of_nat i)%Z) (seq 0 (Z.to_nat (hi - lo + 1))).

(** The state of the scan: either the function has returned, or the loops
    go on with the results gathered so far. *)
Inductive scan : Type :=
| Returned (results : list found)
| Scanning (results : list found).

Section Search.
Variable M : MathLib.
Variable idx : index.
Variables lat lng radiusKm : Q.
Variable limit : nat.

Definition earthRadius : Q := 6371.

Definition latDelta : Q := radiusKm / 111.32.
Definition lngDelta : Q := radiusKm / (111.32 * Math_cos M (lat * Math_PI M / 180)).

Definition minLat : Q := lat - latDelta.
Definition maxLat : Q := lat + latDelta.
Definition minLng : Q := lng - lngDelta.
Definition maxLng : Q := lng + lngDelta.

Definition in_box (cell : stub) : bool :=
  Qle_bool minLat (stub_lat cell) && Qle_bool (stub_lat cell) maxLat &&
  Qle_bool minLng (stub_lng cell) && Qle_bool (stub_lng cell) maxLng.

(** "Calculate exact distance". *)
Definition haversine (cell_lat cell_lng : Q) : Q :=
  let dLat := (cell_lat - lat) * Math_PI M / 180 in
  let dLng := (cell_lng - lng) * Math_PI M / 180 in
  let a := Math_sin M (dLat / 2) * Math_sin M (dLat / 2) +
           Math_cos M (lat * Math_PI M / 180) *
           Math_cos M (cell_lat * Math_PI M / 180) *
           Math_sin M (dLng / 2) * Math_sin M (dLng / 2) in
  earthRadius * 2 * Math_atan2 M (Math_sqrt M a) (Math_sqrt M (1 - a)).

(** The innermost loop, over the stubs of one grid cell. *)
Fixpoint scan_cell (cells : list stub) (results : list found) : scan :=
  match cells with
  | [] => Scanning results
  | cell :: rest =>
      if in_box cell then
        let distance := haversine (stub_lat cell) (stub_lng cell) in
        if Qle_bool distance radiusKm then
          let results :=
            match get idx (stub_zip cell) with
            | Some record => results ++ [mkFound record distance]
            | None => results
            end in
          if (limit <=? length results)%nat
          then Returned (JS.sort by_distance results)
          else scan_cell rest results
        else scan_cell rest results
      else scan_cell rest results
  end.

Definition cells_at (latGrid lngGrid : Z) : list stub :=
  match Map_get gridKey_eqb (latGrid, lngGrid) (spatialIndex idx) with
  | Some cells => cells
  | None => []
  end.

Fixpoint scan_lng (latGrid : Z) (lngGrids : list Z) (results : list found) : scan :=
  match lngGrids with
  | [] => Scanning results
  | lngGrid :: rest =>
      match scan_cell (cells_at latGrid lngGrid) results with
      | Returned r => Returned r
      | Scanning r => scan_lng latGrid rest r
      end
  end.

Fixpoint scan_lat (latGrids lngGrids : list Z) (results : list found) : scan :=
  match latGrids with
  | [] => Scanning results
  | latGrid :: rest =>
      match scan_lng latGrid lngGrids results with
      | Returned r => Returned r
      | Scanning r => scan_lat rest lngGrids r
      end
  end.

Definition searchByRadius : list found :=
  let GRID_SIZE := 0.5 in
  let minLatGrid := Qfloor (minLat / GRID_SIZE) in
  let maxLatGrid := Qfloor (maxLat / GRID_SIZE) in
  let minLngGrid := Qfloor (minLng / GRID_SIZE) in
  let maxLngGrid := Qfloor (maxLng / GRID_SIZE) in
  match scan_lat (Z_range minLatGrid maxLatGrid) (Z_range minLngGrid maxLngGrid) [] with
  | Returned results => results
  | Scanning results => JS.sort by_distance results
  end.

(** The stubs that pass the two tests of the loop body, with their records
    and distances, in the order in which the loops visit them. *)
Definition match_of (cell : stub) : list found :=
  if in_box cell && Qle_bool (haversine (stub_lat cell) (stub_lng cell)) radiusKm then
    match get idx (stub_zip cell) with
    | Some record => [mkFound record (haversine (stub_lat cell) (stub_lng cell))]
    | None => []
    end
  else [].

Definition matches_in_scan_order : list found :=
  let GRID_SIZE := 0.5 in
  flat_map (fun latGrid =>
    flat_map (fun lngGrid => flat_map match_of (cells_at latGrid lngGrid))
      (Z_range (Qfloor (minLng / GRID_SIZE)) (Qfloor (maxLng / GRID_SIZE))))
    (Z_range (Qfloor (minLat / GRID_SIZE)) (Qfloor (maxLat / GRID_SIZE))).

End Search.

(** [searchByBoundingBox]; a coordinate that is [null] compares as [0]. *)
Definition number_of (c : option Q) : Q := match c with Some q => q | None => 0 end.

Fixpoint box_until (limit : nat) (bounds : Q * Q * Q * Q)
  (entries : list (string * ZipRecord)) (results : list ZipRecord) : list ZipRecord :=
  match entries with
  | [] => results
  | (_, record) :: rest =>
      let '(minLat, minLng, maxLat, maxLng) := bounds in
      if Qle_bool minLat (number_of (lat record)) && Qle_bool (number_of (lat record)) maxLat &&
         Qle_bool minLng (number_of (lng record)) && Qle_bool (number_of (lng record)) maxLng
      then
        let results := results ++ [record] in
        if (limit <=? length results)%nat then results
        else box_until limit bounds rest results
      else box_until limit bounds rest results
  end.

Definition searchByBoundingBox (idx : index) (bounds : Q * Q * Q * Q) (limit : nat)
  : list ZipRecord :=
  box_until limit bounds (zips idx) [].

(** [exportData]. *)
Fixpoint export_until (limit : nat) (entries : list (string * ZipRecord))
  (data : list ZipRecord) : list ZipRecord :=
  match entries with
  | [] => data
  | (_, record) :: rest =>
      let data := data ++ [record] in
      if (limit <=? length data)%nat then data else export_until limit rest data
  end.

Definition exportData (idx : index) (limit : nat) : list ZipRecord :=
  export_until limit (zips idx) [].

(** [String.prototype.includes] and [split(',')]. *)
Fixpoint includes (s sub : string) : bool :=
  String.prefix sub s ||
  match s with
  | EmptyString => false
  | String _ rest => includes rest sub
  end.

Fixpoint split_comma (s : string) (current : string) : list string :=
  match s with
  | EmptyString => [current]
  | String c rest =>
      if Ascii.eqb c ","%char then current :: split_comma rest EmptyString
      else split_comma rest (String.append current (String c EmptyString))
  end.

(** [searchByCity]; [stateId] is [None] for [null]. *)
Definition city_matches (searchTerm : string) (stateId : option string) (cityKey : string)
  : bool :=
  let parts := split_comma cityKey EmptyString in
  let city := nth 0 parts EmptyString in
  includes city searchTerm &&
  match stateId with
  | None => true
  | Some st =>
      if truthy st
      then match nth_error parts 1 with
           | Some state => String.eqb state (toUpperCase st)
           | None => false
           end
      else true
  end.

Fixpoint city_loop (idx : index) (searchTerm : string) (stateId : option string)
  (limit : nat) (entries : list (string * list string))
  (results : list (option ZipRecord)) : list (option ZipRecord) :=
  match entries with
  | [] => results
  | (cityKey, zipSet) :: rest =>
      let results :=
        if city_matches searchTerm stateId cityKey
        then push_until idx limit zipSet results
        else results in
      if (limit <=? length results)%nat then results
      else city_loop idx searchTerm stateId limit rest results
  end.

Definition searchByCity (idx : index) (cityName : string) (stateId : option string)
  (limit : nat) : list (option ZipRecord) :=
  city_loop idx (toLowerCase cityName) stateId limit (cityIndex idx) [].

End ZipIndex.

(* ================================================================== *)
(** * Part II: properties                                              *)
(* ================================================================== *)

(** ** Facts about the library model *)

Module JSFacts.
Import JS.

Section SortFacts.
Variable A : Type.
Variable le : A -> A -> bool.

Lemma place_perm (x : A) (l : list A) : Permutation (x :: l) (place le x l).
Proof.
  induction l as [|y l IH]; simpl.
  - apply Permutation_refl.
  - destruct (le x y).
    + apply Permutation_refl.
    + eapply perm_trans; [apply perm_swap|]. apply perm_skip. exact IH.
Qed.

Lemma sort_perm (l : list A) : Permutation l (sort le l).
Proof.
  induction l as [|x l IH]; simpl.
  - apply perm_nil.
  - eapply perm_trans; [apply perm_skip; exact IH | apply place_perm].
Qed.

Lemma sort_length (l : list A) : length (sort le l) = length l.
Proof. symmetry. apply Permutation_length, sort_perm. Qed.

Lemma sort_In (x : A) (l : list A) : In x (sort le l) <-> In x l.
Proof.
  split; intro H.
  - eapply Permutation_in; [apply Permutation_sym, sort_perm | exact H].
  - eapply Permutation_in; [apply sort_perm | exact H].
Qed.

Definition ordered : list A -> Prop := StronglySorted (fun x y => le x y = true).

(** A list already in order is left as it is. *)
Lemma sort_ordered_id (l : list A) : ordered l -> sort le l = l.
Proof.
  induction 1 as [|x l Hl IH Hx]; simpl; [reflexivity|].
  rewrite IH. destruct l as [|y l']; [reflexivity|]. simpl.
  inversion Hx as [|? ? Hxy _]; subst. rewrite Hxy. reflexivity.
Qed.

Hypothesis le_total : forall x y, le x y = true \/ le y x = true.
Hypothesis le_trans : forall x y z, le x y = true -> le y z = true -> le x z = true.

Lemma place_ordered (x : A) (l : list A) : ordered l -> ordered (place le x l).
Proof.
  induction 1 as [|y l Hl IH Hy]; simpl.
  - constructor; constructor.
  - destruct (le x y) eqn:Hxy.
    + constructor; [constructor; assumption|].
      constructor; [exact Hxy|].
      eapply Forall_impl; [|exact Hy]. intros z Hz. eapply le_trans; eassumption.
    + constructor; [exact IH|].
      assert (Hyx : le y x = true) by (destruct (le_total x y); congruence).
      eapply Permutation_Forall; [apply place_perm|].
      constructor; assumption.
Qed.

Lemma sort_ordered (l : list A) : ordered (sort le l).
Proof.
  induction l as [|x l IH]; simpl; [constructor | apply place_ordered, IH].
Qed.

(** In an ordered list, whatever is among the first [n] elements comes
    before whatever is not. *)
Lemma ordered_firstn_skipn (n : nat) (l : list A) (x y : A) :
  ordered l -> In x (firstn n l) -> In y (skipn n l) -> le x y = true.
Proof.
  intros Hl. revert n. induction Hl as [|z l Hl IH Hz]; intros n Hx Hy.
  - rewrite firstn_nil in Hx. destruct Hx.
  - destruct n as [|n]; simpl in Hx, Hy; [destruct Hx|].
    destruct Hx as [->|Hx].
    + rewrite Forall_forall in Hz. apply Hz.
      rewrite <- (firstn_skipn n l). apply in_or_app. right. exact Hy.
    + eapply IH; eassumption.
Qed.

End SortFacts.

Section MapFacts.
Variables K V : Type.
Variable eqb : K -> K -> bool.
Hypothesis eqb_eq : forall a b, eqb a b = true <-> a = b.

Lemma eqb_refl' (a : K) : eqb a a = true.
Proof. apply eqb_eq. reflexivity. Qed.

Lemma eqb_neq (a b : K) : a <> b -> eqb a b = false.
Proof.
  intros Hne. destruct (eqb a b) eqn:E; [|reflexivity].
  apply eqb_eq in E. contradiction.
Qed.

Lemma Map_get_cons (k k' : K) (v' : V) (m : list (K * V)) :
  Map_get eqb k ((k', v') :: m) = if eqb k' k then Some v' else Map_get eqb k m.
Proof. unfold Map_get. simpl. destruct (eqb k' k); reflexivity. Qed.

Lemma Map_get_set_same (k : K) (v : V) (m : list (K * V)) :
  Map_get eqb k (Map_set eqb k v m) = Some v.
Proof.
  induction m as [|[k' v'] m IH]; simpl.
  - rewrite Map_get_cons, eqb_refl'. reflexivity.
  - destruct (eqb k' k) eqn:E; rewrite Map_get_cons.
    + rewrite eqb_refl'. reflexivity.
    + rewrite E. exact IH.
Qed.

Lemma Map_get_set_other (k k0 : K) (v : V) (m : list (K * V)) :
  k0 <> k -> Map_get eqb k0 (Map_set eqb k v m) = Map_get eqb k0 m.
Proof.
  intros Hne. induction m as [|[k' v'] m IH]; simpl.
  - rewrite Map_get_cons. rewrite eqb_neq by congruence. reflexivity.
  - destruct (eqb k' k) eqn:E; rewrite !Map_get_cons.
    + apply eqb_eq in E. subst k'. rewrite (@eqb_neq k k0) by congruence. reflexivity.
    + rewrite IH. reflexivity.
Qed.

Lemma In_Map_set (k k0 : K) (v v0 : V) (m : list (K * V)) :
  In (k0, v0) (Map_set eqb k v m) -> (k0 = k /\ v0 = v) \/ In (k0, v0) m.
Proof.
  induction m as [|[k' v'] m IH]; simpl.
  - intros [H|[]]. injection H as <- <-. auto.
  - destruct (eqb k' k); simpl.
    + intros [H|H]; [injection H as <- <-|]; auto.
    + intros [H|H]; auto. destruct (IH H); auto.
Qed.

Lemma keys_Map_set (k k0 : K) (v : V) (m : list (K * V)) :
  In k0 (map fst (Map_set eqb k v m)) <-> k0 = k \/ In k0 (map fst m).
Proof.
  induction m as [|[k' v'] m IH]; simpl.
  - intuition.
  - destruct (eqb k' k) eqn:E; simpl.
    + apply eqb_eq in E. subst k'. intuition.
    + rewrite IH. intuition.
Qed.

Lemma NoDup_Map_set (k : K) (v : V) (m : list (K * V)) :
  NoDup (map fst m) -> NoDup (map fst (Map_set eqb k v m)).
Proof.
  induction m as [|[k' v'] m IH]; simpl; intros Hnd.
  - constructor; [intros [] | constructor].
  - inversion Hnd as [|? ? Hnot Hrest]; subst.
    destruct (eqb k' k) eqn:E; simpl.
    + apply eqb_eq in E. subst k'. constructor; assumption.
    + constructor; [|apply IH; assumption].
      rewrite keys_Map_set. intros [->|H]; [|contradiction].
      rewrite eqb_refl' in E. discriminate.
Qed.

Lemma Map_get_In (k : K) (v : V) (m : list (K * V)) :
  Map_get eqb k m = Some v -> In (k, v) m.
Proof.
  induction m as [|[k' v'] m IH]; [discriminate|].
  rewrite Map_get_cons. destruct (eqb k' k) eqn:E.
  - intros H. injection H as <-. apply eqb_eq in E. subst. left. reflexivity.
  - intros H. right. apply IH. exact H.
Qed.

Lemma In_Map_get (k : K) (v : V) (m : list (K * V)) :
  NoDup (map fst m) -> In (k, v) m -> Map_get eqb k m = Some v.
Proof.
  induction m as [|[k' v'] m IH]; simpl; intros Hnd Hin; [destruct Hin|].
  inversion Hnd as [|? ? Hnot Hrest]; subst. rewrite Map_get_cons.
  destruct Hin as [H|H].
  - injection H as -> ->. rewrite eqb_refl'. reflexivity.
  - destruct (eqb k' k) eqn:E.
    + apply eqb_eq in E. subst k'. exfalso. apply Hnot.
      apply in_map_iff. exists (k, v). auto.
    + apply IH; assumption.
Qed.

Lemma In_Set_add (x y : K) (s : list K) :
  In x (Set_add eqb y s) <-> x = y \/ In x s.
Proof.
  unfold Set_add. destruct (existsb (eqb y) s) eqn:E.
  - split; [auto|]. intros [->|H]; [|exact H].
    apply existsb_exists in E. destruct E as (z & Hz & Hyz).
    apply eqb_eq in Hyz. subst. exact Hz.
  - rewrite in_app_iff. simpl. intuition.
Qed.

Lemma NoDup_Set_add (y : K) (s : list K) : NoDup s -> NoDup (Set_add eqb y s).
Proof.
  intros Hnd. unfold Set_add. destruct (existsb (eqb y) s) eqn:E; [exact Hnd|].
  apply NoDup_app; [exact Hnd | constructor; [intros [] | constructor] |].
  intros x Hx [Heq|[]]. subst x.
  assert (existsb (eqb y) s = true); [|congruence].
  apply existsb_exists. exists y. split; [exact Hx | apply eqb_refl'].
Qed.

End MapFacts.

Arguments Map_get_set_same [K V eqb] eqb_eq k v m.
Arguments Map_get_set_other [K V eqb] eqb_eq [k k0] v m _.
Arguments In_Map_set [K V eqb k k0 v v0 m] _.
Arguments keys_Map_set [K V eqb] eqb_eq k k0 v m.
Arguments NoDup_Map_set [K V eqb] eqb_eq k v [m] _.
Arguments Map_get_In [K V eqb] eqb_eq [k v m] _.
Arguments In_Map_get [K V eqb] eqb_eq [k v m] _ _.
Arguments In_Set_add [K eqb] eqb_eq x y s.
Arguments NoDup_Set_add [K eqb] eqb_eq y [s] _.

(** The default order of [sort] on strings is a total preorder. *)
Lemma ascii_compare_Lt_trans (a b c : ascii) :
  Ascii.compare a b = Lt -> Ascii.compare b c = Lt -> Ascii.compare a c = Lt.
Proof.
  unfold Ascii.compare. rewrite !N.compare_lt_iff. apply N.lt_trans.
Qed.

Lemma string_leb_trans (a : string) : forall b c,
  String.leb a b = true -> String.leb b c = true -> String.leb a c = true.
Proof.
  unfold String.leb.
  induction a as [|x a IH]; intros [|y b] [|z c]; simpl; try congruence.
  destruct (Ascii.compare x y) eqn:Exy; try congruence;
    destruct (Ascii.compare y z) eqn:Eyz; try congruence.
  - apply Ascii.compare_eq_iff in Exy, Eyz. subst.
    replace (Ascii.compare z z) with Eq
      by (symmetry; unfold Ascii.compare; apply N.compare_refl).
    apply IH.
  - apply Ascii.compare_eq_iff in Exy. subst. rewrite Eyz. congruence.
  - apply Ascii.compare_eq_iff in Eyz. subst. rewrite Exy. congruence.
  - rewrite (ascii_compare_Lt_trans _ _ _ Exy Eyz). congruence.
Qed.

Lemma sort_strings_ordered (l : list string) : ordered String.leb (sort String.leb l).
Proof. apply sort_ordered; [apply String.leb_total | apply string_leb_trans]. Qed.

Lemma sort_strings_idempotent (l : list string) :
  sort String.leb (sort String.leb l) = sort String.leb l.
Proof. apply sort_ordered_id, sort_strings_ordered. Qed.

Lemma padStart_full (n : nat) (c : ascii) (s : string) :
  (n <= String.length s)%nat -> padStart n c s = s.
Proof.
  intros H. unfold padStart. replace (n - String.length s)%nat with 0%nat by lia.
  reflexivity.
Qed.

End JSFacts.

Module RetryFacts.
Import JS Retry.

Example fetchBatchWithRetry_three_failures :
  fetchBatchWithRetry (fun _ => @Rejected nat error (mkError "Error" "HTTP 500")) 3
  = ([EvRateLimit; EvInvoke 1;
      EvSleep 2000; EvRateLimit; EvInvoke 2;
      EvSleep 4000; EvRateLimit; EvInvoke 3;
      EvLogError (mkError "Error" "HTTP 500")],
     Throw (mkError "Error" "HTTP 500")).
Proof. reflexivity. Qed.

Example fetchWithRetry_three_failures :
  fetchWithRetry (fun _ => @Rejected nat error (mkError "Error" "HTTP 500")) 3
  = ([EvInvoke 1; EvSleep 2000; EvInvoke 2; EvSleep 4000; EvInvoke 3],
     Throw (mkError "Error" "HTTP 500")).
Proof. reflexivity. Qed.


(** *** Shape of the traces *)

Lemma invocations_app (t u : list event) :
  invocations (t ++ u) = invocations t ++ invocations u.
Proof.
  induction t as [|ev t IH]; [reflexivity|].
  destruct ev; simpl; rewrite IH; reflexivity.
Qed.

Definition backoff_of (attempt : nat) : list Z :=
  if (1 <? attempt)%nat then [2 ^ (Z.of_nat attempt - 1) * 1000] else [].

Section LoopFacts.
Variable V : Type.
Variable op : nat -> outcome V error.
Variable maxRetries : nat.

Let batch_from := fetchBatchWithRetry_from op maxRetries.
Let plain_from := fetchWithRetry_from op maxRetries.

Lemma batch_from_unfold remaining attempt lastError :
  batch_from (S remaining) attempt lastError =
  let prefix := map EvSleep (backoff_of attempt) ++ [EvRateLimit; EvInvoke attempt] in
  match op attempt with
  | Fulfilled v => (prefix, Return v)
  | Rejected e =>
      if (attempt =? maxRetries)%nat then (prefix ++ [EvLogError e], Throw e)
      else (prefix ++ fst (batch_from remaining (S attempt) (Some e)),
            snd (batch_from remaining (S attempt) (Some e)))
  end.
Proof.
  unfold batch_from, backoff_of; simpl.
  destruct (op attempt) as [v|e]; [destruct (1 <? attempt)%nat; reflexivity|].
  destruct (attempt =? maxRetries)%nat; [destruct (1 <? attempt)%nat; reflexivity|].
  destruct (fetchBatchWithRetry_from op maxRetries remaining (S attempt) (Some e)).
  destruct (1 <? attempt)%nat; reflexivity.
Qed.

Lemma plain_from_unfold remaining attempt :
  plain_from (S remaining) attempt =
  match op attempt with
  | Fulfilled v => ([EvInvoke attempt], Return v)
  | Rejected e =>
      if (attempt =? maxRetries)%nat then ([EvInvoke attempt], Throw e)
      else (EvInvoke attempt
              :: EvSleep (Z.min (1000 * 2 ^ Z.of_nat attempt) 10000)
              :: fst (plain_from remaining (S attempt)),
            snd (plain_from remaining (S attempt)))
  end.
Proof.
  unfold plain_from; simpl.
  destruct (op attempt) as [v|e]; [reflexivity|].
  destruct (attempt =? maxRetries)%nat; [reflexivity|].
  destruct (fetchWithRetry_from op maxRetries remaining (S attempt)); reflexivity.
Qed.

Lemma sleeps_before_prefix a pending attempt rest :
  sleeps_before a pending
    ((map EvSleep (backoff_of attempt) ++ [EvRateLimit; EvInvoke attempt]) ++ rest)
  = if (attempt =? a)%nat then Some (pending ++ backoff_of attempt)
    else sleeps_before a [] rest.
Proof.
  unfold backoff_of. destruct (1 <? attempt)%nat; simpl.
  - reflexivity.
  - rewrite app_nil_r. reflexivity.
Qed.

Lemma In_invoke_prefix a attempt rest :
  In (EvInvoke a)
     ((map EvSleep (backoff_of attempt) ++ [EvRateLimit; EvInvoke attempt]) ++ rest) ->
  a = attempt \/ In (EvInvoke a) rest.
Proof.
  rewrite !in_app_iff. intros [[H|H]|H]; auto.
  - unfold backoff_of in H. destruct (1 <? attempt)%nat; simpl in H.
    + destruct H as [H|[]]; discriminate.
    + destruct H.
  - simpl in H. destruct H as [H|[H|[]]]; [discriminate|].
    injection H as ->. auto.
Qed.

(** Before attempt [a] of [fetchBatchWithRetry] the loop has requested
    exactly the suspensions [backoff_of a] since the previous call. *)
Lemma batch_from_sleeps remaining : forall attempt lastError a pending,
  In (EvInvoke a) (fst (batch_from remaining attempt lastError)) ->
  (attempt <= a)%nat /\
  sleeps_before a pending (fst (batch_from remaining attempt lastError))
  = Some (if (a =? attempt)%nat then pending ++ backoff_of attempt else backoff_of a).
Proof.
  induction remaining as [|remaining IH]; intros attempt lastError a pending Hin.
  - destruct Hin.
  - rewrite batch_from_unfold in *. cbv zeta in *.
    assert (Hstep : forall rest,
      (a = attempt \/ In (EvInvoke a) rest) ->
      (In (EvInvoke a) rest ->
         (S attempt <= a)%nat /\
         sleeps_before a [] rest
         = Some (if (a =? S attempt)%nat then [] ++ backoff_of (S attempt) else backoff_of a)) ->
      (attempt <= a)%nat /\
      sleeps_before a pending
        ((map EvSleep (backoff_of attempt) ++ [EvRateLimit; EvInvoke attempt]) ++ rest)
      = Some (if (a =? attempt)%nat then pending ++ backoff_of attempt else backoff_of a)).
    { intros rest Hcase Hrest. rewrite sleeps_before_prefix.
      destruct (Nat.eqb_spec attempt a) as [->|Hne].
      - rewrite Nat.eqb_refl. split; [lia | reflexivity].
      - destruct Hcase as [->|Hin']; [congruence|].
        destruct (Hrest Hin') as [Hle Hs]. split; [lia|].
        rewrite Hs. destruct (Nat.eqb_spec a attempt); [congruence|].
        destruct (Nat.eqb_spec a (S attempt)) as [->|]; reflexivity. }
    destruct (op attempt) as [v|e]; simpl fst in *.
    + rewrite <- (app_nil_r (_ ++ [EvRateLimit; EvInvoke attempt])) in Hin |- *.
      apply Hstep; [apply In_invoke_prefix in Hin; exact Hin | intros []].
    + destruct (attempt =? maxRetries)%nat; simpl fst in *.
      * apply Hstep; [apply In_invoke_prefix in Hin; exact Hin|].
        intros [H|[]]; discriminate.
      * apply Hstep; [apply In_invoke_prefix in Hin; exact Hin|].
        intros H. apply IH. exact H.
Qed.

(** The same for [fetchWithRetry], whose delays are capped. *)
Lemma plain_from_sleeps remaining : forall attempt a pending,
  In (EvInvoke a) (fst (plain_from remaining attempt)) ->
  (attempt <= a)%nat /\
  sleeps_before a pending (fst (plain_from remaining attempt))
  = Some (if (a =? attempt)%nat then pending
          else [Z.min (1000 * 2 ^ (Z.of_nat a - 1)) 10000]).
Proof.
  induction remaining as [|remaining IH]; intros attempt a pending Hin.
  - destruct Hin.
  - rewrite plain_from_unfold in *.
    destruct (op attempt) as [v|e]; cbn [fst] in *.
    + destruct Hin as [H|[]]. injection H as <-.
      cbn [sleeps_before]. rewrite !Nat.eqb_refl. split; [lia | reflexivity].
    + destruct (attempt =? maxRetries)%nat; cbn [fst] in *.
      * destruct Hin as [H|[]]. injection H as <-.
        cbn [sleeps_before]. rewrite !Nat.eqb_refl. split; [lia | reflexivity].
      * cbn [sleeps_before app]. destruct (Nat.eqb_spec attempt a) as [->|Hne].
        { rewrite Nat.eqb_refl. split; [lia | reflexivity]. }
        destruct Hin as [H|[H|Hin]]; [congruence | discriminate |].
        destruct (IH (S attempt) a [Z.min (1000 * 2 ^ Z.of_nat attempt) 10000] Hin)
          as [Hle Hs].
        split; [lia|]. rewrite Hs.
        destruct (Nat.eqb_spec a attempt); [congruence|].
        destruct (Nat.eqb_spec a (S attempt)) as [->|]; [|reflexivity].
        replace (Z.of_nat (S attempt) - 1) with (Z.of_nat attempt) by lia. reflexivity.
Qed.

(** When every attempt from [attempt] on fails, the batch loop calls the
    operation on each remaining attempt and rethrows the error of the last
    call as it received it. *)
Lemma batch_from_all_fail remaining : forall attempt lastError e,
  (attempt + remaining = S maxRetries)%nat ->
  (1 <= remaining)%nat ->
  (forall j, (attempt <= j <= maxRetries)%nat -> exists e', op j = Rejected e') ->
  op maxRetries = Rejected e ->
  snd (batch_from remaining attempt lastError) = Throw e /\
  invocations (fst (batch_from remaining attempt lastError)) = seq attempt remaining.
Proof.
  induction remaining as [|remaining IH]; intros attempt lastError e Hsum Hpos Hfail Hlast;
    [lia|].
  rewrite batch_from_unfold. cbv zeta.
  destruct (Hfail attempt ltac:(lia)) as [e' He']. rewrite He'.
  destruct (Nat.eqb_spec attempt maxRetries) as [->|Hne]; simpl fst; simpl snd.
  - assert (remaining = 0)%nat by lia. subst remaining.
    rewrite Hlast in He'. injection He' as <-.
    split; [reflexivity|]. rewrite !invocations_app. unfold backoff_of.
    destruct (1 <? maxRetries)%nat; reflexivity.
  - destruct (IH (S attempt) (Some e') e) as [Hc Hi]; try lia; auto.
    { intros j Hj. apply Hfail. lia. }
    split; [exact Hc|]. rewrite !invocations_app, Hi. unfold backoff_of.
    destruct (1 <? attempt)%nat; reflexivity.
Qed.

(** When the first success is at attempt [k], the loop returns its value
    after calling the operation on attempts [attempt .. k]. *)
Lemma batch_from_first_success remaining : forall attempt lastError k v,
  (attempt <= k)%nat -> (k < attempt + remaining)%nat -> (k <= maxRetries)%nat ->
  (forall j, (attempt <= j < k)%nat -> exists e', op j = Rejected e') ->
  op k = Fulfilled v ->
  snd (batch_from remaining attempt lastError) = Return v /\
  invocations (fst (batch_from remaining attempt lastError))
  = seq attempt (S k - attempt).
Proof.
  induction remaining as [|remaining IH]; intros attempt lastError k v Hle Hlt Hmax Hfail Hok;
    [lia|].
  rewrite batch_from_unfold. cbv zeta.
  destruct (Nat.eq_dec attempt k) as [->|Hne].
  - rewrite Hok. simpl fst; simpl snd. split; [reflexivity|].
    rewrite invocations_app. replace (S k - k)%nat with 1%nat by lia.
    unfold backoff_of. destruct (1 <? k)%nat; reflexivity.
  - destruct (Hfail attempt ltac:(lia)) as [e' He']. rewrite He'.
    destruct (Nat.eqb_spec attempt maxRetries) as [Heq|_]; [lia|].
    simpl fst; simpl snd.
    destruct (IH (S attempt) (Some e') k v) as [Hc Hi]; try lia; auto.
    { intros j Hj. apply Hfail. lia. }
    split; [exact Hc|]. rewrite !invocations_app, Hi.
    replace (S k - attempt)%nat with (S (S k - S attempt)) by lia.
    unfold backoff_of. destruct (1 <? attempt)%nat; reflexivity.
Qed.

Lemma batch_from_invocations_bound remaining : forall attempt lastError,
  (length (invocations (fst (batch_from remaining attempt lastError))) <= remaining)%nat.
Proof.
  induction remaining as [|remaining IH]; intros attempt lastError; [simpl; lia|].
  rewrite batch_from_unfold. cbv zeta.
  assert (Hpre : forall rest,
    length (invocations
      ((map EvSleep (backoff_of attempt) ++ [EvRateLimit; EvInvoke attempt]) ++ rest))
    = S (length (invocations rest))).
  { intros rest. rewrite !invocations_app, !length_app. unfold backoff_of.
    destruct (1 <? attempt)%nat; simpl; lia. }
  destruct (op attempt) as [v|e]; simpl fst.
  - rewrite <- (app_nil_r (_ ++ [EvRateLimit; EvInvoke attempt])), Hpre. simpl. lia.
  - destruct (attempt =? maxRetries)%nat; simpl fst; rewrite Hpre.
    + simpl. lia.
    + specialize (IH (S attempt) (Some e)). lia.
Qed.

(** Attempt [a] is reached as soon as all earlier attempts fail. *)
Lemma batch_from_reaches a remaining : forall attempt lastError,
  (attempt <= a)%nat -> (a < attempt + remaining)%nat -> (a <= maxRetries)%nat ->
  (forall j, (attempt <= j < a)%nat -> exists e', op j = Rejected e') ->
  In (EvInvoke a) (fst (batch_from remaining attempt lastError)).
Proof.
  induction remaining as [|remaining IH]; intros attempt lastError Hle Hlt Hmax Hfail; [lia|].
  rewrite batch_from_unfold. cbv zeta.
  assert (Hhere : forall rest,
    In (EvInvoke attempt)
       ((map EvSleep (backoff_of attempt) ++ [EvRateLimit; EvInvoke attempt]) ++ rest)).
  { intros rest. rewrite !in_app_iff. left; right. simpl. auto. }
  destruct (Nat.eq_dec attempt a) as [->|Hne].
  - destruct (op a) as [v|e]; [| destruct (a =? maxRetries)%nat]; cbn [fst];
      solve [apply Hhere | rewrite <- (app_nil_r (_ ++ [_; _])); apply Hhere].
  - destruct (Hfail attempt ltac:(lia)) as [e' He']. rewrite He'.
    destruct (Nat.eqb_spec attempt maxRetries) as [Heq|_]; [lia|]. cbn [fst].
    apply in_or_app. right. apply IH; try lia.
    intros j Hj. apply Hfail. lia.
Qed.

Lemma plain_from_reaches a remaining : forall attempt,
  (attempt <= a)%nat -> (a < attempt + remaining)%nat -> (a <= maxRetries)%nat ->
  (forall j, (attempt <= j < a)%nat -> exists e', op j = Rejected e') ->
  In (EvInvoke a) (fst (plain_from remaining attempt)).
Proof.
  induction remaining as [|remaining IH]; intros attempt Hle Hlt Hmax Hfail; [lia|].
  rewrite plain_from_unfold.
  destruct (Nat.eq_dec attempt a) as [->|Hne].
  - destruct (op a) as [v|e]; [| destruct (a =? maxRetries)%nat]; cbn [fst];
      left; reflexivity.
  - destruct (Hfail attempt ltac:(lia)) as [e' He']. rewrite He'.
    destruct (Nat.eqb_spec attempt maxRetries) as [Heq|_]; [lia|]. cbn [fst].
    right; right. apply IH; try lia.
    intros j Hj. apply Hfail. lia.
Qed.

Lemma batch_backoff_when_reached a :
  (1 <= a <= maxRetries)%nat ->
  (forall j, (1 <= j < a)%nat -> exists e', op j = Rejected e') ->
  sleeps_before a [] (fst (fetchBatchWithRetry op maxRetries)) = Some (backoff_of a).
Proof.
  intros Ha Hfail. unfold fetchBatchWithRetry.
  destruct (@batch_from_sleeps maxRetries 1%nat None a []) as [_ Hs].
  { apply batch_from_reaches; try lia. exact Hfail. }
  unfold batch_from in Hs. rewrite Hs.
  destruct (Nat.eqb_spec a 1) as [->|]; reflexivity.
Qed.

Lemma plain_backoff_when_reached a :
  (1 <= a <= maxRetries)%nat ->
  (forall j, (1 <= j < a)%nat -> exists e', op j = Rejected e') ->
  sleeps_before a [] (fst (fetchWithRetry op maxRetries))
  = Some (if (a =? 1)%nat then [] else [Z.min (1000 * 2 ^ (Z.of_nat a - 1)) 10000]).
Proof.
  intros Ha Hfail. unfold fetchWithRetry.
  destruct (@plain_from_sleeps maxRetries 1%nat a []) as [_ Hs].
  { apply plain_from_reaches; try lia. exact Hfail. }
  exact Hs.
Qed.

End LoopFacts.

Definition http500 : error := mkError "Error" "HTTP 500: Internal Server Error".

Definition always_failing : nat -> outcome (list string) error :=
  fun _ => Rejected http500.

(** An operation that fails on its first [n] calls and then yields [v]. *)
Definition failing_first (n : nat) (v : list string) : nat -> outcome (list string) error :=
  fun attempt => if (attempt <=? n)%nat then Rejected http500 else Fulfilled v.

(** C3 (as amended).  Provided attempt [a] is reached, i.e. [a] is within
    [maxRetries] and every earlier attempt failed: [fetchBatchWithRetry]
    suspends for exactly [1000 * 2^(a-1)] ms (no cap) between the previous
    call and the call of attempt [a >= 2], [fetchWithRetry] suspends for
    exactly [min (1000 * 2^(a-1)) 10000] ms, and neither suspends before
    the first attempt. *)
Theorem retry_backoff_delay (op : nat -> outcome (list string) error) (maxRetries a : nat) :
  (1 <= a <= maxRetries)%nat ->
  (forall j, (1 <= j < a)%nat -> exists e, op j = Rejected e) ->
  sleeps_before a [] (fst (fetchBatchWithRetry op maxRetries))
  = Some (if (a =? 1)%nat then [] else [1000 * 2 ^ (Z.of_nat a - 1)])
  /\
  sleeps_before a [] (fst (fetchWithRetry op maxRetries))
  = Some (if (a =? 1)%nat then [] else [Z.min (1000 * 2 ^ (Z.of_nat a - 1)) 10000]).
Proof.
  intros Ha Hfail. split.
  - rewrite batch_backoff_when_reached by assumption. unfold backoff_of.
    destruct a as [|[|a]]; [lia | reflexivity |].
    replace (1 <? S (S a))%nat with true by (symmetry; apply Nat.ltb_lt; lia).
    cbn [Nat.eqb]. do 2 f_equal. apply Z.mul_comm.
  - apply plain_backoff_when_reached; assumption.
Qed.

Lemma retry_backoff_delay_witness :
  sleeps_before 3 [] (fst (fetchBatchWithRetry always_failing 3)) = Some [4000]
  /\ sleeps_before 3 [] (fst (fetchWithRetry always_failing 3)) = Some [4000].
Proof.
  apply (@retry_backoff_delay always_failing 3 3).
  - lia.
  - intros j _. exists http500. reflexivity.
Defined.

(** C3, refuted as stated for [fetchBatchWithRetry]: with six attempts the
    suspension before the sixth is 32000 ms, above the service's 30000 ms
    [timeout]; and no pair of a cap and a base makes
    [min(timeoutCap, base * 2^(a-1))] the suspension for every [maxRetries]. *)
Lemma fetchBatchWithRetry_backoff_uncapped :
  sleeps_before 6 [] (fst (fetchBatchWithRetry always_failing 6)) = Some [32000]
  /\ spec_backoff 30000 1000 6 = 30000
  /\ ~ exists timeoutCap base : Z, forall maxRetries a : nat,
       (2 <= a <= maxRetries)%nat ->
       sleeps_before a [] (fst (fetchBatchWithRetry always_failing maxRetries))
       = Some [spec_backoff timeoutCap base a].
Proof.
  split; [reflexivity|]. split; [reflexivity|].
  intros (cap & base & H).
  remember (S (S (Z.to_nat (Z.max cap 0)))) as a eqn:Ea.
  specialize (H a a ltac:(lia)).
  rewrite (@batch_backoff_when_reached _ always_failing a a) in H.
  - unfold backoff_of in H.
    replace (1 <? a)%nat with true in H by (symmetry; apply Nat.ltb_lt; lia).
    injection H as H. unfold spec_backoff in H.
    assert (Hpow : Z.of_nat a - 1 < 2 ^ (Z.of_nat a - 1))
      by (apply Z.pow_gt_lin_r; lia).
    assert (Hcap : cap <= Z.of_nat a - 1) by lia.
    pose proof (Z.le_min_l cap (base * 2 ^ (Z.of_nat a - 1))) as Hmin.
    rewrite <- H in Hmin. lia.
  - lia.
  - intros j _. exists http500. reflexivity.
Qed.

(** C6 (as amended).  With [maxRetries >= 1], [fetchBatchWithRetry] calls
    the operation at most [maxRetries] times; when the first success is at
    attempt [k] it returns that value after exactly [k] calls (so an
    operation failing [maxRetries - 1] times and then succeeding is called
    exactly [maxRetries] times); when all [maxRetries] calls fail it throws
    the error of the last call exactly as that call raised it. *)
Theorem fetchBatchWithRetry_outcome (op : nat -> outcome (list string) error) (maxRetries : nat) :
  (1 <= maxRetries)%nat ->
  (length (invocations (fst (fetchBatchWithRetry op maxRetries))) <= maxRetries)%nat
  /\ (forall k v,
        (1 <= k <= maxRetries)%nat ->
        (forall j, (1 <= j < k)%nat -> exists e, op j = Rejected e) ->
        op k = Fulfilled v ->
        snd (fetchBatchWithRetry op maxRetries) = Return v
        /\ invocations (fst (fetchBatchWithRetry op maxRetries)) = seq 1 k)
  /\ (forall e,
        (forall j, (1 <= j <= maxRetries)%nat -> exists e', op j = Rejected e') ->
        op maxRetries = Rejected e ->
        snd (fetchBatchWithRetry op maxRetries) = Throw e
        /\ invocations (fst (fetchBatchWithRetry op maxRetries)) = seq 1 maxRetries).
Proof.
  intros Hpos. unfold fetchBatchWithRetry. split; [|split].
  - apply batch_from_invocations_bound.
  - intros k v Hk Hfail Hok.
    destruct (@batch_from_first_success _ op maxRetries maxRetries 1%nat None k v)
      as [Hc Hi]; auto; try lia.
    rewrite Hc, Hi. replace (S k - 1)%nat with k by lia. auto.
  - intros e Hfail Hlast.
    apply batch_from_all_fail; auto; lia.
Qed.

Lemma fetchBatchWithRetry_outcome_witness :
  snd (fetchBatchWithRetry (failing_first 2 ["42"%string]) 3) = Return ["42"%string]
  /\ invocations (fst (fetchBatchWithRetry (failing_first 2 ["42"%string]) 3)) = [1; 2; 3]%nat.
Proof.
  destruct (@fetchBatchWithRetry_outcome (failing_first 2 ["42"%string]) 3 ltac:(lia))
    as (_ & Hok & _).
  apply (Hok 3%nat ["42"%string]).
  - lia.
  - intros j Hj. exists http500. unfold failing_first.
    destruct (Nat.leb_spec j 2); [reflexivity | lia].
  - reflexivity.
Defined.

(** C6, refuted as stated: the error thrown after the last failed attempt
    is the operation's own error; nothing that changes it, such as an
    annotation with the attempt count, has been applied. *)
Lemma fetchBatchWithRetry_rethrows_unannotated :
  snd (fetchBatchWithRetry always_failing 3) = Throw http500
  /\ ~ exists annotate : nat -> error -> error,
       (forall n e, annotate n e <> e) /\
       snd (fetchBatchWithRetry always_failing 3) = Throw (annotate 3%nat http500).
Proof.
  split; [reflexivity|].
  intros (annotate & Hchanges & Hthrown).
  cbv in Hthrown. injection Hthrown as Hthrown.
  apply (Hchanges 3%nat http500). symmetry. assumption.
Qed.

End RetryFacts.

(** ** The cache store and the rate limiter *)

Module ACSFacts.
Import JS ACS.

Definition prefix_v1 : string := "acs_cache_v1.0_".

(** *** Sweep *)

(** Two entries of the service, both expired on 1 January 2024, followed by
    a key of another application. *)
Definition two_expired : Storage.t :=
  [ ("acs_cache_v1.0_10001_0a1b2c3d"%string,
     Storage.Entry 180 (Storage.mkEntry "{B01003_001E: 21102}" 1701388800000
                          (Some 1703980800000)));
    ("acs_cache_v1.0_10002_0a1b2c3d"%string,
     Storage.Entry 180 (Storage.mkEntry "{B01003_001E: 36118}" 1701388800000
                          (Some 1703980800000)));
    ("theme"%string, Storage.Opaque 4) ].

Definition jan_2024 : Z := 1704067200000.

(** C2, evaluated where it fails.  Of two adjacent expired entries the
    first sweep removes only the first, because removing it moves the second
    into the index the loop has just left; the second sweep then removes the
    other one, so the two sweeps leave stores of different sizes.
    [clearCache], which walks the indices downwards, does not skip. *)
Theorem cleanCache_skips_after_removal :
  cleanCache prefix_v1 jan_2024 two_expired = tl two_expired
  /\ getExpiredCacheCount prefix_v1 jan_2024 (cleanCache prefix_v1 jan_2024 two_expired) = 1%nat
  /\ length (cleanCache prefix_v1 jan_2024 two_expired) = 2%nat
  /\ length (cleanCache prefix_v1 jan_2024 (cleanCache prefix_v1 jan_2024 two_expired)) = 1%nat
  /\ clearCache prefix_v1 two_expired = [("theme"%string, Storage.Opaque 4)].
Proof. repeat split; reflexivity. Qed.

(** *** Eviction of the oldest entries *)

Section Eviction.
Variable cachePrefix : string.

Lemma by_cachedAt_le (a b : string * Z) : by_cachedAt a b = true <-> snd a <= snd b.
Proof. unfold by_cachedAt. rewrite Z.leb_le. lia. Qed.

Lemma by_cachedAt_total (a b : string * Z) :
  by_cachedAt a b = true \/ by_cachedAt b a = true.
Proof. rewrite !by_cachedAt_le. lia. Qed.

Lemma by_cachedAt_trans (a b c : string * Z) :
  by_cachedAt a b = true -> by_cachedAt b c = true -> by_cachedAt a c = true.
Proof. rewrite !by_cachedAt_le. lia. Qed.

Lemma removeItems_filter (victims : list (string * Z)) : forall st : Storage.t,
  fold_left (fun acc e => Storage.removeItem (fst e) acc) victims st
  = filter (fun kv => negb (existsb (String.eqb (fst kv)) (map fst victims))) st.
Proof.
  induction victims as [|v victims IH]; intros st; simpl.
  - symmetry. apply forallb_filter_id. apply forallb_forall. reflexivity.
  - rewrite IH. unfold Storage.removeItem.
    induction st as [|kv st IHst]; simpl; [reflexivity|].
    destruct (String.eqb (fst kv) (fst v)); simpl.
    + exact IHst.
    + destruct (existsb (String.eqb (fst kv)) (map fst victims)); simpl;
        rewrite IHst; reflexivity.
Qed.

Lemma In_clearOldest (count : nat) (st : Storage.t) (kv : string * Storage.value) :
  In kv (clearOldestCacheEntries cachePrefix count st)
  <-> In kv st /\ ~ In (fst kv) (map fst (oldest_entries cachePrefix count st)).
Proof.
  unfold clearOldestCacheEntries. rewrite removeItems_filter, filter_In.
  rewrite negb_true_iff, <- not_true_iff_false, existsb_exists.
  split; intros [Hin Hno]; split; auto; intros H; apply Hno.
  - exists (fst kv). split; [exact H | apply String.eqb_refl].
  - destruct H as (k & Hk & Heq). apply String.eqb_eq in Heq. subst. exact Hk.
Qed.

(** Every evicted entry was written no later than every entry of the
    service that is left. *)
Lemma oldest_entries_before_survivors (count : nat) (st : Storage.t)
  (victim survivor : string * Z) :
  In victim (oldest_entries cachePrefix count st) ->
  In survivor (namespace_entries cachePrefix (clearOldestCacheEntries cachePrefix count st)) ->
  snd victim <= snd survivor.
Proof.
  intros Hv Hs. apply by_cachedAt_le.
  apply (@JSFacts.ordered_firstn_skipn _ by_cachedAt count
           (JS.sort by_cachedAt (namespace_entries cachePrefix st))).
  - apply JSFacts.sort_ordered; [apply by_cachedAt_total | apply by_cachedAt_trans].
  - exact Hv.
  - unfold namespace_entries in Hs. apply in_map_iff in Hs.
    destruct Hs as (kv & <- & Hkv). apply filter_In in Hkv. destruct Hkv as [Hkv Hns].
    apply In_clearOldest in Hkv. destruct Hkv as [Hst Hnot].
    assert (Hsorted : In (fst kv, cachedAt_of (snd kv))
                         (JS.sort by_cachedAt (namespace_entries cachePrefix st))).
    { apply JSFacts.sort_In. unfold namespace_entries. apply in_map_iff.
      exists kv. split; [reflexivity|]. apply filter_In. split; assumption. }
    rewrite <- (firstn_skipn count) in Hsorted. apply in_app_or in Hsorted.
    destruct Hsorted as [Hfirst|Hrest]; [|exact Hrest].
    exfalso. apply Hnot. unfold oldest_entries.
    apply in_map_iff. exists (fst kv, cachedAt_of (snd kv)). split; [reflexivity | exact Hfirst].
Qed.

Lemma oldest_entries_length (count : nat) (st : Storage.t) :
  length (oldest_entries cachePrefix count st)
  = Nat.min count (length (namespace_entries cachePrefix st)).
Proof.
  unfold oldest_entries. rewrite length_firstn, JSFacts.sort_length. reflexivity.
Qed.

Lemma oldest_entries_in_namespace (count : nat) (st : Storage.t) (e : string * Z) :
  In e (oldest_entries cachePrefix count st) -> in_namespace cachePrefix (fst e) = true.
Proof.
  unfold oldest_entries. intros H.
  assert (H' : In e (JS.sort by_cachedAt (namespace_entries cachePrefix st)))
    by (rewrite <- (firstn_skipn count); apply in_or_app; left; exact H).
  clear H. rename H' into H. apply JSFacts.sort_In in H. unfold namespace_entries in H.
  apply in_map_iff in H. destruct H as (kv & <- & Hkv).
  apply filter_In in Hkv. apply Hkv.
Qed.

End Eviction.

(** *** Write under a quota *)

Definition sample_key : string := "acs_cache_v1.0_10003_0a1b2c3d".
Definition sample_payload : string := "{B01003_001E: 56024}".

(** C4 (as amended).  When the write of [cacheData] hits the quota, the
    call returns normally (the failure is not surfaced), it has removed the
    [min 20 n] entries of the service with the smallest cache-write
    timestamps, where [n] is the number of entries of the service (every removed
    entry was written no later than every entry of the service that is
    left, and no other key is touched), and it has scheduled a new call of
    [cacheData] with the same arguments, which runs on the store left by the
    eviction and handles a further failure in the same way. *)
Theorem cacheData_on_quota_failure
  (cachePrefix : string) (quota now : Z) (cacheKey payload : string) (len : Z)
  (st : Storage.t) :
  Storage.setItem quota cacheKey
    (Storage.Entry len (Storage.mkEntry payload now (Some (now + cacheDuration)))) st = None ->
  let r := cacheData_at cachePrefix quota now cacheKey payload len st in
  completed r = ReturnUndefined
  /\ retry_scheduled r = true
  /\ store_after r = clearOldestCacheEntries cachePrefix 20 st
  /\ length (oldest_entries cachePrefix 20 st)
     = Nat.min 20 (length (namespace_entries cachePrefix st))
  /\ (forall kv, In kv (store_after r) <->
                 In kv st /\ ~ In (fst kv) (map fst (oldest_entries cachePrefix 20 st)))
  /\ (forall e, In e (oldest_entries cachePrefix 20 st) ->
                in_namespace cachePrefix (fst e) = true)
  /\ (forall victim survivor,
        In victim (oldest_entries cachePrefix 20 st) ->
        In survivor (namespace_entries cachePrefix (store_after r)) ->
        snd victim <= snd survivor)
  /\ (forall timers,
        cacheData_run cachePrefix quota (S timers) now cacheKey payload len st
        = let (r', writes) :=
            cacheData_run cachePrefix quota timers now cacheKey payload len (store_after r)
          in (r', S writes)).
Proof.
  intros Hquota r.
  assert (Hr : r = mkCacheDataResult (clearOldestCacheEntries cachePrefix 20 st)
                                     ReturnUndefined true).
  { subst r. unfold cacheData_at, cacheData_try. rewrite Hquota. reflexivity. }
  rewrite Hr. cbn [completed retry_scheduled store_after].
  repeat match goal with |- _ /\ _ => split end; try reflexivity.
  - apply oldest_entries_length.
  - intros kv. apply In_clearOldest.
  - apply oldest_entries_in_namespace.
  - apply oldest_entries_before_survivors.
  - intros timers. cbn [cacheData_run]. fold r. rewrite Hr.
    cbn [retry_scheduled store_after]. reflexivity.
Qed.

Lemma cacheData_on_quota_failure_witness :
  let r := cacheData_at prefix_v1 500 jan_2024 sample_key sample_payload 180 two_expired in
  completed r = ReturnUndefined
  /\ retry_scheduled r = true
  /\ store_after r = [("theme"%string, Storage.Opaque 4)].
Proof.
  destruct (@cacheData_on_quota_failure prefix_v1 500 jan_2024 sample_key sample_payload
              180 two_expired eq_refl) as (Hc & Hs & Hst & _).
  split; [exact Hc|]. split; [exact Hs|]. rewrite Hst. reflexivity.
Defined.

(** A store whose only key belongs to another application and nearly fills
    the quota of 500 characters. *)
Definition foreign_full : Storage.t := [("theme"%string, Storage.Opaque 480)].

(** C4, refuted as stated: when the write keeps failing, the retry is
    neither the last one nor followed by an error for the caller.  After two
    timers have fired the entry has been written three times in vain, the
    call has returned normally and yet another retry is scheduled; and so on
    for any number of timers. *)
Lemma cacheData_retries_without_surfacing :
  cacheData_run prefix_v1 500 2 jan_2024 sample_key sample_payload 180 foreign_full
  = (mkCacheDataResult foreign_full ReturnUndefined true, 3%nat)
  /\ forall timers,
       cacheData_run prefix_v1 500 timers jan_2024 sample_key sample_payload 180 foreign_full
       = (mkCacheDataResult foreign_full ReturnUndefined true, S timers).
Proof.
  split; [reflexivity|].
  induction timers as [|timers IH]; [reflexivity|].
  change (cacheData_run prefix_v1 500 (S timers) jan_2024 sample_key sample_payload 180
            foreign_full)
    with (let (r', writes) :=
            cacheData_run prefix_v1 500 timers jan_2024 sample_key sample_payload 180
              foreign_full in (r', S writes)).
  rewrite IH. reflexivity.
Qed.

(** *** Rate limiter *)

(** A page loaded on 14 November 2023: [Date.now()] is about 1.7e12 while
    [performance.now()] counts from the page load. *)
Definition nov_2023 : Z := 1700000000000.

(** C1, evaluated where it fails.  With a ceiling of one request per minute,
    two requests issued five and six seconds after the page load are both
    sent at once: the window holds [performance.now()] readings, which the
    pruning step compares with [Date.now() - 60000] and therefore always
    discards.  Two requests are sent within one second. *)
Theorem enforceRateLimit_mixed_clocks :
  request 1 nov_2023 5 5000 200 [] = Some (5000, 5200, [])
  /\ enforceRateLimit 1 5 (Date_now nov_2023 5900) [performance_now 5000]
     = Some (Date_now nov_2023 5900, [])
  /\ requests 1 nov_2023 5 0 [] [(5000, 200); (800, 200)] = Some [5000; 6000]
  /\ sent_in_window 6000 [5000; 6000] = 2%nat.
Proof. repeat split; reflexivity. Qed.

Section MixedClocks.
Variable requestsPerMinute : nat.
Variable timeOrigin : Z.
Hypothesis ceiling_positive : (1 <= requestsPerMinute)%nat.
Hypothesis loaded_after_1970 : 60000 <= timeOrigin.

(** Whatever the ceiling, readings of [performance.now()] taken in the past
    never make [enforceRateLimit] wait. *)
Lemma enforceRateLimit_never_waits (fuel : nat) (t : Z) (window : list Z) :
  Forall (fun s => s <= t) window ->
  enforceRateLimit requestsPerMinute fuel (Date_now timeOrigin t) window
  = Some (Date_now timeOrigin t, []).
Proof.
  intros Hpast.
  assert (Hempty : filter (fun ts => Date_now timeOrigin t - 60000 <? ts) window = []).
  { induction Hpast as [|s window Hs _ IH]; [reflexivity|]. simpl.
    replace (Date_now timeOrigin t - 60000 <? s) with false; [exact IH|].
    symmetry. apply Z.ltb_ge. unfold Date_now. lia. }
  destruct fuel; simpl; rewrite Hempty; simpl;
    destruct requestsPerMinute; [lia | reflexivity | lia | reflexivity].
Qed.

(** The times at which the requests of a plan are issued when nothing
    delays them. *)
Fixpoint issue_times (t : Z) (plan : list (Z * Z)) : list Z :=
  match plan with
  | [] => []
  | (pause, duration) :: plan' =>
      (t + pause) :: issue_times (t + pause + duration) plan'
  end.

Lemma requests_never_delayed (fuel : nat) (plan : list (Z * Z)) : forall t,
  Forall (fun pd => 0 <= snd pd) plan ->
  requests requestsPerMinute timeOrigin fuel t [] plan = Some (issue_times t plan).
Proof.
  induction plan as [|[pause duration] plan IH]; intros t Hplan; [reflexivity|].
  inversion Hplan as [|? ? Hd Hrest]; subst. simpl in Hd.
  cbn [requests issue_times]. unfold request.
  rewrite enforceRateLimit_never_waits by constructor.
  replace (Date_now timeOrigin (t + pause) - timeOrigin) with (t + pause)
    by (unfold Date_now; lia).
  unfold cleanOldTimestamps, performance_now. cbn [app filter].
  replace (Date_now timeOrigin (t + pause + duration) - 60000 <? t + pause) with false
    by (symmetry; apply Z.ltb_ge; unfold Date_now; lia).
  rewrite IH by assumption. reflexivity.
Qed.

End MixedClocks.

(** If both clocks read the same time (a time origin of [0]), the same
    code does keep requests issued one after the other within the ceiling:
    the sliding window itself is sound, the mismatch of the clocks is what
    defeats it. *)
Section SingleClock.
Variable requestsPerMinute : nat.
Hypothesis ceiling_positive : (1 <= requestsPerMinute)%nat.

Definition keep (c : Z) (l : list Z) : list Z := filter (fun ts => c <? ts) l.

Lemma keep_keep (c c' : Z) (l : list Z) : c' <= c -> keep c (keep c' l) = keep c l.
Proof.
  intros Hc. unfold keep. induction l as [|x l IH]; [reflexivity|]. simpl.
  destruct (Z.ltb_spec c' x); simpl.
  - rewrite IH. reflexivity.
  - destruct (Z.ltb_spec c x); [lia | exact IH].
Qed.

Lemma keep_length (c : Z) (l : list Z) : (length (keep c l) <= length l)%nat.
Proof. apply filter_length_le. Qed.

Lemma keep_app (c : Z) (l m : list Z) : keep c (l ++ m) = keep c l ++ keep c m.
Proof. apply filter_app. Qed.

(** [enforceRateLimit] with one re-evaluation at most: it returns at some
    time [a] with fewer than the ceiling of timestamps left in the window. *)
Lemma enforceRateLimit_admits (fuel : nat) (now : Z) (window : list Z) :
  (1 <= fuel)%nat -> (length window <= requestsPerMinute)%nat ->
  exists a, enforceRateLimit requestsPerMinute fuel now window
            = Some (a, keep (a - 60000) window)
            /\ now <= a
            /\ (length (keep (a - 60000) window) < requestsPerMinute)%nat.
Proof.
  intros Hfuel Hlen. destruct fuel as [|fuel]; [lia|].
  cbn [enforceRateLimit]. fold (keep (now - 60000) window).
  destruct (Nat.leb_spec requestsPerMinute (length (keep (now - 60000) window)))
    as [Hfull|Hroom].
  - destruct (keep (now - 60000) window) as [|oldest rest] eqn:Ekeep;
      [simpl in Hfull; lia|].
    assert (Hold : now - 60000 < oldest).
    { assert (Hin : In oldest (keep (now - 60000) window))
        by (rewrite Ekeep; left; reflexivity).
      unfold keep in Hin. apply filter_In in Hin. apply Z.ltb_lt. apply Hin. }
    cbn [hd].
    replace (now + Z.max 0 (60000 - (now - oldest) + 100)) with (oldest + 60100) by lia.
    assert (Hnext : keep (oldest + 60100 - 60000) (oldest :: rest)
                    = keep (oldest + 60100 - 60000) window).
    { rewrite <- Ekeep. apply keep_keep. lia. }
    assert (Hshort : (length (keep (oldest + 60100 - 60000) (oldest :: rest))
                      < requestsPerMinute)%nat).
    { unfold keep at 1. cbn [filter].
      replace (oldest + 60100 - 60000 <? oldest) with false
        by (symmetry; apply Z.ltb_ge; lia).
      pose proof (keep_length (oldest + 60100 - 60000) rest) as Hrest.
      unfold keep in Hrest.
      pose proof (keep_length (now - 60000) window) as Hw. rewrite Ekeep in Hw.
      simpl in Hw. lia. }
    exists (oldest + 60100).
    assert (Hgo : enforceRateLimit requestsPerMinute fuel (oldest + 60100) (oldest :: rest)
                  = Some (oldest + 60100, keep (oldest + 60100 - 60000) (oldest :: rest))).
    { destruct fuel; cbn [enforceRateLimit];
        fold (keep (oldest + 60100 - 60000) (oldest :: rest));
        destruct (Nat.leb_spec requestsPerMinute
                    (length (keep (oldest + 60100 - 60000) (oldest :: rest))));
        try lia; reflexivity. }
    rewrite Hgo, Hnext. rewrite Hnext in Hshort. split; [reflexivity|]. split; [lia | exact Hshort].
  - exists now. split; [reflexivity|]. split; [lia | exact Hroom].
Qed.

(** What links the window to the requests sent so far, at time [t]. *)
Definition tracks (t : Z) (window history : list Z) : Prop :=
  (length window <= requestsPerMinute)%nat
  /\ Forall (fun s => s <= t) history
  /\ forall c, t - 60000 <= c -> keep c window = keep c history.

(** Every request was sent with at most the ceiling of requests (itself
    included) in the 60 seconds before it. *)
Definition within_ceiling (history sent : list Z) : Prop :=
  forall before s after, sent = before ++ s :: after ->
    (sent_in_window s (history ++ before ++ [s]) <= requestsPerMinute)%nat.

Lemma sent_in_window_now (s : Z) (history : list Z) :
  Forall (fun x => x <= s) history ->
  sent_in_window s (history ++ [s]) = S (length (keep (s - 60000) history)).
Proof.
  intros Hpast. unfold sent_in_window, keep. rewrite filter_app, length_app.
  cbn [filter]. replace ((s - 60000 <? s) && (s <=? s)) with true
    by (symmetry; apply andb_true_iff; split; [apply Z.ltb_lt | apply Z.leb_le]; lia).
  cbn [length]. rewrite Nat.add_1_r. f_equal. f_equal.
  apply filter_ext_in. intros x Hx. rewrite Forall_forall in Hpast.
  replace (x <=? s) with true by (symmetry; apply Z.leb_le; apply Hpast; exact Hx).
  apply andb_true_r.
Qed.

Lemma requests_single_clock (fuel : nat) (plan : list (Z * Z)) :
  (1 <= fuel)%nat ->
  forall t window history,
  Forall (fun pd => 0 <= fst pd /\ 0 <= snd pd) plan ->
  tracks t window history ->
  exists sent, requests requestsPerMinute 0 fuel t window plan = Some sent
               /\ within_ceiling history sent.
Proof.
  intros Hfuel. induction plan as [|[pause duration] plan IH];
    intros t window history Hplan (Hlen & Hpast & Hsame).
  - exists []. split; [reflexivity|]. intros [|? ?] s after H; discriminate.
  - inversion Hplan as [|? ? [Hpause Hdur] Hrest]; subst. cbn [fst snd] in *.
    cbn [requests]. unfold request, Date_now, performance_now.
    destruct (@enforceRateLimit_admits fuel (0 + (t + pause)) window Hfuel Hlen)
      as (a & Hadmit & Hlate & Hroom).
    rewrite Hadmit. replace (a - 0) with a by lia.
    assert (Hpast_a : Forall (fun s => s <= a) history)
      by (eapply Forall_impl; [|exact Hpast]; simpl; intros; lia).
    assert (Htracks : tracks (a + duration)
              (cleanOldTimestamps (0 + (a + duration)) (keep (a - 60000) window ++ [a]))
              (history ++ [a])).
    { unfold cleanOldTimestamps.
      fold (keep (0 + (a + duration) - 60000) (keep (a - 60000) window ++ [a])).
      split; [|split].
      - pose proof (keep_length (0 + (a + duration) - 60000)
                      (keep (a - 60000) window ++ [a])) as H.
        rewrite length_app in H. cbn [length] in H. lia.
      - apply Forall_app. split; [|constructor; [lia | constructor]].
        eapply Forall_impl; [|exact Hpast_a]. simpl; intros; lia.
      - intros c Hc. rewrite keep_keep by lia. rewrite !keep_app.
        rewrite keep_keep by lia. rewrite Hsame by lia. reflexivity. }
    destruct (IH (a + duration) _ _ Hrest Htracks) as (sent & Hsent & Hok).
    rewrite Hsent. exists (a :: sent). split; [reflexivity|].
    intros before s after Hsplit. destruct before as [|b before].
    + injection Hsplit as <- _. cbn [app].
      rewrite sent_in_window_now by exact Hpast_a.
      rewrite <- Hsame by lia. lia.
    + injection Hsplit as <- Hsplit.
      specialize (Hok before s after Hsplit).
      rewrite <- app_assoc in Hok. exact Hok.
Qed.

End SingleClock.

(** *** The caller's array of variable names *)

Example hashString_abc : hashString "abc" = "00017862"%string.
Proof. reflexivity. Qed.

Lemma write_out_of_range (h : heap) : forall r a,
  (length h <= r)%nat -> write h r a = h.
Proof.
  induction h as [|x h IH]; intros r a Hr; [destruct r; reflexivity|].
  destruct r as [|r]; simpl in *; [lia|]. rewrite IH by lia. reflexivity.
Qed.

Lemma read_write (h : heap) : forall r a,
  (r < length h)%nat -> read (write h r a) r = a.
Proof.
  unfold read. induction h as [|x h IH]; intros r a Hr; simpl in *; [lia|].
  destruct r as [|r]; simpl; [reflexivity | apply IH; lia].
Qed.

Lemma write_write (h : heap) : forall r a b, write (write h r a) r b = write h r b.
Proof.
  induction h as [|x h IH]; intros r a b; [destruct r; reflexivity|].
  destruct r as [|r]; simpl; [reflexivity | rewrite IH; reflexivity].
Qed.

Lemma read_out_of_range (h : heap) (r : nat) : (length h <= r)%nat -> read h r = [].
Proof. intros Hr. unfold read. apply nth_overflow. exact Hr. Qed.

(** The heap after the array at [r] has been sorted where it stands. *)
Definition sorted_in_place (h : heap) (r : nat) : heap :=
  write h r (JS.sort String.leb (read h r)).

Lemma sorted_in_place_idem (h : heap) (r : nat) :
  sorted_in_place (sorted_in_place h r) r = sorted_in_place h r.
Proof.
  unfold sorted_in_place. destruct (Nat.lt_ge_cases r (length h)) as [Hr|Hr].
  - rewrite read_write by exact Hr.
    rewrite JSFacts.sort_strings_idempotent. apply write_write.
  - rewrite (write_out_of_range h _ Hr). rewrite (write_out_of_range h _ Hr). reflexivity.
Qed.

Section Fetching.
Variable cachePrefix : string.
Variable quota : Z.
Variable batchSize maxRetries : nat.
Variable api : list string -> list string -> nat -> outcome (list (string * fetched)) error.
Variable entry_len : nat -> Z.

Lemma getCacheKey_arrays (zip : string) (r : nat) (h : heap) :
  snd (getCacheKey cachePrefix zip r h) = sorted_in_place h r.
Proof. reflexivity. Qed.

Lemma getFromCache_arrays (now : Z) (zip : string) (r : nat) (w : world) :
  arrays (snd (getFromCache cachePrefix now zip r w)) = sorted_in_place (arrays w) r.
Proof.
  unfold getFromCache. cbn [getCacheKey]. cbv zeta.
  destruct (Storage.getItem _ _) as [[n|n cached|n items]|]; cbn [localStorage];
    try reflexivity.
  destruct (Storage.expiry cached) as [expiry|]; [|reflexivity].
  destruct (expiry <? now); reflexivity.
Qed.

Lemma cacheData_arrays (now : Z) (zip : string) (r : nat) (data : fetched) (w : world) :
  arrays (fst (cacheData cachePrefix quota now zip r data w)) = sorted_in_place (arrays w) r.
Proof. reflexivity. Qed.

Lemma check_cache_arrays (now : Z) (r : nat) (zipCodes : list string) :
  forall results missingZips w,
  arrays (snd (check_cache cachePrefix now r zipCodes results missingZips w))
  = match zipCodes with
    | [] => arrays w
    | _ => sorted_in_place (arrays w) r
    end.
Proof.
  induction zipCodes as [|zip rest IH]; intros results missingZips w; [reflexivity|].
  cbn [check_cache].
  pose proof (getFromCache_arrays now zip r w) as Hget.
  destruct (getFromCache cachePrefix now zip r w) as [[cached|] w1]; cbn [snd] in Hget;
    rewrite IH; cbn [arrays]; rewrite Hget;
    destruct rest; try reflexivity; apply sorted_in_place_idem.
Qed.

Lemma store_batch_arrays (now : Z) (r : nat) (entries : list (string * fetched)) :
  forall results w,
  sorted_in_place (arrays w) r = arrays w ->
  arrays (snd (store_batch cachePrefix quota now r entries results w)) = arrays w.
Proof.
  induction entries as [|[zip data] rest IH]; intros results w Hfix; [reflexivity|].
  cbn [store_batch].
  pose proof (cacheData_arrays now zip r data w) as Hc.
  destruct (cacheData cachePrefix quota now zip r data w) as [w1 res]. cbn [fst] in Hc.
  rewrite Hfix in Hc. rewrite IH; [exact Hc|]. rewrite Hc. exact Hfix.
Qed.

Lemma store_batches_arrays (now : Z) (r : nat)
  (batchResults : list (completion (list (string * fetched)) error)) :
  forall results logged w,
  sorted_in_place (arrays w) r = arrays w ->
  arrays (snd (fst (store_batches cachePrefix quota entry_len now r batchResults
                      results logged w)))
  = arrays w.
Proof.
  induction batchResults as [|c rest IH]; intros results logged w Hfix; [reflexivity|].
  destruct c as [entries| |e|]; cbn [store_batches].
  - pose proof (store_batch_arrays now r entries results w Hfix) as Hb.
    destruct (store_batch cachePrefix quota now r entries results w) as [results1 w1].
    cbn [snd] in Hb. rewrite IH; [exact Hb|]. rewrite Hb. exact Hfix.
  - reflexivity.
  - rewrite IH; [reflexivity | exact Hfix].
  - rewrite IH; [reflexivity | exact Hfix].
Qed.

(** A call that passes validation leaves the heap with the caller's array
    sorted in place, and nothing else changed. *)
Lemma fetchDataForZips_arrays (now later : Z) (zipCodes : list string) (r : nat) (w : world) :
  zipCodes <> [] -> read (arrays w) r <> [] ->
  arrays (fst (fetchDataForZips cachePrefix quota batchSize maxRetries api entry_len
                 now later zipCodes (ArrayRef r) w))
  = sorted_in_place (arrays w) r.
Proof.
  intros Hzips Hvars. unfold fetchDataForZips.
  destruct zipCodes as [|zip rest]; [congruence|].
  destruct (read (arrays w) r) as [|v vs] eqn:Hread; [congruence|].
  pose proof (check_cache_arrays now r (zip :: rest) [] []
                (mkWorld (arrays w) (localStorage w) (cacheHits w) (cacheMisses w))) as Hcheck.
  destruct (check_cache cachePrefix now r (zip :: rest) [] [] _) as [[results missing] w1].
  cbn [snd arrays] in Hcheck.
  destruct missing as [|m missing]; [exact Hcheck|].
  match goal with |- context [store_batches _ _ _ _ _ ?b ?res ?n ?w0] =>
    pose proof (store_batches_arrays later r b res n w0) as Hstore;
    destruct (store_batches cachePrefix quota entry_len later r b res n w0)
      as [[[results2 logged2] w2] [err|]]
  end;
    cbn [snd fst arrays log_and_rethrow] in *;
    (rewrite Hstore; [exact Hcheck|]); rewrite Hcheck; apply sorted_in_place_idem.
Qed.

End Fetching.

(** C10.  [getCacheKey] leaves the array it was given sorted where it
    stands; hence after a call of [fetchDataForZips] (or [fetchSingleZip])
    that passes validation, the caller's array of variable names holds its
    former elements in sorted order, and no other array has changed. *)
Theorem fetchDataForZips_sorts_variables
  (cachePrefix : string) (quota : Z) (batchSize maxRetries : nat)
  (api : list string -> list string -> nat -> outcome (list (string * fetched)) error)
  (entry_len : nat -> Z)
  (now later : Z) (zipCodes : list string) (r : nat) (w : world) :
  zipCodes <> [] -> read (arrays w) r <> [] ->
  let sorted := JS.sort String.leb (read (arrays w) r) in
  let w' := fst (fetchDataForZips cachePrefix quota batchSize maxRetries api entry_len
                   now later zipCodes (ArrayRef r) w) in
  snd (getCacheKey cachePrefix (hd EmptyString zipCodes) r (arrays w)) = write (arrays w) r sorted
  /\ arrays w' = write (arrays w) r sorted
  /\ read (arrays w') r = sorted
  /\ StronglySorted (fun a b => String.leb a b = true) (read (arrays w') r)
  /\ Permutation (read (arrays w) r) (read (arrays w') r)
  /\ arrays (fst (fetchSingleZip cachePrefix quota batchSize maxRetries api entry_len
                    now later (hd EmptyString zipCodes) (ArrayRef r) w))
     = write (arrays w) r sorted
  /\ arrays (snd (getFromCache cachePrefix now (hd EmptyString zipCodes) r w))
     = write (arrays w) r sorted
  /\ (forall data,
        arrays (fst (cacheData cachePrefix quota later (hd EmptyString zipCodes) r data w))
        = write (arrays w) r sorted).
Proof.
  intros Hzips Hvars sorted w'.
  assert (Hr : (r < length (arrays w))%nat).
  { destruct (Nat.lt_ge_cases r (length (arrays w))) as [H|H]; [exact H|].
    exfalso. apply Hvars. apply read_out_of_range. exact H. }
  assert (Hw' : arrays w' = write (arrays w) r sorted)
    by (apply fetchDataForZips_arrays; assumption).
  assert (Hread : read (arrays w') r = sorted)
    by (rewrite Hw'; apply read_write; exact Hr).
  split; [reflexivity|]. split; [exact Hw'|]. split; [exact Hread|].
  split; [rewrite Hread; apply JSFacts.sort_strings_ordered|].
  split; [rewrite Hread; apply JSFacts.sort_perm|].
  unfold fetchSingleZip.
  pose proof (@fetchDataForZips_arrays cachePrefix quota batchSize maxRetries api entry_len
                now later [hd EmptyString zipCodes] r w ltac:(discriminate) Hvars) as Hsingle.
  split; [|split; [apply getFromCache_arrays | intros data; reflexivity]].
  destruct (fetchDataForZips cachePrefix quota batchSize maxRetries api entry_len now later
              [hd EmptyString zipCodes] (ArrayRef r) w) as [w1 [res| |e|]];
    exact Hsingle.
Qed.

(** The caller of the application passes the selected variable first and
    the population variable second. *)
Definition callers_array : list string := ["B19013_001E"; "B01003_001E"]%string.

Definition initial_world : world := mkWorld [callers_array] [] 0 0.

Definition provider_down : list string -> list string -> nat
                           -> outcome (list (string * fetched)) error :=
  fun _ _ _ => Rejected (mkError "TypeError" "Failed to fetch").

(** Every entry of the error log serialises to 200 characters. *)
Definition entries_of_200 : nat -> Z := fun _ => 200.

Lemma fetchDataForZips_sorts_variables_witness :
  read (arrays (fst (fetchDataForZips prefix_v1 500 10 3 provider_down entries_of_200
                       jan_2024 (jan_2024 + 6000) ["10001"%string] (ArrayRef 0)
                       initial_world))) 0
  = ["B01003_001E"; "B19013_001E"]%string.
Proof.
  destruct (@fetchDataForZips_sorts_variables prefix_v1 500 10 3 provider_down entries_of_200
              jan_2024 (jan_2024 + 6000) ["10001"%string] 0%nat initial_world
              ltac:(discriminate) ltac:(discriminate)) as (_ & _ & H & _).
  exact H.
Defined.

End ACSFacts.

(** ** The ZIP index *)

Module ZipFacts.
Import JS ZipIndex.

Lemma by_distance_le (a b : found) :
  by_distance a b = true <-> (distance a <= distance b)%Q.
Proof.
  unfold by_distance. rewrite Qle_bool_iff. split; intro H.
  - apply Qle_minus_iff in H. apply Qle_minus_iff.
    setoid_replace (distance b + - distance a)%Q
      with (0 + - (distance a - distance b))%Q by ring.
    exact H.
  - apply Qle_minus_iff. apply Qle_minus_iff in H.
    setoid_replace (0 + - (distance a - distance b))%Q
      with (distance b + - distance a)%Q by ring.
    exact H.
Qed.

Lemma by_distance_total (a b : found) :
  by_distance a b = true \/ by_distance b a = true.
Proof.
  rewrite !by_distance_le.
  destruct (Qlt_le_dec (distance b) (distance a)) as [H|H]; [right | left]; auto.
  apply Qlt_le_weak. exact H.
Qed.

Lemma by_distance_trans (a b c : found) :
  by_distance a b = true -> by_distance b c = true -> by_distance a c = true.
Proof. rewrite !by_distance_le. apply Qle_trans. Qed.

(** Ascending order of the distances. *)
Definition ascending : list found -> Prop :=
  StronglySorted (fun a b => (distance a <= distance b)%Q).

Lemma sort_by_distance_ascending (l : list found) : ascending (JS.sort by_distance l).
Proof.
  pose proof (@JSFacts.sort_ordered _ by_distance by_distance_total by_distance_trans l) as H.
  unfold ascending. induction H as [|x l' Hl IH Hx]; constructor; [exact IH|].
  eapply Forall_impl; [|exact Hx]. intros y. apply by_distance_le.
Qed.

Section SearchFacts.
Variable M : MathLib.
Variable idx : index.
Variables lat lng radiusKm : Q.
Variable limit : nat.

Let scan_cell := scan_cell M idx lat lng radiusKm limit.
Let scan_lng := scan_lng M idx lat lng radiusKm limit.
Let scan_lat := scan_lat M idx lat lng radiusKm limit.
Let match_of := match_of M idx lat lng radiusKm.

(** *** Both exits sort *)

Definition returned_ascending (s : scan) : Prop :=
  match s with Returned r => ascending r | Scanning _ => True end.

Lemma scan_cell_returned cells : forall results,
  returned_ascending (scan_cell cells results).
Proof.
  induction cells as [|cell cells IH]; intros results; simpl; [exact I|].
  destruct (in_box M lat lng radiusKm cell); [|apply IH].
  destruct (Qle_bool _ radiusKm); [|apply IH].
  destruct (get idx (stub_zip cell)).
  - destruct (limit <=? _)%nat; [apply sort_by_distance_ascending | apply IH].
  - destruct (limit <=? _)%nat; [apply sort_by_distance_ascending | apply IH].
Qed.

Lemma scan_lng_returned latGrid lngGrids : forall results,
  returned_ascending (scan_lng latGrid lngGrids results).
Proof.
  induction lngGrids as [|g lngGrids IH]; intros results; simpl; [exact I|].
  pose proof (scan_cell_returned (cells_at idx latGrid g) results) as H.
  unfold scan_cell in H.
  destruct (ZipIndex.scan_cell M idx lat lng radiusKm limit (cells_at idx latGrid g) results);
    [exact H | apply IH].
Qed.

Lemma scan_lat_returned latGrids lngGrids : forall results,
  returned_ascending (scan_lat latGrids lngGrids results).
Proof.
  induction latGrids as [|g latGrids IH]; intros results; simpl; [exact I|].
  pose proof (scan_lng_returned g lngGrids results) as H.
  unfold scan_lng in H.
  destruct (ZipIndex.scan_lng M idx lat lng radiusKm limit g lngGrids results);
    [exact H | apply IH].
Qed.

Lemma searchByRadius_is_ascending :
  ascending (searchByRadius M idx lat lng radiusKm limit).
Proof.
  unfold searchByRadius. cbv zeta.
  match goal with |- context [ZipIndex.scan_lat ?m ?i ?a ?b ?r ?l ?x ?y ?z] =>
    pose proof (scan_lat_returned x y z) as H; unfold scan_lat in H;
    destruct (ZipIndex.scan_lat m i a b r l x y z)
  end.
  - exact H.
  - apply sort_by_distance_ascending.
Qed.

(** *** The loops against their summary *)

(** What the loops have decided once the matches [l] have been seen. *)
Definition settle (l : list found) : scan :=
  if (limit <=? length l)%nat
  then Returned (JS.sort by_distance (firstn limit l))
  else Scanning l.

Hypothesis limit_positive : (1 <= limit)%nat.

Lemma settle_app (l more : list found) :
  (limit <= length l)%nat -> settle (l ++ more) = settle l.
Proof.
  intros H. unfold settle.
  replace (limit <=? length (l ++ more))%nat with true
    by (symmetry; apply Nat.leb_le; rewrite length_app; lia).
  replace (limit <=? length l)%nat with true by (symmetry; apply Nat.leb_le; lia).
  rewrite firstn_app. replace (limit - length l)%nat with 0%nat by lia.
  rewrite firstn_0, app_nil_r. reflexivity.
Qed.

Lemma scan_cell_settles cells : forall results,
  (length results < limit)%nat ->
  scan_cell cells results = settle (results ++ flat_map match_of cells).
Proof.
  induction cells as [|cell cells IH]; intros results Hlt.
  - simpl. rewrite app_nil_r. unfold settle.
    replace (limit <=? length results)%nat with false
      by (symmetry; apply Nat.leb_gt; lia).
    reflexivity.
  - cbn [ZipIndex.scan_cell scan_cell flat_map]. unfold scan_cell in *.
    cbn [ZipIndex.scan_cell]. unfold match_of at 1, ZipIndex.match_of.
    destruct (in_box M lat lng radiusKm cell); cbn [andb]; [|apply IH; exact Hlt].
    destruct (Qle_bool _ radiusKm); [|apply IH; exact Hlt].
    destruct (get idx (stub_zip cell)) as [record|].
    + destruct (Nat.leb_spec limit (length (results ++ [mkFound record
                 (haversine M lat lng (stub_lat cell) (stub_lng cell))]))) as [Hge|Hlt'].
      * cbn [app]. 
        replace (results ++ mkFound record (haversine M lat lng (stub_lat cell) (stub_lng cell))
                   :: flat_map match_of cells)
          with ((results ++ [mkFound record
                   (haversine M lat lng (stub_lat cell) (stub_lng cell))])
                  ++ flat_map match_of cells)
          by (rewrite <- app_assoc; reflexivity).
        rewrite settle_app by exact Hge. unfold settle.
        replace (limit <=? length (results ++ [mkFound record
                   (haversine M lat lng (stub_lat cell) (stub_lng cell))]))%nat
          with true by (symmetry; apply Nat.leb_le; exact Hge).
        rewrite firstn_all2; [reflexivity|].
        rewrite length_app in *. simpl in *. lia.
      * rewrite IH by exact Hlt'. rewrite <- app_assoc. reflexivity.
    + replace (limit <=? length results)%nat with false
        by (symmetry; apply Nat.leb_gt; lia).
      apply IH. exact Hlt.
Qed.

Lemma settle_scanning (l r : list found) :
  settle l = Scanning r -> r = l /\ (length l < limit)%nat.
Proof.
  unfold settle. destruct (Nat.leb_spec limit (length l)) as [Hge|Hlt]; [discriminate|].
  intros E. injection E as <-. auto.
Qed.

Lemma settle_returned (l r : list found) :
  settle l = Returned r -> (limit <= length l)%nat.
Proof.
  unfold settle. destruct (Nat.leb_spec limit (length l)); [auto | discriminate].
Qed.

Lemma scan_lng_settles latGrid lngGrids : forall results,
  (length results < limit)%nat ->
  scan_lng latGrid lngGrids results
  = settle (results ++ flat_map (fun g => flat_map match_of (cells_at idx latGrid g)) lngGrids).
Proof.
  induction lngGrids as [|g lngGrids IH]; intros results Hlt.
  - simpl. rewrite app_nil_r. unfold settle.
    replace (limit <=? length results)%nat with false
      by (symmetry; apply Nat.leb_gt; lia).
    reflexivity.
  - cbn [ZipIndex.scan_lng scan_lng flat_map]. unfold scan_lng in *.
    cbn [ZipIndex.scan_lng].
    pose proof (scan_cell_settles (cells_at idx latGrid g) _ Hlt) as Hcell.
    unfold scan_cell in Hcell. rewrite Hcell, app_assoc.
    destruct (settle (results ++ flat_map match_of (cells_at idx latGrid g)))
      as [r|r] eqn:E.
    + rewrite settle_app; [symmetry; exact E|]. eapply settle_returned. exact E.
    + apply settle_scanning in E. destruct E as [-> Hlt']. apply IH. exact Hlt'.
Qed.

Lemma scan_lat_settles latGrids lngGrids : forall results,
  (length results < limit)%nat ->
  scan_lat latGrids lngGrids results
  = settle (results ++
            flat_map (fun latGrid =>
              flat_map (fun g => flat_map match_of (cells_at idx latGrid g)) lngGrids)
              latGrids).
Proof.
  induction latGrids as [|g latGrids IH]; intros results Hlt.
  - simpl. rewrite app_nil_r. unfold settle.
    replace (limit <=? length results)%nat with false
      by (symmetry; apply Nat.leb_gt; lia).
    reflexivity.
  - cbn [ZipIndex.scan_lat scan_lat flat_map]. unfold scan_lat in *.
    cbn [ZipIndex.scan_lat].
    pose proof (scan_lng_settles g lngGrids _ Hlt) as Hlng.
    unfold scan_lng in Hlng. rewrite Hlng, app_assoc.
    match goal with |- context [settle ?l] => destruct (settle l) as [r|r] eqn:E end.
    + rewrite settle_app; [symmetry; exact E|]. eapply settle_returned. exact E.
    + apply settle_scanning in E. destruct E as [-> Hlt']. apply IH. exact Hlt'.
Qed.

(** With a limit of at least one, the search returns the first [limit]
    matches in scan order, sorted. *)
Lemma searchByRadius_take_then_sort :
  searchByRadius M idx lat lng radiusKm limit
  = JS.sort by_distance (firstn limit (matches_in_scan_order M idx lat lng radiusKm)).
Proof.
  unfold searchByRadius, matches_in_scan_order. cbv zeta.
  match goal with |- context [ZipIndex.scan_lat _ _ _ _ _ _ ?x ?y []] =>
    pose proof (scan_lat_settles x y [] ltac:(simpl; lia)) as H
  end.
  unfold scan_lat in H. rewrite H. cbn [app]. fold match_of.
  match goal with |- context [settle ?l] => destruct (settle l) as [r|r] eqn:E end.
  - unfold settle in E.
    match type of E with context [(limit <=? ?n)%nat] => destruct (limit <=? n)%nat end;
      [injection E as <-; reflexivity | discriminate].
  - apply settle_scanning in E. destruct E as [-> Hlt].
    rewrite firstn_all2 by lia. reflexivity.
Qed.

End SearchFacts.

(** *** Invariants of a loaded index *)

(** The data model's ZIP key: five characters. *)
Definition well_formed (r : ZipRecord) : Prop := String.length (zip r) = 5%nat.

Lemma gridKey_eqb_eq (a b : gridKey) : gridKey_eqb a b = true <-> a = b.
Proof.
  unfold gridKey_eqb. destruct a as [a1 a2], b as [b1 b2]. simpl.
  rewrite andb_true_iff, !Z.eqb_eq. split; [intros [-> ->]; reflexivity|].
  intros H. injection H as -> ->. auto.
Qed.

(** Every key of [zips] is the ZIP of its record and has five characters;
    keys are not repeated. *)
Definition zips_ok (idx : index) : Prop :=
  NoDup (map fst (zips idx)) /\
  forall k rec, In (k, rec) (zips idx) -> zip rec = k /\ String.length k = 5%nat.

(** Every set of the state index is duplicate-free and holds keys of [zips]. *)
Definition states_ok (idx : index) : Prop :=
  forall s set, Map_get String.eqb s (stateIndex idx) = Some set ->
    NoDup set /\ forall z, In z set -> In z (map fst (zips idx)).

(** The record's ZIP is filed under the record's state. *)
Definition filed (r : ZipRecord) (idx : index) : Prop :=
  exists set, Map_get String.eqb (state_id r) (stateIndex idx) = Some set /\ In (zip r) set.

Lemma Map_get_index_add (k z s : string) (m : list (string * list string)) :
  Map_get String.eqb s (index_add k z m)
  = if String.eqb s k
    then Some (match Map_get String.eqb k m with
               | Some set => Set_add String.eqb z set
               | None => [z]
               end)
    else Map_get String.eqb s m.
Proof.
  unfold index_add. destruct (String.eqb_spec s k) as [->|Hne].
  - destruct (Map_get String.eqb k m);
      apply (JSFacts.Map_get_set_same String.eqb_eq).
  - destruct (Map_get String.eqb k m);
      apply (JSFacts.Map_get_set_other String.eqb_eq); assumption.
Qed.

Lemma indexRecord_zips_ok (r : ZipRecord) (idx : index) :
  well_formed r -> zips_ok idx -> zips_ok (indexRecord r idx).
Proof.
  intros Hwf [Hnd Hkeys]. split; cbn [indexRecord zips].
  - apply (JSFacts.NoDup_Map_set String.eqb_eq). exact Hnd.
  - intros k rec Hin. apply JSFacts.In_Map_set in Hin.
    destruct Hin as [[-> ->]|Hin]; [split; [reflexivity | exact Hwf] | apply Hkeys; exact Hin].
Qed.

Lemma indexRecord_states_ok (r : ZipRecord) (idx : index) :
  states_ok idx -> states_ok (indexRecord r idx).
Proof.
  intros Hst s set. cbn [indexRecord stateIndex zips].
  assert (Hmono : forall z, In z (map fst (zips idx)) ->
            In z (map fst (Map_set String.eqb (zip r) r (zips idx)))).
  { intros z Hz. apply (JSFacts.keys_Map_set String.eqb_eq). right. exact Hz. }
  assert (Hnew : In (zip r) (map fst (Map_set String.eqb (zip r) r (zips idx)))).
  { apply (JSFacts.keys_Map_set String.eqb_eq). left. reflexivity. }
  destruct (truthy (state_id r)).
  - rewrite Map_get_index_add. destruct (String.eqb s (state_id r)).
    + intros H. injection H as <-.
      destruct (Map_get String.eqb (state_id r) (stateIndex idx)) as [old|] eqn:E.
      * destruct (Hst _ _ E) as [Hnd Hin]. split.
        { apply (JSFacts.NoDup_Set_add String.eqb_eq). exact Hnd. }
        intros z Hz. apply (JSFacts.In_Set_add String.eqb_eq) in Hz.
        destruct Hz as [->|Hz]; auto.
      * split; [constructor; [intros [] | constructor]|].
        intros z [<-|[]]. exact Hnew.
    + intros H. destruct (Hst _ _ H) as [Hnd Hin]. split; auto.
  - intros H. destruct (Hst _ _ H) as [Hnd Hin]. split; auto.
Qed.

Lemma indexRecord_files (r : ZipRecord) (idx : index) :
  truthy (state_id r) = true -> filed r (indexRecord r idx).
Proof.
  intros Ht. unfold filed. cbn [indexRecord stateIndex]. rewrite Ht.
  rewrite Map_get_index_add, String.eqb_refl. eexists. split; [reflexivity|].
  destruct (Map_get String.eqb (state_id r) (stateIndex idx)).
  - apply (JSFacts.In_Set_add String.eqb_eq). left. reflexivity.
  - left. reflexivity.
Qed.

Lemma indexRecord_keeps_filed (r x : ZipRecord) (idx : index) :
  filed r idx -> filed r (indexRecord x idx).
Proof.
  intros (set & Hget & Hin). unfold filed. cbn [indexRecord stateIndex].
  destruct (truthy (state_id x)); [|exists set; auto].
  rewrite Map_get_index_add. destruct (String.eqb_spec (state_id r) (state_id x)) as [E|_].
  - rewrite <- E, Hget. eexists. split; [reflexivity|].
    apply (JSFacts.In_Set_add String.eqb_eq). right. exact Hin.
  - exists set. auto.
Qed.

Definition index_all (data : list ZipRecord) (idx : index) : index :=
  fold_left (fun acc record => indexRecord record acc) data idx.

Lemma index_all_ok (data : list ZipRecord) : forall idx,
  Forall well_formed data -> zips_ok idx -> states_ok idx ->
  zips_ok (index_all data idx) /\ states_ok (index_all data idx).
Proof.
  induction data as [|r data IH]; intros idx Hwf Hz Hs; [split; assumption|].
  change (index_all (r :: data) idx) with (index_all data (indexRecord r idx)).
  inversion Hwf; subst. apply IH; auto.
  - apply indexRecord_zips_ok; assumption.
  - apply indexRecord_states_ok; assumption.
Qed.

Lemma index_all_keeps_filed (r : ZipRecord) (data : list ZipRecord) : forall idx,
  filed r idx -> filed r (index_all data idx).
Proof.
  induction data as [|x data IH]; intros idx H; [exact H|].
  change (filed r (index_all data (indexRecord x idx))).
  apply IH. apply indexRecord_keeps_filed. exact H.
Qed.

Lemma index_all_files (r : ZipRecord) (data : list ZipRecord) : forall idx,
  truthy (state_id r) = true -> In r data -> filed r (index_all data idx).
Proof.
  induction data as [|x data IH]; intros idx Ht Hin; [destruct Hin|].
  change (filed r (index_all data (indexRecord x idx))).
  destruct Hin as [->|Hin].
  - apply index_all_keeps_filed. apply indexRecord_files. exact Ht.
  - apply IH; assumption.
Qed.

(** [loadFromJSON] changes [zips] and the state index as [indexRecord] does. *)
Lemma loadFromJSON_zips (data : list ZipRecord) (idx : index) :
  zips (loadFromJSON data idx) = zips (index_all data idx).
Proof. reflexivity. Qed.

Lemma loadFromJSON_stateIndex (data : list ZipRecord) (idx : index) :
  stateIndex (loadFromJSON data idx) = stateIndex (index_all data idx).
Proof. reflexivity. Qed.

Lemma empty_ok : zips_ok empty /\ states_ok empty.
Proof.
  split; [split; [constructor | intros k rec []]|].
  intros s set H. discriminate.
Qed.

(** A fetched record is found again under its own key. *)
Lemma get_own_key (idx : index) (k : string) (rec : ZipRecord) :
  zips_ok idx -> In (k, rec) (zips idx) -> get idx k = Some rec.
Proof.
  intros [Hnd Hkeys] Hin. unfold get.
  rewrite JSFacts.padStart_full by (destruct (Hkeys _ _ Hin) as [_ ->]; lia).
  apply (JSFacts.In_Map_get String.eqb_eq); assumption.
Qed.

(** *** Stubs of the spatial index *)






(** *** Where the results of a search come from *)

Section Provenance.
Variable M : MathLib.
Variable idx : index.
Variables qlat qlng radiusKm : Q.
Variable limit : nat.












End Provenance.

(** *** A worked example *)

(** Rational approximations of the [Math] functions, to run the model.  At
    the arguments that decide the examples below they take the exact
    values [sin 0 = 0], [sqrt 0 = 0], [sqrt 1 = 1] and [atan2 0 1 = 0]. *)
Definition approxMath : MathLib :=
  let pi := 3.141592653589793%Q in
  mkMath pi
    (fun x => let x := Qred x in
              Qred (x - x * x * x / 6 + x * x * x * x * x / 120))%Q
    (fun x => let x := Qred x in
              Qred (1 - x * x / 2 + x * x * x * x / 24))%Q
    (fun a => let a := Qred a in
              if Qle_bool a 0 then 0
              else let x1 := Qred ((1 + a) / 2) in
                   let x2 := Qred ((x1 + a / x1) / 2) in
                   Qred ((x2 + a / x2) / 2))%Q
    (fun y x => let z := Qred (y / x) in
                if Qle_bool x 0
                then (if Qle_bool 0 y then pi / 2 else - pi / 2)
                else Qred (z - z * z * z / 3 + z * z * z * z * z / 5))%Q.

Definition nyc : ZipRecord :=
  mkZip "10001" (Some 40.75%Q) (Some (-73.99)%Q) "New York" "NY" "36061" "New York" 21102.

Definition nyc_index : index := loadFromJSON [nyc] empty.

Example nyc_found_near_itself :
  map (fun f => zip (record f)) (searchByRadius approxMath nyc_index 40.75 (-73.99) 1 10)
  = ["10001"%string]
  /\ map (fun f => Qred (distance f))
         (searchByRadius approxMath nyc_index 40.75 (-73.99) 1 10) = [0%Q].
Proof. split; vm_compute; reflexivity. Qed.

Example nyc_not_found_from_los_angeles :
  searchByRadius approxMath nyc_index 34.0 (-118.0) 1 10 = [].
Proof. vm_compute. reflexivity. Qed.

(** *** Radius search: the claims *)









(** C9.  Whatever the index, the query and the limit, the result of
    [searchByRadius] is in ascending order of distance; the early return
    taken when the limit is reached sorts as the final return does. *)
Theorem searchByRadius_sorted_on_both_paths
  (M : MathLib) (idx : index) (qlat qlng radiusKm : Q) (limit : nat)
  (latGrids lngGrids : list Z) (results : list found) :
  StronglySorted (fun a b => (distance a <= distance b)%Q)
                 (searchByRadius M idx qlat qlng radiusKm limit)
  /\ returned_ascending
       (scan_lat M idx qlat qlng radiusKm limit latGrids lngGrids results).
Proof.
  split; [apply searchByRadius_is_ascending | apply scan_lat_returned].
Qed.

(** *** Query by state *)

Lemma push_until_firstn (idx : index) (limit : nat) (zipSet : list string) :
  forall results,
  push_until idx limit zipSet results
  = results ++ map (get idx) (firstn (Nat.max 1 (limit - length results)) zipSet).
Proof.
  induction zipSet as [|z zipSet IH]; intros results.
  - rewrite firstn_nil. simpl. rewrite app_nil_r. reflexivity.
  - cbn [push_until].
    destruct (Nat.leb_spec limit (length (results ++ [get idx z]))) as [Hge|Hlt];
      rewrite length_app in *; cbn [length] in *.
    + replace (Nat.max 1 (limit - length results)) with 1%nat by lia. reflexivity.
    + rewrite IH, length_app. cbn [length].
      replace (Nat.max 1 (limit - length results))
        with (S (Nat.max 1 (limit - (length results + 1)))) by lia.
      cbn [firstn map]. rewrite <- app_assoc. reflexivity.
Qed.

Definition count (z : string) (l : list string) : nat :=
  length (filter (fun x => String.eqb x z) l).

Lemma count_absent (z : string) (l : list string) : ~ In z l -> count z l = 0%nat.
Proof.
  unfold count. induction l as [|x l IH]; intros Hnot; [reflexivity|]. simpl.
  destruct (String.eqb_spec x z) as [->|_]; [exfalso; apply Hnot; left; reflexivity|].
  apply IH. intros H. apply Hnot. right. exact H.
Qed.

Lemma count_NoDup (z : string) (l : list string) :
  NoDup l -> (count z l <= 1)%nat /\ (In z l -> count z l = 1%nat).
Proof.
  induction 1 as [|x l Hnot Hnd IH].
  - split; [unfold count; simpl; lia | intros []].
  - unfold count in *. simpl. destruct (String.eqb_spec x z) as [->|Hne]; simpl.
    + pose proof (@count_absent z l Hnot) as H0. unfold count in H0. rewrite H0.
      split; [lia | reflexivity].
    + destruct IH as [Hle Hone]. split; [exact Hle|].
      intros [H|H]; [contradiction | apply Hone; exact H].
Qed.

Lemma occurrences_of_keys (idx : index) (z : string) (l : list string) :
  zips_ok idx -> (forall x, In x l -> In x (map fst (zips idx))) ->
  occurrences z (map (get idx) l) = count z l.
Proof.
  intros Hz. unfold occurrences, count.
  induction l as [|x l IH]; intros Hkeys; [reflexivity|]. simpl.
  assert (Hx : exists rec, get idx x = Some rec /\ zip rec = x).
  { specialize (Hkeys x (or_introl eq_refl)). apply in_map_iff in Hkeys.
    destruct Hkeys as ([k rec] & Hk & Hin). simpl in Hk. subst k.
    exists rec. split; [apply get_own_key; assumption|].
    destruct Hz as [_ Hrec]. apply (Hrec _ _ Hin). }
  destruct Hx as (rec & -> & ->).
  assert (Hrest : forall y, In y l -> In y (map fst (zips idx)))
    by (intros y Hy; apply Hkeys; right; exact Hy).
  destruct (String.eqb x z); simpl; rewrite (IH Hrest); reflexivity.
Qed.

Lemma loadFromJSON_ok (data : list ZipRecord) (idx : index) :
  Forall well_formed data -> zips_ok idx -> states_ok idx ->
  zips_ok (loadFromJSON data idx) /\ states_ok (loadFromJSON data idx).
Proof. intros Hwf Hz Hs. exact (@index_all_ok data idx Hwf Hz Hs). Qed.

Lemma load_all_ok (loads : list (list ZipRecord)) : forall idx,
  Forall (Forall well_formed) loads -> zips_ok idx -> states_ok idx ->
  zips_ok (load_all loads idx) /\ states_ok (load_all loads idx).
Proof.
  induction loads as [|data loads IH]; intros idx Hwf Hz Hs; [split; assumption|].
  change (load_all (data :: loads) idx) with (load_all loads (loadFromJSON data idx)).
  inversion Hwf; subst.
  destruct (@loadFromJSON_ok data idx) as [Hz' Hs']; auto.
Qed.

Lemma load_all_keeps_filed (r : ZipRecord) (loads : list (list ZipRecord)) : forall idx,
  filed r idx -> filed r (load_all loads idx).
Proof.
  induction loads as [|data loads IH]; intros idx H; [exact H|].
  change (load_all (data :: loads) idx) with (load_all loads (loadFromJSON data idx)).
  apply IH. exact (@index_all_keeps_filed r data idx H).
Qed.

Lemma load_all_files (r : ZipRecord) (loads : list (list ZipRecord)) : forall idx,
  truthy (state_id r) = true -> In r (concat loads) -> filed r (load_all loads idx).
Proof.
  induction loads as [|data loads IH]; intros idx Ht Hin; [destruct Hin|].
  change (load_all (data :: loads) idx) with (load_all loads (loadFromJSON data idx)).
  simpl in Hin. apply in_app_or in Hin. destruct Hin as [Hin|Hin].
  - apply load_all_keeps_filed. exact (@index_all_files r data idx Ht Hin).
  - apply IH; assumption.
Qed.

(** C7 (as amended).  Let records of the data model (five-character ZIP
    keys) be loaded in any number of loads, the record [r] among them at
    least once, where the state code of [r] is non-empty and already in upper
    case.  Then the result of [getByState] for that state code contains the
    ZIP of [r] at most once, and exactly once whenever [limit] is at least the
    number of ZIPs filed under that state. *)
Theorem getByState_contains_zip_once
  (loads : list (list ZipRecord)) (r : ZipRecord) (limit : nat) :
  Forall (Forall well_formed) loads ->
  In r (concat loads) ->
  truthy (state_id r) = true ->
  toUpperCase (state_id r) = state_id r ->
  let idx := load_all loads empty in
  (occurrences (zip r) (getByState idx (state_id r) limit) <= 1)%nat
  /\ ((length (state_zips idx (state_id r)) <= limit)%nat ->
      occurrences (zip r) (getByState idx (state_id r) limit) = 1%nat).
Proof.
  intros Hwf Hin Ht Hupper idx.
  destruct (@load_all_ok loads empty Hwf (proj1 empty_ok) (proj2 empty_ok)) as [Hz Hs].
  destruct (@load_all_files r loads empty Ht Hin) as (set & Hget & Hset).
  fold idx in Hz, Hs, Hget.
  destruct (Hs _ _ Hget) as [Hnd Hkeys].
  unfold getByState, state_zips. rewrite Hupper, Hget.
  rewrite push_until_firstn. cbn [app length].
  rewrite Nat.sub_0_r.
  assert (Hsub : forall x, In x (firstn (Nat.max 1 limit) set) -> In x set).
  { intros x Hx. rewrite <- (firstn_skipn (Nat.max 1 limit) set).
    apply in_or_app. left. exact Hx. }
  rewrite occurrences_of_keys by (auto; intros x Hx; apply Hkeys, Hsub, Hx).
  split.
  - apply count_NoDup.
    rewrite <- (firstn_skipn (Nat.max 1 limit) set) in Hnd.
    apply NoDup_app_remove_r in Hnd. exact Hnd.
  - intros Hlen. rewrite firstn_all2 by lia. apply count_NoDup; assumption.
Qed.

Definition harlem : ZipRecord :=
  mkZip "10027" (Some 40.81%Q) (Some (-73.95)%Q) "New York" "NY" "36061" "New York" 64702.

Lemma getByState_contains_zip_once_witness :
  occurrences "10001" (getByState (load_all [[nyc; harlem]; [nyc]] empty) "NY" 100) = 1%nat.
Proof.
  apply (@getByState_contains_zip_once [[nyc; harlem]; [nyc]] nyc 100).
  - repeat constructor.
  - left. reflexivity.
  - reflexivity.
  - reflexivity.
  - vm_compute. lia.
Defined.

(** The record of the example with its state code in lower case. *)
Definition nyc_lower : ZipRecord :=
  mkZip "10001" (Some 40.75%Q) (Some (-73.99)%Q) "New York" "ny" "36061" "New York" 21102.

(** C7, refuted as stated.  A record whose state code is in lower case is
    filed under that code, but [getByState] looks up the upper-cased code
    and returns nothing; and a record filed behind [limit] others of its
    state is cut off. *)
Lemma getByState_misses_record :
  getByState (loadFromJSON [nyc_lower] empty) (state_id nyc_lower) 100 = []
  /\ occurrences (zip nyc_lower)
       (getByState (loadFromJSON [nyc_lower] empty) (state_id nyc_lower) 100) = 0%nat
  /\ getByState (loadFromJSON [nyc; harlem] empty) (state_id harlem) 1 = [Some nyc]
  /\ occurrences (zip harlem)
       (getByState (loadFromJSON [nyc; harlem] empty) (state_id harlem) 1) = 0%nat.
Proof. repeat split; vm_compute; reflexivity. Qed.

End ZipFacts.

(** ** More on the retry loops *)

Module RetryLaws.
Import JS Retry.

Section Laws.
Variable V : Type.
Variable op : nat -> outcome V error.
Variable maxRetries : nat.

Lemma plain_first_success remaining : forall attempt k v,
  (attempt <= k)%nat -> (k < attempt + remaining)%nat -> (k <= maxRetries)%nat ->
  (forall j, (attempt <= j < k)%nat -> exists e, op j = Rejected e) ->
  op k = Fulfilled v ->
  snd (fetchWithRetry_from op maxRetries remaining attempt) = Return v /\
  invocations (fst (fetchWithRetry_from op maxRetries remaining attempt))
  = seq attempt (S k - attempt).
Proof.
  induction remaining as [|remaining IH]; intros attempt k v Hle Hlt Hmax Hfail Hok; [lia|].
  rewrite RetryFacts.plain_from_unfold.
  destruct (Nat.eq_dec attempt k) as [->|Hne].
  - rewrite Hok. cbn [fst snd invocations]. replace (S k - k)%nat with 1%nat by lia.
    auto.
  - destruct (Hfail attempt ltac:(lia)) as [e He]. rewrite He.
    destruct (Nat.eqb_spec attempt maxRetries) as [Heq|_]; [lia|].
    cbn [fst snd invocations].
    destruct (IH (S attempt) k v) as [Hc Hi]; try lia; auto.
    { intros j Hj. apply Hfail. lia. }
    split; [exact Hc|]. rewrite Hi.
    replace (S k - attempt)%nat with (S (S k - S attempt)) by lia. reflexivity.
Qed.

Lemma plain_all_fail remaining : forall attempt e,
  (attempt + remaining = S maxRetries)%nat -> (1 <= remaining)%nat ->
  (forall j, (attempt <= j <= maxRetries)%nat -> exists e', op j = Rejected e') ->
  op maxRetries = Rejected e ->
  snd (fetchWithRetry_from op maxRetries remaining attempt) = Throw e /\
  invocations (fst (fetchWithRetry_from op maxRetries remaining attempt))
  = seq attempt remaining.
Proof.
  induction remaining as [|remaining IH]; intros attempt e Hsum Hpos Hfail Hlast; [lia|].
  rewrite RetryFacts.plain_from_unfold.
  destruct (Hfail attempt ltac:(lia)) as [e' He']. rewrite He'.
  destruct (Nat.eqb_spec attempt maxRetries) as [->|Hne]; cbn [fst snd invocations].
  - assert (remaining = 0)%nat by lia. subst remaining.
    rewrite Hlast in He'. injection He' as <-. auto.
  - destruct (IH (S attempt) e) as [Hc Hi]; try lia; auto.
    { intros j Hj. apply Hfail. lia. }
    split; [exact Hc|]. rewrite Hi. reflexivity.
Qed.

Lemma plain_invocations_bound remaining : forall attempt,
  (length (invocations (fst (fetchWithRetry_from op maxRetries remaining attempt)))
   <= remaining)%nat.
Proof.
  induction remaining as [|remaining IH]; intros attempt; [simpl; lia|].
  rewrite RetryFacts.plain_from_unfold.
  destruct (op attempt) as [v|e]; [simpl; lia|].
  destruct (attempt =? maxRetries)%nat; cbn [fst invocations length]; [lia|].
  specialize (IH (S attempt)). lia.
Qed.

Lemma plain_sleep_bound remaining : forall attempt,
  (attempt + remaining = S maxRetries)%nat ->
  0 <= total_sleep (fst (fetchWithRetry_from op maxRetries remaining attempt))
    <= 10000 * (Z.of_nat remaining - 1) \/ remaining = 0%nat.
Proof.
  induction remaining as [|remaining IH]; intros attempt Hsum; [right; reflexivity|].
  left. rewrite RetryFacts.plain_from_unfold.
  destruct (op attempt) as [v|e]; [cbn [fst total_sleep]; lia|].
  destruct (Nat.eqb_spec attempt maxRetries) as [Heq|Hne]; [cbn [fst total_sleep]; lia|].
  cbn [fst total_sleep].
  assert (Hpos : 0 < 2 ^ Z.of_nat attempt) by (apply Z.pow_pos_nonneg; lia).
  destruct (IH (S attempt) ltac:(lia)) as [Hrest|Hzero]; lia.
Qed.

(** Every call made by the batch loop follows an admission of the rate
    limiter, retries included. *)
Lemma batch_admitted remaining : forall attempt lastError,
  admitted_before_each_call
    (fst (fetchBatchWithRetry_from op maxRetries remaining attempt lastError)) = true.
Proof.
  induction remaining as [|remaining IH]; intros attempt lastError; [reflexivity|].
  rewrite RetryFacts.batch_from_unfold. cbv zeta. unfold RetryFacts.backoff_of.
  destruct (op attempt) as [v|e]; [destruct (1 <? attempt)%nat; reflexivity|].
  destruct (attempt =? maxRetries)%nat; [destruct (1 <? attempt)%nat; reflexivity|].
  cbn [fst]. destruct (1 <? attempt)%nat; cbn [map app admitted_before_each_call]; apply IH.
Qed.

(** The backoff requested by the batch loop over the attempts it makes. *)
Lemma batch_total_sleep remaining : forall attempt lastError,
  (1 <= attempt)%nat ->
  let t := fst (fetchBatchWithRetry_from op maxRetries remaining attempt lastError) in
  let n := Z.of_nat (length (invocations t)) in
  total_sleep t
  = if (length (invocations t) =? 0)%nat then 0
    else 1000 * (2 ^ (Z.of_nat attempt + n - 1) - 2 ^ (Z.of_nat attempt - 1))
         - (if (attempt =? 1)%nat then 1000 else 0).
Proof.
  induction remaining as [|remaining IH]; intros attempt lastError Hatt; [reflexivity|].
  cbv zeta. rewrite RetryFacts.batch_from_unfold. cbv zeta.
  assert (Hpre : forall rest,
    total_sleep ((map EvSleep (RetryFacts.backoff_of attempt)
                   ++ [EvRateLimit; EvInvoke attempt]) ++ rest)
    = (if (attempt =? 1)%nat then 0 else 2 ^ (Z.of_nat attempt - 1) * 1000)
      + total_sleep rest
    /\ invocations ((map EvSleep (RetryFacts.backoff_of attempt)
                   ++ [EvRateLimit; EvInvoke attempt]) ++ rest)
       = attempt :: invocations rest).
  { intros rest. unfold RetryFacts.backoff_of.
    destruct attempt as [|[|a]]; [lia | split; reflexivity |].
    replace (1 <? S (S a))%nat with true by (symmetry; apply Nat.ltb_lt; lia).
    split; reflexivity. }
  assert (Hone : 1000 * (2 ^ (Z.of_nat attempt + 1 - 1) - 2 ^ (Z.of_nat attempt - 1))
                 = 2 ^ (Z.of_nat attempt - 1) * 1000).
  { replace (Z.of_nat attempt + 1 - 1) with (Z.succ (Z.of_nat attempt - 1)) by lia.
    rewrite Z.pow_succ_r by lia. lia. }
  destruct (op attempt) as [v|e].
  - cbn [fst]. rewrite <- (app_nil_r (_ ++ [EvRateLimit; EvInvoke attempt])).
    destruct (Hpre []) as [Hs Hi]. rewrite Hs, Hi. cbn [invocations length total_sleep Nat.eqb].
    change (Z.of_nat 1) with 1. rewrite Hone.
    destruct (attempt =? 1)%nat eqn:E; [apply Nat.eqb_eq in E; subst; reflexivity | lia].
  - destruct (attempt =? maxRetries)%nat.
    + cbn [fst]. destruct (Hpre [EvLogError e]) as [Hs Hi]. rewrite Hs, Hi.
      cbn [invocations length total_sleep Nat.eqb].
      change (Z.of_nat 1) with 1. rewrite Hone.
      destruct (attempt =? 1)%nat eqn:E; [apply Nat.eqb_eq in E; subst; reflexivity | lia].
    + cbn [fst].
      destruct (Hpre (fst (fetchBatchWithRetry_from op maxRetries remaining (S attempt)
                             (Some e)))) as [Hs Hi].
      rewrite Hs, Hi. cbn [length Nat.eqb].
      specialize (IH (S attempt) (Some e) ltac:(lia)). cbv zeta in IH. rewrite IH.
      replace (S attempt =? 1)%nat with false by (symmetry; apply Nat.eqb_neq; lia).
      set (m := length (invocations (fst (fetchBatchWithRetry_from op maxRetries remaining
                                             (S attempt) (Some e))))).
      destruct (Nat.eqb_spec m 0) as [Hm|Hm].
      * rewrite Hm. change (Z.of_nat 1) with 1. rewrite Hone.
        destruct (attempt =? 1)%nat eqn:E; [apply Nat.eqb_eq in E; subst; reflexivity | lia].
      * replace (Z.of_nat (S attempt) + Z.of_nat m - 1)
          with (Z.of_nat attempt + Z.of_nat (S m) - 1) by lia.
        replace (Z.of_nat (S attempt) - 1) with (Z.succ (Z.of_nat attempt - 1)) by lia.
        rewrite Z.pow_succ_r by lia.
        destruct (attempt =? 1)%nat eqn:E.
        { apply Nat.eqb_eq in E. subst attempt. change (Z.of_nat 1 - 1) with 0.
          change (2 ^ 0) with 1. lia. }
        lia.
Qed.

End Laws.

(** X1.  [fetchWithRetry] calls the operation at most [maxRetries] times,
    returns the value of the first call that succeeds after exactly that
    many calls, rethrows the error of the last call when all [maxRetries]
    calls fail, sleeps at most 10 seconds after each failed call that is
    retried (at most [10000 * (maxRetries - 1)] ms in total), and with
    [maxRetries = 0] resolves to [undefined] without calling the operation
    at all. *)
Theorem fetchWithRetry_outcome (V : Type) (op : nat -> outcome V error) (maxRetries : nat) :
  (length (invocations (fst (fetchWithRetry op maxRetries))) <= maxRetries)%nat
  /\ (maxRetries = 0%nat -> fetchWithRetry op maxRetries = ([], ReturnUndefined))
  /\ (forall k v,
        (1 <= k <= maxRetries)%nat ->
        (forall j, (1 <= j < k)%nat -> exists e, op j = Rejected e) ->
        op k = Fulfilled v ->
        snd (fetchWithRetry op maxRetries) = Return v
        /\ invocations (fst (fetchWithRetry op maxRetries)) = seq 1 k)
  /\ (forall e,
        (1 <= maxRetries)%nat ->
        (forall j, (1 <= j <= maxRetries)%nat -> exists e', op j = Rejected e') ->
        op maxRetries = Rejected e ->
        snd (fetchWithRetry op maxRetries) = Throw e
        /\ invocations (fst (fetchWithRetry op maxRetries)) = seq 1 maxRetries)
  /\ (total_sleep (fst (fetchWithRetry op maxRetries)) <= 10000 * (Z.of_nat maxRetries - 1)
      \/ maxRetries = 0%nat).
Proof.
  unfold fetchWithRetry. split; [apply plain_invocations_bound|]. split; [|split; [|split]].
  - intros ->. reflexivity.
  - intros k v Hk Hfail Hok.
    destruct (@plain_first_success V op maxRetries maxRetries 1%nat k v) as [Hc Hi];
      auto; try lia.
    rewrite Hc, Hi. replace (S k - 1)%nat with k by lia. auto.
  - intros e Hpos Hfail Hlast. apply plain_all_fail; auto; lia.
  - destruct (@plain_sleep_bound V op maxRetries maxRetries 1%nat ltac:(lia)) as [H|H];
      [left; lia | right; exact H].
Qed.

Lemma fetchWithRetry_outcome_witness :
  snd (fetchWithRetry (RetryFacts.failing_first 2 ["42"%string]) 3) = Return ["42"%string]
  /\ invocations (fst (fetchWithRetry (RetryFacts.failing_first 2 ["42"%string]) 3))
     = [1; 2; 3]%nat.
Proof.
  destruct (@fetchWithRetry_outcome _ (RetryFacts.failing_first 2 ["42"%string]) 3)
    as (_ & _ & Hok & _).
  apply (Hok 3%nat ["42"%string]).
  - lia.
  - intros j Hj. exists RetryFacts.http500. unfold RetryFacts.failing_first.
    destruct (Nat.leb_spec j 2); [reflexivity | lia].
  - reflexivity.
Defined.

(** X2.  In [fetchBatchWithRetry] every call of the operation, first
    attempt and retries alike, comes right after an admission by the rate
    limiter; and when [k >= 1] calls are made the backoff requested in total
    is [1000 * (2^k - 2)] ms. *)
Theorem fetchBatchWithRetry_admission_and_backoff
  (V : Type) (op : nat -> outcome V error) (maxRetries : nat) :
  let t := fst (fetchBatchWithRetry op maxRetries) in
  admitted_before_each_call t = true
  /\ total_sleep t
     = if (length (invocations t) =? 0)%nat then 0
       else 1000 * (2 ^ Z.of_nat (length (invocations t)) - 2).
Proof.
  cbv zeta. unfold fetchBatchWithRetry. split; [apply batch_admitted|].
  pose proof (@batch_total_sleep V op maxRetries maxRetries 1%nat None ltac:(lia)) as H.
  cbv zeta in H. rewrite H.
  destruct (length (invocations _) =? 0)%nat; [reflexivity|].
  cbn [Nat.eqb]. change (Z.of_nat 1) with 1.
  match goal with |- context [1 + ?n - 1] => replace (1 + n - 1) with n by lia end.
  change (2 ^ (1 - 1)) with 1. lia.
Qed.

End RetryLaws.

(** ** More on the cache store *)

Module CacheLaws.
Import JS ACS.

(** *** The storage model *)

Lemma removeItem_incl (k : string) (st : Storage.t) (kv : string * Storage.value) :
  In kv (Storage.removeItem k st) <-> In kv st /\ fst kv <> k.
Proof.
  unfold Storage.removeItem. rewrite filter_In, negb_true_iff.
  destruct (String.eqb_spec (fst kv) k); intuition congruence.
Qed.

Lemma removeItem_keys_NoDup (k : string) (st : Storage.t) :
  NoDup (map fst st) -> NoDup (map fst (Storage.removeItem k st)).
Proof.
  unfold Storage.removeItem. induction st as [|[k' v'] st IH]; simpl; intros Hnd; [constructor|].
  inversion Hnd as [|? ? Hnot Hrest]; subst.
  destruct (String.eqb k' k); simpl; [apply IH; exact Hrest|].
  constructor; [|apply IH; exact Hrest].
  intros Hin. apply Hnot. apply in_map_iff in Hin. destruct Hin as (kv & Hk & Hkv).
  apply filter_In in Hkv. apply in_map_iff. exists kv. intuition.
Qed.

Lemma same_key_same_entry (st : Storage.t) (k : string) (v v' : Storage.value) :
  NoDup (map fst st) -> In (k, v) st -> In (k, v') st -> v = v'.
Proof.
  induction st as [|[k0 v0] st IH]; simpl; intros Hnd H1 H2; [destruct H1|].
  inversion Hnd as [|? ? Hnot Hrest]; subst.
  assert (Hkey : forall w, In (k0, w) st -> False).
  { intros w Hw. apply Hnot. apply in_map_iff. exists (k0, w). auto. }
  destruct H1 as [H1|H1], H2 as [H2|H2].
  - congruence.
  - injection H1 as -> ->. exfalso. eapply Hkey. exact H2.
  - injection H2 as -> ->. exfalso. eapply Hkey. exact H1.
  - apply IH; assumption.
Qed.

(** With distinct keys, removing the key at index [i] removes that entry
    and nothing else. *)
Lemma removeItem_at (st : Storage.t) : forall i k v,
  NoDup (map fst st) -> nth_error st i = Some (k, v) ->
  Storage.removeItem k st = firstn i st ++ skipn (S i) st.
Proof.
  unfold Storage.removeItem.
  induction st as [|[k0 v0] st IH]; intros i k v Hnd Hnth; [destruct i; discriminate|].
  inversion Hnd as [|? ? Hnot Hrest]; subst.
  destruct i as [|i]; simpl in Hnth.
  - injection Hnth as -> ->. simpl. rewrite String.eqb_refl. simpl.
    apply forallb_filter_id. apply forallb_forall. intros [k1 v1] Hin. simpl.
    apply negb_true_iff. apply String.eqb_neq. intros ->.
    apply Hnot. apply in_map_iff. exists (k, v1). auto.
  - simpl. destruct (String.eqb_spec k0 k) as [->|Hne].
    + exfalso. apply Hnot. apply in_map_iff. exists (k, v). split; [reflexivity|].
      eapply nth_error_In. exact Hnth.
    + simpl. f_equal. eapply IH; eassumption.
Qed.

(** *** Sweep and clear *)

Section Sweep.
Variable cachePrefix : string.
Variable now : Z.

(** What the sweep must leave alone: keys of others, and entries of the
    service that parse and are not stale. *)
Definition to_keep (kv : string * Storage.value) : bool :=
  negb (in_namespace cachePrefix (fst kv)) ||
  match snd kv with
  | Storage.Entry _ cached => negb (stale now cached)
  | Storage.Opaque _ => false
  | Storage.Items _ _ => true
  end.

Lemma cleanCache_loop_safe (fuel : nat) : forall i st,
  NoDup (map fst st) ->
  (forall kv, In kv (cleanCache_loop cachePrefix now fuel i st) -> In kv st)
  /\ (forall kv, In kv st -> to_keep kv = true ->
                 In kv (cleanCache_loop cachePrefix now fuel i st)).
Proof.
  induction fuel as [|fuel IH]; intros i st Hnd; [split; auto|].
  cbn [cleanCache_loop].
  destruct (i <? length st)%nat; [|split; auto].
  destruct (nth_error st i) as [[k v]|] eqn:Hnth; [|split; auto].
  assert (Hin : In (k, v) st) by (eapply nth_error_In; exact Hnth).
  assert (Hremove : ~ to_keep (k, v) = true ->
    (forall kv, In kv (cleanCache_loop cachePrefix now fuel (S i) (Storage.removeItem k st))
                -> In kv st)
    /\ (forall kv, In kv st -> to_keep kv = true ->
          In kv (cleanCache_loop cachePrefix now fuel (S i) (Storage.removeItem k st)))).
  { intros Hgone.
    destruct (IH (S i) (Storage.removeItem k st) (@removeItem_keys_NoDup k st Hnd)) as [H1 H2].
    split.
    - intros kv Hkv. apply H1 in Hkv. apply removeItem_incl in Hkv. apply Hkv.
    - intros [k1 v1] Hkv Hkeep. apply H2; [|exact Hkeep].
      apply removeItem_incl. split; [exact Hkv|]. simpl. intros ->.
      apply Hgone. rewrite (@same_key_same_entry st k v v1 Hnd Hin Hkv). exact Hkeep. }
  unfold to_keep in Hremove. cbn [fst snd] in Hremove.
  destruct (in_namespace cachePrefix k) eqn:Hns; [|apply IH; exact Hnd].
  destruct v as [n|n cached|n items].
  - apply Hremove. simpl. congruence.
  - destruct (stale now cached) eqn:Hstale; [|apply IH; exact Hnd].
    apply Hremove. simpl. congruence.
  - apply IH. exact Hnd.
Qed.

(** Clearing from index [n - 1] downwards. *)
Lemma clearCache_from_filter (n : nat) : forall st,
  (n <= length st)%nat -> NoDup (map fst st) ->
  clearCache_from cachePrefix n st
  = filter (fun kv => negb (in_namespace cachePrefix (fst kv))) (firstn n st) ++ skipn n st.
Proof.
  induction n as [|i IH]; intros st Hn Hnd; [reflexivity|].
  cbn [clearCache_from]. unfold Storage.key.
  destruct (nth_error st i) as [[k v]|] eqn:Hnth;
    [|apply nth_error_None in Hnth; lia].
  cbn [option_map fst].
  assert (Hsplit : firstn (S i) st = firstn i st ++ [(k, v)]).
  { clear IH Hnd. revert st Hn Hnth. induction i as [|i IHi]; intros [|x st] Hn Hnth;
      simpl in *; try discriminate; try lia.
    - injection Hnth as ->. reflexivity.
    - f_equal. apply IHi; [lia | exact Hnth]. }
  assert (Hskip : skipn i st = (k, v) :: skipn (S i) st).
  { clear IH Hnd Hsplit. revert st Hn Hnth. induction i as [|i IHi]; intros [|x st] Hn Hnth;
      simpl in *; try discriminate; try lia.
    - injection Hnth as ->. reflexivity.
    - apply IHi; [lia | exact Hnth]. }
  rewrite Hsplit, filter_app. cbn [filter fst].
  destruct (in_namespace cachePrefix k) eqn:Hns; cbn [negb].
  - rewrite (@removeItem_at st i k v Hnd Hnth).
    assert (Hlen : length (firstn i st) = i) by (rewrite length_firstn; lia).
    rewrite IH.
    + rewrite firstn_app, Hlen, Nat.sub_diag, firstn_0, app_nil_r.
      rewrite firstn_all2 by lia.
      rewrite skipn_app, Hlen, Nat.sub_diag. cbn [skipn].
      rewrite skipn_all2 by lia. rewrite app_nil_r. reflexivity.
    + rewrite length_app, Hlen. lia.
    + rewrite <- (@removeItem_at st i k v Hnd Hnth). apply removeItem_keys_NoDup. exact Hnd.
  - rewrite IH by (auto; lia). rewrite Hskip, <- app_assoc. reflexivity.
Qed.

End Sweep.

(** X3.  With distinct keys, a sweep only takes away: every key left by
    [cleanCache] was there before, with the same value, and it removes no key
    outside the service's namespace and no entry of the service that parses
    and is not past its expiry. *)
Theorem cleanCache_removes_only_stale
  (cachePrefix : string) (now : Z) (st : Storage.t) (kv : string * Storage.value) :
  NoDup (map fst st) ->
  (In kv (cleanCache cachePrefix now st) -> In kv st)
  /\ (In kv st -> to_keep cachePrefix now kv = true -> In kv (cleanCache cachePrefix now st)).
Proof.
  intros Hnd. unfold cleanCache.
  destruct (@cleanCache_loop_safe cachePrefix now (length st) 0%nat st Hnd) as [H1 H2].
  split; [apply H1 | apply H2].
Qed.

Definition fresh_and_foreign : Storage.t :=
  [ ("acs_cache_v1.0_10001_0a1b2c3d"%string,
     Storage.Entry 180 (Storage.mkEntry "{B01003_001E: 21102}" 1703980800000
                          (Some 1706572800000)));
    ("theme"%string, Storage.Opaque 4) ].

Lemma cleanCache_removes_only_stale_witness :
  In ("theme"%string, Storage.Opaque 4)
     (cleanCache ACSFacts.prefix_v1 ACSFacts.jan_2024 fresh_and_foreign).
Proof.
  apply (@cleanCache_removes_only_stale ACSFacts.prefix_v1 ACSFacts.jan_2024
           fresh_and_foreign ("theme"%string, Storage.Opaque 4)).
  - repeat constructor; simpl; intuition discriminate.
  - right. left. reflexivity.
  - reflexivity.
Defined.

(** X4.  With distinct keys, [clearCache] removes exactly the keys under the
    service's prefix: what is left is the other keys, in their order. *)
Theorem clearCache_removes_namespace (cachePrefix : string) (st : Storage.t) :
  NoDup (map fst st) ->
  clearCache cachePrefix st
  = filter (fun kv => negb (in_namespace cachePrefix (fst kv))) st.
Proof.
  intros Hnd. unfold clearCache.
  rewrite clearCache_from_filter by (auto; lia).
  rewrite firstn_all, skipn_all, app_nil_r. reflexivity.
Qed.

Lemma clearCache_removes_namespace_witness :
  clearCache ACSFacts.prefix_v1 fresh_and_foreign = [("theme"%string, Storage.Opaque 4)].
Proof.
  rewrite (@clearCache_removes_namespace ACSFacts.prefix_v1 fresh_and_foreign).
  - reflexivity.
  - repeat constructor; simpl; intuition discriminate.
Defined.

(** X5.  [clearOldestCacheEntries(count)] never touches a key outside the
    service's namespace, changes nothing for [count = 0], and leaves no
    entry of the service when [count] is at least their number. *)
Theorem clearOldestCacheEntries_bounds (cachePrefix : string) (count : nat) (st : Storage.t) :
  (forall kv, In kv st -> in_namespace cachePrefix (fst kv) = false ->
              In kv (clearOldestCacheEntries cachePrefix count st))
  /\ clearOldestCacheEntries cachePrefix 0 st = st
  /\ ((length (namespace_entries cachePrefix st) <= count)%nat ->
      namespace_entries cachePrefix (clearOldestCacheEntries cachePrefix count st) = []).
Proof.
  split; [|split].
  - intros kv Hin Hns. apply ACSFacts.In_clearOldest. split; [exact Hin|].
    intros Hv. apply in_map_iff in Hv. destruct Hv as (e & He & Hin').
    apply ACSFacts.oldest_entries_in_namespace in Hin'. congruence.
  - reflexivity.
  - intros Hcount.
    destruct (namespace_entries cachePrefix (clearOldestCacheEntries cachePrefix count st))
      as [|e rest] eqn:E; [reflexivity|]. exfalso.
    assert (He : In e (namespace_entries cachePrefix
                         (clearOldestCacheEntries cachePrefix count st)))
      by (rewrite E; left; reflexivity).
    unfold namespace_entries in He. apply in_map_iff in He.
    destruct He as (kv & _ & Hkv). apply filter_In in Hkv. destruct Hkv as [Hkv Hns].
    apply ACSFacts.In_clearOldest in Hkv. destruct Hkv as [Hst Hnot]. apply Hnot.
    unfold oldest_entries. rewrite firstn_all2 by (rewrite JSFacts.sort_length; exact Hcount).
    apply in_map_iff. exists (fst kv, cachedAt_of (snd kv)). split; [reflexivity|].
    apply JSFacts.sort_In. unfold namespace_entries. apply in_map_iff.
    exists kv. split; [reflexivity|]. apply filter_In. auto.
Qed.

Lemma clearOldestCacheEntries_bounds_witness :
  In ("theme"%string, Storage.Opaque 4)
     (clearOldestCacheEntries ACSFacts.prefix_v1 20 ACSFacts.two_expired)
  /\ namespace_entries ACSFacts.prefix_v1
       (clearOldestCacheEntries ACSFacts.prefix_v1 20 ACSFacts.two_expired) = [].
Proof.
  destruct (@clearOldestCacheEntries_bounds ACSFacts.prefix_v1 20 ACSFacts.two_expired)
    as (Hother & _ & Hall).
  split.
  - apply Hother; [right; right; left; reflexivity | reflexivity].
  - apply Hall. simpl. lia.
Defined.

(** *** Keys *)

Lemma sorted_unique (l : list string) : forall l',
  JSFacts.ordered String.leb l -> JSFacts.ordered String.leb l' ->
  Permutation l l' -> l = l'.
Proof.
  induction l as [|x l IH]; intros l' Hl Hl' Hperm.
  - apply Permutation_nil in Hperm. congruence.
  - destruct l' as [|y l'];
      [apply Permutation_sym, Permutation_nil in Hperm; discriminate|].
    inversion Hl as [|? ? Hl1 Hx]; inversion Hl' as [|? ? Hl1' Hy]; subst.
    assert (Hxy : x = y).
    { assert (Hyin : In y (x :: l))
        by (eapply Permutation_in; [apply Permutation_sym; exact Hperm | left; reflexivity]).
      assert (Hxin : In x (y :: l'))
        by (eapply Permutation_in; [exact Hperm | left; reflexivity]).
      destruct Hyin as [->|Hyin]; [reflexivity|].
      destruct Hxin as [->|Hxin]; [reflexivity|].
      rewrite Forall_forall in Hx, Hy.
      apply String.leb_antisym; [apply Hx | apply Hy]; assumption. }
    subst y. f_equal. apply IH; auto.
    eapply Permutation_cons_inv. exact Hperm.
Qed.

Lemma sort_strings_perm (l l' : list string) :
  Permutation l l' -> JS.sort String.leb l = JS.sort String.leb l'.
Proof.
  intros Hperm. apply sorted_unique; try apply JSFacts.sort_strings_ordered.
  eapply perm_trans; [apply Permutation_sym, JSFacts.sort_perm|].
  eapply perm_trans; [exact Hperm | apply JSFacts.sort_perm].
Qed.

Lemma read_sorted_in_place (h : heap) (r : nat) :
  read (ACSFacts.sorted_in_place h r) r = JS.sort String.leb (read h r).
Proof.
  unfold ACSFacts.sorted_in_place.
  destruct (Nat.lt_ge_cases r (length h)) as [Hr|Hr].
  - apply ACSFacts.read_write. exact Hr.
  - rewrite ACSFacts.write_out_of_range by exact Hr.
    rewrite (ACSFacts.read_out_of_range h Hr). reflexivity.
Qed.

(** X6.  The cache key depends on the variable names as a collection, not
    on the order in which the caller lists them: two arrays that are
    permutations of each other give the same key for a ZIP. *)
Theorem getCacheKey_ignores_order
  (cachePrefix zip : string) (r r' : nat) (h h' : heap) :
  Permutation (read h r) (read h' r') ->
  fst (getCacheKey cachePrefix zip r h) = fst (getCacheKey cachePrefix zip r' h').
Proof.
  intros Hperm. unfold getCacheKey. cbn [fst].
  rewrite (sort_strings_perm Hperm). reflexivity.
Qed.

Lemma getCacheKey_ignores_order_witness :
  fst (getCacheKey ACSFacts.prefix_v1 "10001" 0 [["B19013_001E"; "B01003_001E"]%string])
  = fst (getCacheKey ACSFacts.prefix_v1 "10001" 0 [["B01003_001E"; "B19013_001E"]%string]).
Proof.
  apply (@getCacheKey_ignores_order ACSFacts.prefix_v1 "10001" 0 0
           [["B19013_001E"; "B01003_001E"]%string] [["B01003_001E"; "B19013_001E"]%string]).
  apply perm_swap.
Defined.

Lemma toInt32_range (z : Z) : - 2 ^ 31 <= toInt32 z < 2 ^ 31.
Proof.
  unfold toInt32. pose proof (Z.mod_pos_bound (z + 2 ^ 31) (2 ^ 32) eq_refl) as H.
  change (2 ^ 32) with (2 * 2 ^ 31) in *. lia.
Qed.

Lemma hashString_from_range (str : string) : forall hash,
  - 2 ^ 31 <= hash < 2 ^ 31 -> - 2 ^ 31 <= hashString_from str hash < 2 ^ 31.
Proof.
  induction str as [|c str IH]; intros hash Hh; [exact Hh|].
  cbn [hashString_from]. apply IH. apply toInt32_range.
Qed.

Lemma toString16_from_length (fuel : nat) : forall k z acc,
  (1 <= k <= fuel)%nat -> 0 <= z < 16 ^ Z.of_nat k ->
  (String.length acc + 1 <= String.length (toString16_from fuel z acc)
   <= String.length acc + k)%nat.
Proof.
  induction fuel as [|fuel IH]; intros k z acc Hk Hz; [lia|].
  cbn [toString16_from].
  destruct (Z.eqb_spec (z / 16) 0) as [Hq|Hq]; [simpl; lia|].
  assert (Hq' : 1 <= z / 16) by (pose proof (Z.div_pos z 16 ltac:(lia) ltac:(lia)); lia).
  assert (Hz16 : 16 <= z).
  { destruct (Z.lt_ge_cases z 16) as [Hlt|Hge]; [|exact Hge].
    rewrite Z.div_small in Hq' by lia. lia. }
  destruct k as [|[|k]]; [lia | simpl in Hz; lia |].
  assert (Hdiv : 0 <= z / 16 < 16 ^ Z.of_nat (S k)).
  { split; [lia|]. apply Z.div_lt_upper_bound; [lia|].
    replace (Z.of_nat (S (S k))) with (Z.succ (Z.of_nat (S k))) in Hz by lia.
    rewrite Z.pow_succ_r in Hz by lia. lia. }
  specialize (IH (S k) (z / 16) (String (hex_digit (z mod 16)) acc) ltac:(lia) Hdiv).
  simpl String.length in IH. lia.
Qed.

Lemma length_append (a b : string) :
  String.length (String.append a b) = (String.length a + String.length b)%nat.
Proof. induction a as [|c a IH]; simpl; [reflexivity | rewrite IH; reflexivity]. Qed.

Lemma length_padStart (n : nat) (c : ascii) (s : string) :
  String.length (padStart n c s) = Nat.max n (String.length s).
Proof.
  unfold padStart. rewrite length_append.
  assert (H : forall m, String.length (repeat_char c m) = m)
    by (induction m; simpl; congruence).
  rewrite H. lia.
Qed.

(** X7.  The hash suffix of a cache key is always eight characters long,
    so a key is the prefix, the ZIP, an underscore and eight more
    characters. *)
Theorem hashString_length (cachePrefix zip : string) (variables : nat) (h : heap) (str : string) :
  String.length (hashString str) = 8%nat
  /\ String.length (fst (getCacheKey cachePrefix zip variables h))
     = (String.length cachePrefix + String.length zip + 9)%nat.
Proof.
  assert (Hhash : forall s, String.length (hashString s) = 8%nat).
  { intros s0. unfold hashString. rewrite length_padStart.
    pose proof (@hashString_from_range s0 0 ltac:(lia)) as Hr.
    pose proof (@toString16_from_length 16 8 (Z.abs (hashString_from s0 0)) EmptyString
                  ltac:(lia)) as Hlen.
    unfold toString16.
    assert (Hb : 0 <= Z.abs (hashString_from s0 0) < 16 ^ Z.of_nat 8).
    { change (16 ^ Z.of_nat 8) with (2 * 2 ^ 31). lia. }
    specialize (Hlen Hb). change (String.length EmptyString) with 0%nat in Hlen. lia. }
  split; [apply Hhash|].
  unfold getCacheKey. cbn [fst]. rewrite !length_append, Hhash. simpl. lia.
Qed.

(** *** Write then read *)

Lemma getItem_put_same (k : string) (v : Storage.value) (st : Storage.t) :
  Storage.getItem (Storage.put k v st) k = Some v.
Proof.
  unfold Storage.getItem. induction st as [|[k' v'] st IH]; simpl.
  - rewrite String.eqb_refl. reflexivity.
  - destruct (String.eqb k' k) eqn:E; simpl.
    + rewrite String.eqb_refl. reflexivity.
    + rewrite E. exact IH.
Qed.

Lemma getItem_removeItem (k : string) (st : Storage.t) :
  Storage.getItem (Storage.removeItem k st) k = None.
Proof.
  unfold Storage.getItem, Storage.removeItem.
  induction st as [|[k' v'] st IH]; simpl; [reflexivity|].
  destruct (String.eqb k' k) eqn:E; simpl; [exact IH|]. rewrite E. exact IH.
Qed.

(** X8.  Write then read.  When the write of [cacheData] fits the quota
    (a quota of at most 50 MB, so that the size check evicts nothing), the
    call arms no retry, and [getFromCache] for the same ZIP and array returns
    the payload for the next 30 days, leaving the store as it is; once the
    30 days are over it returns [null] and deletes the entry. *)
Theorem cacheData_then_getFromCache
  (cachePrefix : string) (quota now later : Z) (zip : string) (r : nat)
  (data : fetched) (w : world) (st' : Storage.t) :
  quota <= 50 * 1024 * 1024 ->
  Storage.setItem quota (fst (getCacheKey cachePrefix zip r (arrays w)))
    (Storage.Entry (fetched_len data)
       (Storage.mkEntry (fetched_payload data) now (Some (now + cacheDuration))))
    (localStorage w) = Some st' ->
  let written := cacheData cachePrefix quota now zip r data w in
  let w1 := fst written in
  localStorage w1 = st'
  /\ retry_scheduled (snd written) = false
  /\ (later <= now + cacheDuration ->
      getFromCache cachePrefix later zip r w1 = (Some (fetched_payload data), w1))
  /\ (now + cacheDuration < later ->
      fst (getFromCache cachePrefix later zip r w1) = None
      /\ Storage.getItem (localStorage (snd (getFromCache cachePrefix later zip r w1)))
           (fst (getCacheKey cachePrefix zip r (arrays w))) = None).
Proof.
  intros Hquota Hset written w1.
  assert (Hput : st' = Storage.put (fst (getCacheKey cachePrefix zip r (arrays w)))
                   (Storage.Entry (fetched_len data)
                      (Storage.mkEntry (fetched_payload data) now (Some (now + cacheDuration))))
                   (localStorage w)
                 /\ Storage.total_size st' <= quota).
  { unfold Storage.setItem in Hset.
    destruct (Z.leb_spec (Storage.total_size (Storage.put
                (fst (getCacheKey cachePrefix zip r (arrays w)))
                (Storage.Entry (fetched_len data)
                   (Storage.mkEntry (fetched_payload data) now (Some (now + cacheDuration))))
                (localStorage w))) quota) as [Hle|Hgt]; [|discriminate].
    injection Hset as <-. auto. }
  destruct Hput as [Hput Hsize].
  assert (Hmanage : manageCacheSize cachePrefix st' = st').
  { unfold manageCacheSize. cbv zeta.
    destruct (Z.ltb_spec (50 * 1024 * 1024) (Storage.total_size st')); [lia | reflexivity]. }
  assert (Hw : written = (mkWorld (ACSFacts.sorted_in_place (arrays w) r) st'
                            (cacheHits w) (cacheMisses w),
                          mkCacheDataResult st' ReturnUndefined false)).
  { subst written. unfold cacheData. 
    change (getCacheKey cachePrefix zip r (arrays w))
      with (fst (getCacheKey cachePrefix zip r (arrays w)),
            ACSFacts.sorted_in_place (arrays w) r).
    cbv iota beta. unfold cacheData_at, cacheData_try. rewrite Hset, Hmanage. reflexivity. }
  subst w1. rewrite Hw. cbn [fst snd localStorage retry_scheduled].
  split; [reflexivity|]. split; [reflexivity|].
  assert (Hkey : fst (getCacheKey cachePrefix zip r (ACSFacts.sorted_in_place (arrays w) r))
                 = fst (getCacheKey cachePrefix zip r (arrays w))).
  { unfold getCacheKey. cbn [fst]. rewrite read_sorted_in_place.
    rewrite JSFacts.sort_strings_idempotent. reflexivity. }
  assert (Hget : forall X,
    getFromCache cachePrefix X zip r
      (mkWorld (ACSFacts.sorted_in_place (arrays w) r) st' (cacheHits w) (cacheMisses w))
    = if now + cacheDuration <? X
      then (None, mkWorld (ACSFacts.sorted_in_place (arrays w) r)
                    (Storage.removeItem (fst (getCacheKey cachePrefix zip r (arrays w))) st')
                    (cacheHits w) (cacheMisses w))
      else (Some (fetched_payload data),
            mkWorld (ACSFacts.sorted_in_place (arrays w) r) st'
              (cacheHits w) (cacheMisses w))).
  { intros X. unfold getFromCache. cbn [arrays localStorage cacheHits cacheMisses].
    change (getCacheKey cachePrefix zip r (ACSFacts.sorted_in_place (arrays w) r))
      with (fst (getCacheKey cachePrefix zip r (ACSFacts.sorted_in_place (arrays w) r)),
            ACSFacts.sorted_in_place (ACSFacts.sorted_in_place (arrays w) r) r).
    cbv iota beta. rewrite Hkey, ACSFacts.sorted_in_place_idem.
    cbn [localStorage cacheHits cacheMisses].
    rewrite Hput at 1. rewrite getItem_put_same. cbn [Storage.expiry Storage.payload].
    destruct (now + cacheDuration <? X); reflexivity. }
  split.
  - intros Hlater. rewrite Hget.
    destruct (Z.ltb_spec (now + cacheDuration) later); [lia | reflexivity].
  - intros Hlater. rewrite Hget.
    destruct (Z.ltb_spec (now + cacheDuration) later); [|lia].
    cbn [fst snd localStorage]. split; [reflexivity | apply getItem_removeItem].
Qed.

Definition census_10001 : fetched := mkFetched "{B01003_001E: 21102}" 180.

Lemma cacheData_then_getFromCache_witness :
  getFromCache ACSFacts.prefix_v1 (ACSFacts.jan_2024 + 86400000) "10001" 0
    (fst (cacheData ACSFacts.prefix_v1 5000000 ACSFacts.jan_2024 "10001" 0 census_10001
            ACSFacts.initial_world))
  = (Some "{B01003_001E: 21102}"%string,
     fst (cacheData ACSFacts.prefix_v1 5000000 ACSFacts.jan_2024 "10001" 0 census_10001
            ACSFacts.initial_world)).
Proof.
  assert (Hset :
    Storage.setItem 5000000
      (fst (getCacheKey ACSFacts.prefix_v1 "10001" 0 (arrays ACSFacts.initial_world)))
      (Storage.Entry (fetched_len census_10001)
         (Storage.mkEntry (fetched_payload census_10001) ACSFacts.jan_2024
            (Some (ACSFacts.jan_2024 + cacheDuration))))
      (localStorage ACSFacts.initial_world)
    = Some (Storage.put
              (fst (getCacheKey ACSFacts.prefix_v1 "10001" 0 (arrays ACSFacts.initial_world)))
              (Storage.Entry (fetched_len census_10001)
                 (Storage.mkEntry (fetched_payload census_10001) ACSFacts.jan_2024
                    (Some (ACSFacts.jan_2024 + cacheDuration))))
              (localStorage ACSFacts.initial_world)))
    by (vm_compute; reflexivity).
  assert (Hquota : 5000000 <= 50 * 1024 * 1024) by lia.
  destruct (@cacheData_then_getFromCache ACSFacts.prefix_v1 5000000 ACSFacts.jan_2024
              (ACSFacts.jan_2024 + 86400000) "10001" 0 census_10001 ACSFacts.initial_world
              _ Hquota Hset) as (_ & _ & Hhit & _).
  apply Hhit. unfold cacheDuration. lia.
Defined.

(** *** Batches *)

Lemma chunkArray_from_spec (size : nat) (Hsize : (1 <= size)%nat) (fuel : nat) :
  forall array, (length array <= fuel)%nat ->
  concat (chunkArray_from fuel array size) = array
  /\ Forall (fun chunk => (1 <= length chunk <= size)%nat) (chunkArray_from fuel array size).
Proof.
  induction fuel as [|fuel IH]; intros array Hlen.
  - destruct array; [split; [reflexivity | constructor] | simpl in Hlen; lia].
  - destruct array as [|x array]; [split; [reflexivity | constructor]|].
    cbn [chunkArray_from].
    destruct (IH (skipn size (x :: array))) as [Hcat Hall].
    { rewrite length_skipn. cbn [length] in *. lia. }
    split.
    + rewrite concat_cons, Hcat. apply firstn_skipn.
    + constructor; [|exact Hall]. rewrite length_firstn. cbn [length]. lia.
Qed.

(** X9.  With a batch size of at least one, [chunkArray] splits the list
    into consecutive non-empty batches of at most that size: nothing is lost,
    repeated or reordered. *)
Theorem chunkArray_partitions (array : list string) (size : nat) :
  (1 <= size)%nat ->
  concat (chunkArray array size) = array
  /\ Forall (fun chunk => (1 <= length chunk <= size)%nat) (chunkArray array size).
Proof.
  intros Hsize. unfold chunkArray. apply chunkArray_from_spec; [exact Hsize | lia].
Qed.

Lemma chunkArray_partitions_witness :
  concat (chunkArray ["10001"; "10002"; "10003"]%string 2) = ["10001"; "10002"; "10003"]%string.
Proof.
  apply (@chunkArray_partitions ["10001"; "10002"; "10003"]%string 2). lia.
Defined.

End CacheLaws.

(** ** More on fetching and on the rate limiter *)

Module FetchLaws.
Import JS ACS.

Lemma read_write_other (h : heap) : forall r r' a,
  r <> r' -> read (write h r a) r' = read h r'.
Proof.
  unfold read. induction h as [|x h IH]; intros r r' a Hne; [destruct r; reflexivity|].
  destruct r as [|r], r' as [|r']; simpl; try reflexivity; try congruence.
  apply IH. congruence.
Qed.

Lemma read_alloc_old (h : heap) (a : list string) (r : nat) :
  (r < length h)%nat -> read (h ++ [a]) r = read h r.
Proof. intros Hr. unfold read. apply app_nth1. exact Hr. Qed.

Lemma read_alloc_new (h : heap) (a : list string) : read (h ++ [a]) (length h) = a.
Proof. unfold read. rewrite app_nth2 by lia. rewrite Nat.sub_diag. reflexivity. Qed.

Section Fetch.
Variable cachePrefix : string.
Variable quota : Z.
Variable batchSize maxRetries : nat.
Variable entry_len : nat -> Z.

(** *** Counters *)

Lemma getFromCache_counters (now : Z) (zip : string) (r : nat) (w : world) :
  cacheHits (snd (getFromCache cachePrefix now zip r w)) = cacheHits w
  /\ cacheMisses (snd (getFromCache cachePrefix now zip r w)) = cacheMisses w.
Proof.
  unfold getFromCache. cbn [getCacheKey]. cbv zeta.
  destruct (Storage.getItem _ _) as [[n|n cached|n items]|]; cbn [localStorage]; auto.
  destruct (Storage.expiry cached) as [expiry|]; auto.
  destruct (expiry <? now); auto.
Qed.

Lemma check_cache_counters (now : Z) (r : nat) (zipCodes : list string) :
  forall results missingZips w,
  let out := check_cache cachePrefix now r zipCodes results missingZips w in
  (cacheHits (snd out) + cacheMisses (snd out)
   = cacheHits w + cacheMisses w + length zipCodes)%nat
  /\ (length (snd (fst out)) + cacheMisses w = length missingZips + cacheMisses (snd out))%nat.
Proof.
  induction zipCodes as [|zip rest IH]; intros results missingZips w; cbv zeta.
  - cbn [check_cache fst snd length]. lia.
  - cbn [check_cache].
    destruct (getFromCache_counters now zip r w) as [Hh Hm].
    destruct (getFromCache cachePrefix now zip r w) as [[cached|] w1]; cbn [snd] in Hh, Hm.
    + specialize (IH (Map_set String.eqb zip cached results) missingZips
                     (mkWorld (arrays w1) (localStorage w1) (S (cacheHits w1)) (cacheMisses w1))).
      cbv zeta in IH. cbn [cacheHits cacheMisses length] in *. lia.
    + specialize (IH results (missingZips ++ [zip])
                     (mkWorld (arrays w1) (localStorage w1) (cacheHits w1) (S (cacheMisses w1)))).
      cbv zeta in IH. rewrite length_app in IH. cbn [cacheHits cacheMisses length] in *. lia.
Qed.

Lemma store_batch_counters (now : Z) (r : nat) (entries : list (string * fetched)) :
  forall results w,
  cacheHits (snd (store_batch cachePrefix quota now r entries results w)) = cacheHits w
  /\ cacheMisses (snd (store_batch cachePrefix quota now r entries results w)) = cacheMisses w.
Proof.
  induction entries as [|[zip data] rest IH]; intros results w; [split; reflexivity|].
  cbn [store_batch]. unfold cacheData. cbn [getCacheKey]. cbv zeta.
  match goal with |- context [store_batch _ _ _ _ rest ?res ?w0] =>
    destruct (IH res w0) as [Hh Hm]
  end.
  cbn [cacheHits cacheMisses] in Hh, Hm. rewrite Hh, Hm. auto.
Qed.

Lemma store_batches_counters (now : Z) (r : nat)
  (batchResults : list (completion (list (string * fetched)) error)) :
  forall results logged w,
  cacheHits (snd (fst (store_batches cachePrefix quota entry_len now r batchResults
                         results logged w)))
  = cacheHits w
  /\ cacheMisses (snd (fst (store_batches cachePrefix quota entry_len now r batchResults
                              results logged w)))
     = cacheMisses w.
Proof.
  induction batchResults as [|c rest IH]; intros results logged w; [split; reflexivity|].
  destruct c as [entries| |e|]; cbn [store_batches].
  - destruct (store_batch_counters now r entries results w) as [Hh Hm].
    destruct (store_batch cachePrefix quota now r entries results w) as [results1 w1].
    cbn [snd] in Hh, Hm. destruct (IH results1 logged w1) as [Hh' Hm']. split; congruence.
  - split; reflexivity.
  - exact (IH results (S logged) _).
  - exact (IH results (S logged) _).
Qed.

(** *** Batches always settle with a value or an error *)

Lemma fetchBatchWithRetry_from_settles (V : Type) (op : nat -> outcome V error) :
  forall remaining attempt lastError,
  snd (Retry.fetchBatchWithRetry_from op maxRetries remaining attempt lastError)
  <> ReturnUndefined.
Proof.
  induction remaining as [|remaining IH]; intros attempt lastError.
  - cbn [Retry.fetchBatchWithRetry_from snd]. destruct lastError; discriminate.
  - cbn [Retry.fetchBatchWithRetry_from]. destruct (op attempt) as [v|e]; [discriminate|].
    destruct (attempt =? maxRetries)%nat; [discriminate|].
    specialize (IH (S attempt) (Some e)).
    destruct (Retry.fetchBatchWithRetry_from op maxRetries remaining (S attempt) (Some e))
      as [rest c].
    exact IH.
Qed.

Lemma store_batches_completes (now : Z) (r : nat)
  (batchResults : list (completion (list (string * fetched)) error)) :
  forall results logged w,
  Forall (fun c => c <> ReturnUndefined) batchResults ->
  snd (store_batches cachePrefix quota entry_len now r batchResults results logged w) = None.
Proof.
  induction batchResults as [|c rest IH]; intros results logged w Hall; [reflexivity|].
  inversion Hall as [|? ? Hc Hrest]; subst.
  destruct c as [entries| |e|]; cbn [store_batches].
  - destruct (store_batch cachePrefix quota now r entries results w) as [results1 w1].
    apply IH. exact Hrest.
  - congruence.
  - apply IH. exact Hrest.
  - apply IH. exact Hrest.
Qed.

Lemma runs_settle (V : Type) (ops : list (nat -> outcome V error)) :
  Forall (fun c => c <> ReturnUndefined)
         (map snd (map (fun op => Retry.fetchBatchWithRetry op maxRetries) ops)).
Proof.
  apply Forall_forall. intros c Hc.
  apply in_map_iff in Hc. destruct Hc as (run & <- & Hrun).
  apply in_map_iff in Hrun. destruct Hrun as (op & <- & _).
  apply fetchBatchWithRetry_from_settles.
Qed.

(** *** The error log in the store *)

Lemma getItem_put_other (k k' : string) (v : Storage.value) (st : Storage.t) :
  k' <> k -> Storage.getItem (Storage.put k v st) k' = Storage.getItem st k'.
Proof.
  intros Hne. unfold Storage.getItem. f_equal.
  induction st as [|[k0 v0] st IH]; cbn [Storage.put find fst].
  - destruct (String.eqb_spec k k'); [congruence | reflexivity].
  - destruct (String.eqb_spec k0 k) as [->|Hk0]; cbn [find fst].
    + destruct (String.eqb_spec k k'); [congruence | reflexivity].
    + destruct (String.eqb k0 k'); [reflexivity | exact IH].
Qed.

Lemma logError_store_other (len : Z) (st : Storage.t) (k : string) :
  k <> "acs_api_errors"%string ->
  Storage.getItem (logError_store quota len st) k = Storage.getItem st k.
Proof.
  intros Hne. unfold logError_store.
  match goal with |- context [match ?stored with Some _ => _ | None => st end] =>
    destruct stored as [storedErrors|]; [|reflexivity]
  end.
  cbv zeta. unfold Storage.setItem.
  match goal with |- context [if ?c then Some _ else None] => destruct c end;
    [apply getItem_put_other; exact Hne | reflexivity].
Qed.

End Fetch.

(** X10.  Validation in [fetchDataForZips].  An empty list of ZIP codes is
    refused with "No ZIP codes provided" and an empty array of variables with
    "No variables specified", in both cases before the cache is read or the
    counters are touched: all that the call leaves behind is the entry that
    its [catch] block logs in the array under ['acs_api_errors'], and no
    other key of the store changes.  A variable that is not an array is
    wrapped in a new array, so that one passes validation and no array of
    the caller is changed. *)
Theorem fetchDataForZips_validation
  (cachePrefix : string) (quota : Z) (batchSize maxRetries : nat)
  (api : list string -> list string -> nat -> outcome (list (string * fetched)) error)
  (entry_len : nat -> Z)
  (now later : Z) (zipCodes : list string) (r : nat) (v : string) (w : world) :
  let logged := logError_store quota (entry_len 0%nat) (localStorage w) in
  fetchDataForZips cachePrefix quota batchSize maxRetries api entry_len now later []
    (ArrayRef r) w
  = (mkWorld (arrays w) logged (cacheHits w) (cacheMisses w),
     Throw (mkError "Error" "No ZIP codes provided"))
  /\ (zipCodes <> [] -> read (arrays w) r = [] ->
      fetchDataForZips cachePrefix quota batchSize maxRetries api entry_len now later
        zipCodes (ArrayRef r) w
      = (mkWorld (arrays w) logged (cacheHits w) (cacheMisses w),
         Throw (mkError "Error" "No variables specified")))
  /\ (forall k, k <> "acs_api_errors"%string ->
                Storage.getItem logged k = Storage.getItem (localStorage w) k)
  /\ (zipCodes <> [] ->
      let out := fetchDataForZips cachePrefix quota batchSize maxRetries api entry_len
                   now later zipCodes (NotArray v) w in
      (exists results, snd out = Return results)
      /\ forall r', (r' < length (arrays w))%nat ->
                    read (arrays (fst out)) r' = read (arrays w) r').
Proof.
  cbv zeta. split; [reflexivity|]. split; [|split].
  - intros Hz Hempty. unfold fetchDataForZips.
    destruct zipCodes as [|zip rest]; [congruence|]. rewrite Hempty. reflexivity.
  - intros k Hk. apply logError_store_other. exact Hk.
  - intros Hz.
    change (fetchDataForZips cachePrefix quota batchSize maxRetries api entry_len now later
              zipCodes (NotArray v) w)
      with (fetchDataForZips cachePrefix quota batchSize maxRetries api entry_len now later
              zipCodes (ArrayRef (length (arrays w)))
              (mkWorld (arrays w ++ [[v]]) (localStorage w) (cacheHits w) (cacheMisses w))).
    assert (Hnew : read (arrays w ++ [[v]]) (length (arrays w)) = [v])
      by apply read_alloc_new.
    split.
    + unfold fetchDataForZips. cbn [arrays localStorage cacheHits cacheMisses].
      destruct zipCodes as [|zip rest]; [congruence|]. rewrite Hnew.
      destruct (check_cache _ _ _ _ _ _ _) as [[results missing] w1].
      destruct missing as [|m missing]; [eexists; reflexivity|].
      rewrite <- (map_map (fun batch => api batch (read (arrays w1) (length (arrays w))))
                          (fun op => Retry.fetchBatchWithRetry op maxRetries)).
      match goal with |- context [store_batches _ _ _ _ _ ?b ?res ?n ?w0] =>
        pose proof (@store_batches_completes cachePrefix quota entry_len later
                      (length (arrays w)) b res n w0 (runs_settle maxRetries _)) as Hnone;
        destruct (store_batches cachePrefix quota entry_len later (length (arrays w))
                    b res n w0) as [[[results2 logged2] w2] err]
      end.
      cbn [snd] in Hnone. subst err. eexists; reflexivity.
    + intros r' Hr'.
      rewrite ACSFacts.fetchDataForZips_arrays
        by (cbn [arrays]; first [exact Hz | rewrite Hnew; discriminate]).
      cbn [arrays]. unfold ACSFacts.sorted_in_place.
      rewrite read_write_other by lia. apply read_alloc_old. exact Hr'.
Qed.

Lemma fetchDataForZips_validation_witness :
  fetchDataForZips ACSFacts.prefix_v1 500 10 3 ACSFacts.provider_down ACSFacts.entries_of_200
    ACSFacts.jan_2024 (ACSFacts.jan_2024 + 6000) ["10001"%string] (ArrayRef 0)
    (mkWorld [[]] [] 0 0)
  = (mkWorld [[]] [("acs_api_errors"%string, Storage.Items 202 [200])] 0 0,
     Throw (mkError "Error" "No variables specified")).
Proof.
  destruct (@fetchDataForZips_validation ACSFacts.prefix_v1 500 10 3 ACSFacts.provider_down
              ACSFacts.entries_of_200
              ACSFacts.jan_2024 (ACSFacts.jan_2024 + 6000) ["10001"%string] 0%nat
              "B01003_001E" (mkWorld [[]] [] 0 0)) as (_ & Hvars & _).
  apply Hvars; [discriminate | reflexivity].
Defined.

(** X11.  Once validation has passed, [fetchDataForZips] returns normally
    whatever the provider does (a failed batch is not an exception of the
    call), and it has counted every requested ZIP exactly once, as a cache
    hit or as a cache miss. *)
Theorem fetchDataForZips_counts_every_zip
  (cachePrefix : string) (quota : Z) (batchSize maxRetries : nat)
  (api : list string -> list string -> nat -> outcome (list (string * fetched)) error)
  (entry_len : nat -> Z)
  (now later : Z) (zipCodes : list string) (r : nat) (w : world) :
  zipCodes <> [] -> read (arrays w) r <> [] ->
  let out := fetchDataForZips cachePrefix quota batchSize maxRetries api entry_len now later
               zipCodes (ArrayRef r) w in
  (exists results, snd out = Return results)
  /\ (cacheHits (fst out) + cacheMisses (fst out)
      = cacheHits w + cacheMisses w + length zipCodes)%nat.
Proof.
  intros Hz Hv. cbv zeta. unfold fetchDataForZips.
  destruct zipCodes as [|zip rest]; [congruence|].
  destruct (read (arrays w) r) as [|x xs] eqn:Hread; [congruence|].
  pose proof (check_cache_counters cachePrefix now r (zip :: rest) [] []
                (mkWorld (arrays w) (localStorage w) (cacheHits w) (cacheMisses w))) as Hc.
  cbv zeta in Hc. destruct Hc as [Hsum _].
  destruct (check_cache cachePrefix now r (zip :: rest) [] [] _) as [[results missing] w1].
  cbn [snd cacheHits cacheMisses] in Hsum.
  destruct missing as [|m missing]; [split; [eexists; reflexivity | exact Hsum]|].
  rewrite <- (map_map (fun batch => api batch (read (arrays w1) r))
                      (fun op => Retry.fetchBatchWithRetry op maxRetries)).
  match goal with |- context [store_batches _ _ _ _ _ ?b ?res ?n ?w0] =>
    destruct (store_batches_counters cachePrefix quota entry_len later r b res n w0)
      as [Hh Hm];
    pose proof (@store_batches_completes cachePrefix quota entry_len later r b res n w0
                  (runs_settle maxRetries _)) as Hnone;
    destruct (store_batches cachePrefix quota entry_len later r b res n w0)
      as [[[results2 logged2] w2] err]
  end.
  cbn [fst snd cacheHits cacheMisses] in *. subst err.
  split; [eexists; reflexivity|]. cbn [fst]. rewrite Hh, Hm. exact Hsum.
Qed.

Lemma fetchDataForZips_counts_every_zip_witness :
  (cacheHits (fst (fetchDataForZips ACSFacts.prefix_v1 500 10 3 ACSFacts.provider_down
                     ACSFacts.entries_of_200
                     ACSFacts.jan_2024 (ACSFacts.jan_2024 + 6000)
                     ["10001"; "10002"]%string (ArrayRef 0) ACSFacts.initial_world))
   + cacheMisses (fst (fetchDataForZips ACSFacts.prefix_v1 500 10 3 ACSFacts.provider_down
                     ACSFacts.entries_of_200
                     ACSFacts.jan_2024 (ACSFacts.jan_2024 + 6000)
                     ["10001"; "10002"]%string (ArrayRef 0) ACSFacts.initial_world))
   = 0 + 0 + 2)%nat.
Proof.
  destruct (@fetchDataForZips_counts_every_zip ACSFacts.prefix_v1 500 10 3
              ACSFacts.provider_down ACSFacts.entries_of_200
              ACSFacts.jan_2024 (ACSFacts.jan_2024 + 6000)
              ["10001"; "10002"]%string 0%nat ACSFacts.initial_world
              ltac:(discriminate) ltac:(discriminate)) as [_ H].
  exact H.
Defined.

(** *** Cache first *)

Section CacheFirst.
Variable cachePrefix : string.
Variable quota : Z.
Variable batchSize maxRetries : nat.
Variable now : Z.
Variable r : nat.
Variable h : heap.
Variable ls : Storage.t.

(** The payload held for a ZIP, if the store has an entry for it that
    parses and is not past its expiry. *)
Definition cached_payload (zip : string) : option string :=
  match Storage.getItem ls (fst (getCacheKey cachePrefix zip r h)) with
  | Some (Storage.Entry _ cached) =>
      match Storage.expiry cached with
      | Some expiry => if expiry <? now then None else Some (Storage.payload cached)
      | None => Some (Storage.payload cached)
      end
  | _ => None
  end.

Definition hits_of (zipCodes : list string) (results : list (string * string))
  : list (string * string) :=
  fold_left (fun acc zip => match cached_payload zip with
                            | Some p => Map_set String.eqb zip p acc
                            | None => acc
                            end) zipCodes results.

Lemma getFromCache_hit (zip p : string) (h' : heap) (hits misses : nat) :
  h' = h \/ h' = ACSFacts.sorted_in_place h r ->
  cached_payload zip = Some p ->
  getFromCache cachePrefix now zip r (mkWorld h' ls hits misses)
  = (Some p, mkWorld (ACSFacts.sorted_in_place h r) ls hits misses).
Proof.
  intros Hh' Hp. unfold getFromCache. cbn [arrays localStorage cacheHits cacheMisses].
  change (getCacheKey cachePrefix zip r h')
    with (fst (getCacheKey cachePrefix zip r h'), ACSFacts.sorted_in_place h' r).
  cbv iota beta. cbn [localStorage cacheHits cacheMisses].
  assert (Hkey : fst (getCacheKey cachePrefix zip r h') = fst (getCacheKey cachePrefix zip r h)).
  { destruct Hh' as [->| ->]; [reflexivity|]. unfold getCacheKey. cbn [fst].
    rewrite CacheLaws.read_sorted_in_place, JSFacts.sort_strings_idempotent. reflexivity. }
  assert (Hsorted : ACSFacts.sorted_in_place h' r = ACSFacts.sorted_in_place h r)
    by (destruct Hh' as [->| ->]; [reflexivity | apply ACSFacts.sorted_in_place_idem]).
  rewrite Hkey, Hsorted. unfold cached_payload in Hp.
  destruct (Storage.getItem ls (fst (getCacheKey cachePrefix zip r h)))
    as [[n|n cached|n items]|]; try discriminate.
  destruct (Storage.expiry cached) as [expiry|].
  - destruct (expiry <? now); [discriminate|]. injection Hp as <-. reflexivity.
  - injection Hp as <-. reflexivity.
Qed.

Lemma check_cache_all_hit (zipCodes : list string) :
  forall results missingZips h' hits misses,
  h' = h \/ h' = ACSFacts.sorted_in_place h r ->
  (forall zip, In zip zipCodes -> cached_payload zip <> None) ->
  check_cache cachePrefix now r zipCodes results missingZips (mkWorld h' ls hits misses)
  = (hits_of zipCodes results, missingZips,
     mkWorld (match zipCodes with [] => h' | _ => ACSFacts.sorted_in_place h r end)
             ls (length zipCodes + hits) misses).
Proof.
  induction zipCodes as [|zip rest IH]; intros results missingZips h' hits misses Hh' Hall;
    [reflexivity|].
  cbn [check_cache].
  destruct (cached_payload zip) as [p|] eqn:Hp;
    [|exfalso; apply (Hall zip (or_introl eq_refl)); exact Hp].
  rewrite (@getFromCache_hit zip p h' hits misses Hh' Hp).
  cbn [arrays localStorage cacheHits cacheMisses].
  rewrite IH; [|right; reflexivity | intros z Hz; apply Hall; right; exact Hz].
  unfold hits_of. cbn [fold_left length]. rewrite Hp.
  replace (length rest + S hits)%nat with (S (length rest + hits)) by lia.
  destruct rest; reflexivity.
Qed.

Lemma hits_of_lookup (zipCodes : list string) : forall results zip,
  Map_get String.eqb zip (hits_of zipCodes results)
  = if existsb (String.eqb zip) zipCodes
    then match cached_payload zip with
         | Some p => Some p
         | None => Map_get String.eqb zip results
         end
    else Map_get String.eqb zip results.
Proof.
  unfold hits_of.
  induction zipCodes as [|z rest IH]; intros results zip; [reflexivity|].
  cbn [fold_left existsb]. rewrite IH.
  destruct (String.eqb_spec zip z) as [->|Hne]; cbn [orb].
  - destruct (cached_payload z) as [p|] eqn:Hp.
    + rewrite (JSFacts.Map_get_set_same String.eqb_eq). destruct (existsb _ rest); reflexivity.
    + destruct (existsb _ rest); reflexivity.
  - destruct (cached_payload z) as [p|]; [|reflexivity].
    rewrite (JSFacts.Map_get_set_other String.eqb_eq) by exact Hne. reflexivity.
Qed.

End CacheFirst.

(** X12.  Cache first.  When the store holds, for every requested ZIP, an
    entry that parses and is not past its expiry, [fetchDataForZips] answers
    from the cache alone: the result maps every requested ZIP to the stored
    payload, the store is left as it is, every ZIP counts as a hit, and the
    provider plays no part (the outcome is the same for every provider) and
    nothing is logged. *)
Theorem fetchDataForZips_cache_first
  (cachePrefix : string) (quota : Z) (batchSize maxRetries : nat) (now later : Z)
  (zipCodes : list string) (r : nat) (w : world) :
  zipCodes <> [] -> read (arrays w) r <> [] ->
  (forall zip, In zip zipCodes ->
     cached_payload cachePrefix now r (arrays w) (localStorage w) zip <> None) ->
  exists results,
    (forall api entry_len,
       fetchDataForZips cachePrefix quota batchSize maxRetries api entry_len now later
         zipCodes (ArrayRef r) w
       = (mkWorld (ACSFacts.sorted_in_place (arrays w) r) (localStorage w)
                  (length zipCodes + cacheHits w) (cacheMisses w),
          Return results))
    /\ (forall zip, In zip zipCodes ->
          Map_get String.eqb zip results
          = cached_payload cachePrefix now r (arrays w) (localStorage w) zip).
Proof.
  intros Hz Hv Hall.
  exists (hits_of cachePrefix now r (arrays w) (localStorage w) zipCodes []). split.
  - intros api entry_len. unfold fetchDataForZips.
    destruct zipCodes as [|zip rest]; [congruence|].
    destruct (read (arrays w) r) as [|x xs] eqn:Hread; [congruence|].
    rewrite (@check_cache_all_hit cachePrefix now r (arrays w) (localStorage w)
               (zip :: rest) [] [] (arrays w) (cacheHits w) (cacheMisses w)
               (or_introl eq_refl) Hall).
    reflexivity.
  - intros zip Hin. rewrite hits_of_lookup.
    replace (existsb (String.eqb zip) zipCodes) with true.
    + destruct (cached_payload cachePrefix now r (arrays w) (localStorage w) zip) eqn:E;
        [reflexivity|]. exfalso. apply (Hall zip Hin). exact E.
    + symmetry. apply existsb_exists. exists zip. split; [exact Hin | apply String.eqb_refl].
Qed.

(** A world in which the entry of ZIP 10001 has just been written. *)
Definition warm_world : world :=
  fst (cacheData ACSFacts.prefix_v1 5000000 ACSFacts.jan_2024 "10001" 0
         CacheLaws.census_10001 ACSFacts.initial_world).

Lemma fetchDataForZips_cache_first_witness :
  exists results,
    (forall api entry_len,
       fetchDataForZips ACSFacts.prefix_v1 5000000 10 3 api entry_len
         (ACSFacts.jan_2024 + 1000) (ACSFacts.jan_2024 + 2000) ["10001"%string]
         (ArrayRef 0) warm_world
       = (mkWorld (ACSFacts.sorted_in_place (arrays warm_world) 0) (localStorage warm_world)
                  (length ["10001"%string] + cacheHits warm_world) (cacheMisses warm_world),
          Return results))
    /\ (forall zip, In zip ["10001"%string] ->
          Map_get String.eqb zip results
          = cached_payload ACSFacts.prefix_v1 (ACSFacts.jan_2024 + 1000) 0
              (arrays warm_world) (localStorage warm_world) zip).
Proof.
  apply (@fetchDataForZips_cache_first ACSFacts.prefix_v1 5000000 10 3
           (ACSFacts.jan_2024 + 1000) (ACSFacts.jan_2024 + 2000) ["10001"%string] 0%nat
           warm_world).
  - discriminate.
  - vm_compute. discriminate.
  - intros zip [<-|[]]. vm_compute. discriminate.
Defined.

(** *** Failed batches *)

Section FailedBatches.
Variable cachePrefix : string.
Variable quota : Z.
Variable entry_len : nat -> Z.

Lemma log_entries_app (a b : nat) : forall n st,
  log_entries quota entry_len (a + b) n st
  = log_entries quota entry_len b (n + a) (log_entries quota entry_len a n st).
Proof.
  induction a as [|a IH]; intros n st; cbn [log_entries Nat.add].
  - rewrite Nat.add_0_r. reflexivity.
  - rewrite IH. replace (S n + a)%nat with (n + S a)%nat by lia. reflexivity.
Qed.

Lemma gave_up_all_fail (V : Type) (op : nat -> outcome V error) (maxRetries : nat) :
  (forall j, exists e, op j = Rejected e) ->
  forall remaining attempt lastError,
  (attempt + remaining = S maxRetries)%nat -> (1 <= remaining)%nat ->
  gave_up (fst (Retry.fetchBatchWithRetry_from op maxRetries remaining attempt lastError))
  = true
  /\ exists e,
       snd (Retry.fetchBatchWithRetry_from op maxRetries remaining attempt lastError)
       = Throw e.
Proof.
  intros Hfail. induction remaining as [|remaining IH]; intros attempt lastError Hsum Hpos;
    [lia|].
  cbn [Retry.fetchBatchWithRetry_from]. destruct (Hfail attempt) as [e He]. rewrite He.
  destruct (Nat.eqb_spec attempt maxRetries) as [Heq|Hne].
  - cbn [fst snd]. split; [|eexists; reflexivity].
    unfold gave_up. rewrite existsb_app. apply orb_true_iff. right. reflexivity.
  - destruct (IH (S attempt) (Some e)) as [Hg [e' Hc]]; try lia.
    destruct (Retry.fetchBatchWithRetry_from op maxRetries remaining (S attempt) (Some e))
      as [rest c].
    cbn [fst snd] in *. split; [|eexists; exact Hc].
    unfold gave_up in *. rewrite existsb_app, Hg. apply orb_true_r.
Qed.

Lemma store_batches_all_rejected (now : Z) (r : nat)
  (batchResults : list (completion (list (string * fetched)) error)) :
  forall results logged w,
  Forall (fun c => exists e, c = Throw e) batchResults ->
  store_batches cachePrefix quota entry_len now r batchResults results logged w
  = (results, (logged + length batchResults)%nat,
     mkWorld (arrays w)
             (log_entries quota entry_len (length batchResults) logged (localStorage w))
             (cacheHits w) (cacheMisses w),
     None).
Proof.
  induction batchResults as [|c rest IH]; intros results logged w Hall.
  - cbn [store_batches length log_entries]. rewrite Nat.add_0_r. destruct w; reflexivity.
  - inversion Hall as [|? ? [e ->] Hrest]; subst.
    cbn [store_batches]. rewrite IH by exact Hrest.
    cbn [arrays localStorage cacheHits cacheMisses length log_entries].
    replace (S logged + length rest)%nat with (logged + S (length rest))%nat by lia.
    reflexivity.
Qed.

End FailedBatches.

(** X25.  A batch that fails is logged twice.  When the provider rejects
    every attempt (and at least one attempt is made), [fetchDataForZips]
    still returns the cached results normally, and apart from what the cache
    check did to the store it has only called [logError], twice for every
    batch of missing ZIP codes: once when the batch gives up and once when
    its rejection is processed. *)
Theorem failed_batches_are_logged_twice
  (cachePrefix : string) (quota : Z) (batchSize maxRetries : nat)
  (api : list string -> list string -> nat -> outcome (list (string * fetched)) error)
  (entry_len : nat -> Z)
  (now later : Z) (zipCodes : list string) (r : nat) (w : world) :
  zipCodes <> [] -> read (arrays w) r <> [] -> (1 <= maxRetries)%nat ->
  (forall batch variables attempt, exists e, api batch variables attempt = Rejected e) ->
  let checked := check_cache cachePrefix now r zipCodes [] []
                   (mkWorld (arrays w) (localStorage w) (cacheHits w) (cacheMisses w)) in
  let batches := chunkArray (snd (fst checked)) batchSize in
  let out := fetchDataForZips cachePrefix quota batchSize maxRetries api entry_len
               now later zipCodes (ArrayRef r) w in
  snd out = Return (fst (fst checked))
  /\ localStorage (fst out)
     = log_entries quota entry_len (2 * length batches) 0 (localStorage (snd checked)).
Proof.
  intros Hz Hv Hretries Hdown. cbv zeta. unfold fetchDataForZips.
  destruct zipCodes as [|zip rest]; [congruence|].
  destruct (read (arrays w) r) as [|x xs] eqn:Hread; [congruence|].
  destruct (check_cache cachePrefix now r (zip :: rest) [] [] _) as [[results missing] w1].
  cbn [fst snd].
  destruct missing as [|m missing]; [split; reflexivity|].
  remember (chunkArray (m :: missing) batchSize) as batches eqn:Eb. clear Eb.
  remember (map (fun batch =>
                   Retry.fetchBatchWithRetry (api batch (read (arrays w1) r)) maxRetries)
                batches) as runs eqn:Eruns.
  assert (Hruns : Forall (fun run => gave_up (fst run) = true /\ exists e, snd run = Throw e)
                         runs).
  { rewrite Eruns. apply Forall_forall. intros run Hrun.
    apply in_map_iff in Hrun. destruct Hrun as (batch & <- & _).
    apply gave_up_all_fail; [intros j; apply Hdown | lia | lia]. }
  assert (Hlen : length runs = length batches) by (rewrite Eruns; apply length_map).
  assert (Hup : length (filter (fun run => gave_up (fst run)) runs) = length runs).
  { clear Eruns Hlen. induction Hruns as [|run runs [Hg _] _ IH]; [reflexivity|].
    cbn [filter]. rewrite Hg. cbn [length]. rewrite IH. reflexivity. }
  assert (Hthrown : Forall (fun c => exists e, c = Throw e) (map snd runs)).
  { clear Eruns Hlen Hup. induction Hruns as [|run runs [_ He] _ IH]; constructor; assumption. }
  rewrite Hup, (store_batches_all_rejected cachePrefix quota entry_len later r _ _ _ Hthrown).
  cbn [fst snd localStorage]. rewrite length_map, Hlen. split; [reflexivity|].
  replace (2 * length batches)%nat with (length batches + length batches)%nat by lia.
  rewrite log_entries_app. reflexivity.
Qed.

Lemma failed_batches_are_logged_twice_witness :
  localStorage (fst (fetchDataForZips ACSFacts.prefix_v1 500 10 3 ACSFacts.provider_down
                       ACSFacts.entries_of_200
                       ACSFacts.jan_2024 (ACSFacts.jan_2024 + 6000)
                       ["10001"%string] (ArrayRef 0) ACSFacts.initial_world))
  = [("acs_api_errors"%string, Storage.Items 403 [200; 200])].
Proof.
  destruct (@failed_batches_are_logged_twice ACSFacts.prefix_v1 500 10 3
              ACSFacts.provider_down ACSFacts.entries_of_200
              ACSFacts.jan_2024 (ACSFacts.jan_2024 + 6000)
              ["10001"%string] 0%nat ACSFacts.initial_world
              ltac:(discriminate) ltac:(discriminate) ltac:(lia)
              ltac:(intros; eexists; reflexivity)) as [_ H].
  rewrite H. vm_compute. reflexivity.
Defined.

(** *** Rate limiter *)

(** X13.  [enforceRateLimit] on a window of at most the ceiling of
    timestamps, none of them in the future: it returns after at most one
    wait, not before [now] and at most 60.1 seconds later, with the window
    pruned to the last 60 seconds and holding fewer timestamps than the
    ceiling. *)
Theorem enforceRateLimit_returns
  (requestsPerMinute fuel : nat) (now : Z) (window : list Z) :
  (1 <= requestsPerMinute)%nat -> (1 <= fuel)%nat ->
  (length window <= requestsPerMinute)%nat ->
  Forall (fun ts => ts <= now) window ->
  exists a,
    enforceRateLimit requestsPerMinute fuel now window
    = Some (a, ACSFacts.keep (a - 60000) window)
    /\ now <= a <= now + 60100
    /\ (length (ACSFacts.keep (a - 60000) window) < requestsPerMinute)%nat
    /\ (a <> now -> (length (ACSFacts.keep (now - 60000) window)
                     = requestsPerMinute)%nat).
Proof.
  intros Hrpm Hfuel Hlen Hpast. destruct fuel as [|fuel]; [lia|].
  cbn [enforceRateLimit]. fold (ACSFacts.keep (now - 60000) window).
  pose proof (ACSFacts.keep_length (now - 60000) window) as Hkeep.
  destruct (Nat.leb_spec requestsPerMinute
              (length (ACSFacts.keep (now - 60000) window))) as [Hfull|Hroom].
  - destruct (ACSFacts.keep (now - 60000) window) as [|oldest rest] eqn:Ekeep;
      [simpl in Hfull; lia|].
    assert (Hin : In oldest (ACSFacts.keep (now - 60000) window))
      by (rewrite Ekeep; left; reflexivity).
    unfold ACSFacts.keep in Hin. apply filter_In in Hin. destruct Hin as [Hin Hold].
    apply Z.ltb_lt in Hold.
    rewrite Forall_forall in Hpast. specialize (Hpast oldest Hin).
    cbn [hd].
    replace (now + Z.max 0 (60000 - (now - oldest) + 100)) with (oldest + 60100) by lia.
    assert (Hnext : ACSFacts.keep (oldest + 60100 - 60000) (oldest :: rest)
                    = ACSFacts.keep (oldest + 60100 - 60000) window).
    { rewrite <- Ekeep. eapply ACSFacts.keep_keep; first [exact Hrpm | lia]. }
    assert (Hshort : (length (ACSFacts.keep (oldest + 60100 - 60000) (oldest :: rest))
                      < requestsPerMinute)%nat).
    { unfold ACSFacts.keep at 1. cbn [filter].
      replace (oldest + 60100 - 60000 <? oldest) with false
        by (symmetry; apply Z.ltb_ge; lia).
      pose proof (ACSFacts.keep_length (oldest + 60100 - 60000) rest) as Hrest.
      unfold ACSFacts.keep in Hrest. cbn [length] in Hkeep. lia. }
    exists (oldest + 60100).
    assert (Hgo : enforceRateLimit requestsPerMinute fuel (oldest + 60100) (oldest :: rest)
                  = Some (oldest + 60100,
                          ACSFacts.keep (oldest + 60100 - 60000) (oldest :: rest))).
    { destruct fuel; cbn [enforceRateLimit];
        fold (ACSFacts.keep (oldest + 60100 - 60000) (oldest :: rest));
        destruct (Nat.leb_spec requestsPerMinute
                    (length (ACSFacts.keep (oldest + 60100 - 60000) (oldest :: rest))));
        try lia; reflexivity. }
    rewrite Hgo, Hnext. rewrite Hnext in Hshort.
    split; [reflexivity|]. split; [lia|]. split; [exact Hshort|].
    intros _. cbn [length] in Hfull, Hkeep |- *. lia.
  - exists now. split; [reflexivity|]. split; [lia|]. split; [exact Hroom|].
    intros H. congruence.
Qed.

(** Two requests in the last minute, under a ceiling of two. *)
Definition busy_window : list Z := [50000; 99000].

Lemma enforceRateLimit_returns_witness :
  exists a,
    enforceRateLimit 2 1 100000 busy_window
    = Some (a, ACSFacts.keep (a - 60000) busy_window)
    /\ 100000 <= a <= 100000 + 60100
    /\ (length (ACSFacts.keep (a - 60000) busy_window) < 2)%nat
    /\ (a <> 100000 -> (length (ACSFacts.keep (100000 - 60000) busy_window) = 2)%nat).
Proof.
  apply (@enforceRateLimit_returns 2 1 100000 busy_window); try lia.
  - simpl. lia.
  - repeat constructor; lia.
Defined.

(** X14.  On a page whose time origin is at least a minute after
    1970-01-01, so that [performance.now()] readings lie more than a minute
    before [Date.now()], requests issued one after the other are all sent at
    the time they are issued: the limiter never delays one, whatever the
    ceiling. *)
Theorem requests_sent_when_issued
  (requestsPerMinute fuel : nat) (timeOrigin t : Z) (plan : list (Z * Z)) :
  (1 <= requestsPerMinute)%nat -> 60000 <= timeOrigin ->
  Forall (fun pd => 0 <= snd pd) plan ->
  requests requestsPerMinute timeOrigin fuel t [] plan = Some (ACSFacts.issue_times t plan).
Proof.
  intros Hrpm Horigin Hplan. apply ACSFacts.requests_never_delayed; assumption.
Qed.

Lemma requests_sent_when_issued_witness :
  requests 1 ACSFacts.nov_2023 0 0 [] [(5000, 200); (800, 200); (10, 50)]
  = Some [5000; 6000; 6210].
Proof.
  apply (@requests_sent_when_issued 1 0 ACSFacts.nov_2023 0 [(5000, 200); (800, 200); (10, 50)]).
  - lia.
  - unfold ACSFacts.nov_2023. lia.
  - repeat constructor; simpl; lia.
Defined.

End FetchLaws.

(** ** More on the ZIP index *)

Module IndexLaws.
Import JS ZipIndex.

(** *** Keys and lookups *)

Lemma padStart_idempotent (n : nat) (c : ascii) (s : string) :
  padStart n c (padStart n c s) = padStart n c s.
Proof.
  apply JSFacts.padStart_full. rewrite CacheLaws.length_padStart. lia.
Qed.

(** X15.  [get] pads its argument with zeros on the left to five
    characters before the lookup: a ZIP and its padded form find the same
    record, a record that is found is stored under the padded key, and an
    index whose keys are all shorter than five characters (records loaded
    with unpadded ZIPs) answers every lookup with [null]. *)
Theorem get_normalises (idx : index) (z : string) :
  get idx (padStart 5 "0" z) = get idx z
  /\ (forall rec, get idx z = Some rec -> In (padStart 5 "0" z, rec) (zips idx))
  /\ ((forall k rec, In (k, rec) (zips idx) -> (String.length k < 5)%nat) ->
      get idx z = None).
Proof.
  unfold get. rewrite padStart_idempotent. split; [reflexivity|].
  split.
  - intros rec H. apply (JSFacts.Map_get_In String.eqb_eq) in H. exact H.
  - intros Hshort.
    destruct (Map_get String.eqb (padStart 5 "0" z) (zips idx)) as [rec|] eqn:E;
      [|reflexivity].
    apply (JSFacts.Map_get_In String.eqb_eq) in E. apply Hshort in E.
    rewrite CacheLaws.length_padStart in E. lia.
Qed.

Definition holtsville : ZipRecord :=
  mkZip "501" None None "Holtsville" "NY" "36103" "Suffolk" 0.

Lemma get_normalises_witness :
  get (loadFromJSON [holtsville] empty) "501" = None
  /\ get (loadFromJSON [holtsville] empty) "00501" = None.
Proof.
  assert (Hshort : forall k rec, In (k, rec) (zips (loadFromJSON [holtsville] empty)) ->
                                 (String.length k < 5)%nat).
  { intros k rec [H|[]]. injection H as <- _. simpl. lia. }
  split.
  - exact (proj2 (proj2 (@get_normalises (loadFromJSON [holtsville] empty) "501")) Hshort).
  - exact (proj2 (proj2 (@get_normalises (loadFromJSON [holtsville] empty) "00501")) Hshort).
Defined.

Lemma find_last (A : Type) (f : A -> bool) (l : list A) (x : A) :
  find f (rev (x :: l)) = match find f (rev l) with
                          | Some y => Some y
                          | None => if f x then Some x else None
                          end.
Proof.
  cbn [rev]. generalize (rev l) as m. intros m.
  induction m as [|y m IH]; simpl; [reflexivity|]. destruct (f y); [reflexivity | exact IH].
Qed.

Lemma zips_index_all (data : list ZipRecord) : forall idx k,
  Map_get String.eqb k (zips (ZipFacts.index_all data idx))
  = match find (fun rec => String.eqb (zip rec) k) (rev data) with
    | Some rec => Some rec
    | None => Map_get String.eqb k (zips idx)
    end.
Proof.
  induction data as [|x data IH]; intros idx k; [reflexivity|].
  change (ZipFacts.index_all (x :: data) idx)
    with (ZipFacts.index_all data (indexRecord x idx)).
  rewrite IH, find_last. destruct (find _ (rev data)); [reflexivity|].
  cbn [indexRecord zips]. destruct (String.eqb_spec (zip x) k) as [<-|Hne].
  - apply (JSFacts.Map_get_set_same String.eqb_eq).
  - apply (JSFacts.Map_get_set_other String.eqb_eq). congruence.
Qed.

(** X16.  Last write wins.  After a load, [get] returns the last record of
    the loaded sequence whose ZIP is the (padded) key, and what the index
    held before for a key that the load does not mention. *)
Theorem loadFromJSON_last_write_wins (data : list ZipRecord) (idx : index) (z : string) :
  get (loadFromJSON data idx) z
  = match find (fun rec => String.eqb (zip rec) (padStart 5 "0" z)) (rev data) with
    | Some rec => Some rec
    | None => get idx z
    end.
Proof. unfold get. rewrite ZipFacts.loadFromJSON_zips. apply zips_index_all. Qed.

(** *** Results and limits *)

Lemma export_until_firstn (limit : nat) (entries : list (string * ZipRecord)) :
  forall data,
  export_until limit entries data
  = data ++ firstn (Nat.max 1 (limit - length data)) (map snd entries).
Proof.
  induction entries as [|[k rec] entries IH]; intros data.
  - rewrite firstn_nil, app_nil_r. reflexivity.
  - cbn [export_until map snd].
    destruct (Nat.leb_spec limit (length (data ++ [rec]))) as [Hge|Hlt];
      rewrite length_app in *; cbn [length] in *.
    + replace (Nat.max 1 (limit - length data)) with 1%nat by lia. reflexivity.
    + rewrite IH, length_app. cbn [length].
      replace (Nat.max 1 (limit - length data))
        with (S (Nat.max 1 (limit - (length data + 1)))) by lia.
      cbn [firstn]. rewrite <- app_assoc. reflexivity.
Qed.

Definition in_bounds (bounds : Q * Q * Q * Q) (rec : ZipRecord) : bool :=
  let '(minLat, minLng, maxLat, maxLng) := bounds in
  Qle_bool minLat (number_of (lat rec)) && Qle_bool (number_of (lat rec)) maxLat &&
  Qle_bool minLng (number_of (lng rec)) && Qle_bool (number_of (lng rec)) maxLng.

Lemma box_until_firstn (limit : nat) (bounds : Q * Q * Q * Q)
  (entries : list (string * ZipRecord)) :
  forall results,
  box_until limit bounds entries results
  = results ++ firstn (Nat.max 1 (limit - length results))
                      (filter (in_bounds bounds) (map snd entries)).
Proof.
  destruct bounds as [[[minLat minLng] maxLat] maxLng].
  induction entries as [|[k rec] entries IH]; intros results.
  - rewrite firstn_nil, app_nil_r. reflexivity.
  - cbn [box_until map snd filter]. unfold in_bounds at 1.
    destruct (Qle_bool minLat (number_of (lat rec)) && Qle_bool (number_of (lat rec)) maxLat &&
              Qle_bool minLng (number_of (lng rec)) && Qle_bool (number_of (lng rec)) maxLng);
      [|apply IH].
    destruct (Nat.leb_spec limit (length (results ++ [rec]))) as [Hge|Hlt];
      rewrite length_app in *; cbn [length] in *.
    + replace (Nat.max 1 (limit - length results)) with 1%nat by lia. reflexivity.
    + rewrite IH, length_app. cbn [length].
      replace (Nat.max 1 (limit - length results))
        with (S (Nat.max 1 (limit - (length results + 1)))) by lia.
      cbn [firstn]. rewrite <- app_assoc. reflexivity.
Qed.

(** X17.  [getByState] and [getByCounty] return the records of the first
    ZIPs filed under the key, in filing order, as many as [limit] allows and
    at least one when there is one ([limit = 0] yields one); nothing for a
    key that is absent. *)
Theorem getByState_getByCounty_sizes (idx : index) (stateId countyFips : string) (limit : nat) :
  getByState idx stateId limit
  = map (get idx) (firstn (Nat.max 1 limit) (state_zips idx (toUpperCase stateId)))
  /\ length (getByState idx stateId limit)
     = Nat.min (Nat.max 1 limit) (length (state_zips idx (toUpperCase stateId)))
  /\ length (getByCounty idx countyFips limit)
     = Nat.min (Nat.max 1 limit)
         (length (match Map_get String.eqb countyFips (countyIndex idx) with
                  | Some s => s
                  | None => []
                  end)).
Proof.
  unfold getByState, getByCounty, state_zips.
  rewrite !ZipFacts.push_until_firstn. cbn [app length]. rewrite Nat.sub_0_r.
  rewrite !length_map, !length_firstn. auto.
Qed.

(** X18.  [searchByBoundingBox] returns, in the order of insertion, the
    first records whose coordinates lie in the box, a missing coordinate
    counting as [0]; [exportData] returns the first records; both stop at
    [limit], or at one element when [limit] is [0]. *)
Theorem searchByBoundingBox_and_exportData
  (idx : index) (bounds : Q * Q * Q * Q) (limit : nat) :
  searchByBoundingBox idx bounds limit
  = firstn (Nat.max 1 limit) (filter (in_bounds bounds) (map snd (zips idx)))
  /\ Forall (fun rec => in_bounds bounds rec = true) (searchByBoundingBox idx bounds limit)
  /\ exportData idx limit = firstn (Nat.max 1 limit) (map snd (zips idx)).
Proof.
  unfold searchByBoundingBox, exportData.
  rewrite box_until_firstn, export_until_firstn. cbn [app length]. rewrite Nat.sub_0_r.
  split; [reflexivity|]. split; [|reflexivity].
  apply Forall_forall. intros rec Hin.
  assert (H : In rec (filter (in_bounds bounds) (map snd (zips idx)))).
  { rewrite <- (firstn_skipn (Nat.max 1 limit)). apply in_or_app. left. exact Hin. }
  apply filter_In in H. apply H.
Qed.

(** *** Bookkeeping of a load *)

Lemma keys_index_all (data : list ZipRecord) : forall idx k,
  In k (map fst (zips (ZipFacts.index_all data idx)))
  <-> In k (map zip data) \/ In k (map fst (zips idx)).
Proof.
  induction data as [|x data IH]; intros idx k; [simpl; intuition|].
  change (ZipFacts.index_all (x :: data) idx)
    with (ZipFacts.index_all data (indexRecord x idx)).
  rewrite IH. cbn [indexRecord zips map].
  rewrite (JSFacts.keys_Map_set String.eqb_eq). simpl. intuition.
Qed.

Lemma NoDup_index_all (data : list ZipRecord) : forall idx,
  NoDup (map fst (zips idx)) -> NoDup (map fst (zips (ZipFacts.index_all data idx))).
Proof.
  induction data as [|x data IH]; intros idx Hnd; [exact Hnd|].
  change (ZipFacts.index_all (x :: data) idx)
    with (ZipFacts.index_all data (indexRecord x idx)).
  apply IH. cbn [indexRecord zips]. apply (JSFacts.NoDup_Map_set String.eqb_eq). exact Hnd.
Qed.

(** X19.  A load into a fresh index marks it loaded and counts each ZIP
    once: the keys of the record store are the ZIPs of the loaded records
    without repetition, and [totalRecords] is their number, at most the
    number of records loaded. *)
Theorem loadFromJSON_counts_distinct_zips (data : list ZipRecord) :
  let idx := loadFromJSON data empty in
  loaded idx = true
  /\ totalRecords idx = length (zips idx)
  /\ NoDup (map fst (zips idx))
  /\ (forall k, In k (map fst (zips idx)) <-> In k (map zip data))
  /\ (totalRecords idx <= length data)%nat.
Proof.
  cbv zeta.
  assert (Hnd : NoDup (map fst (zips (loadFromJSON data empty))))
    by (rewrite ZipFacts.loadFromJSON_zips; apply NoDup_index_all; constructor).
  assert (Hkeys : forall k, In k (map fst (zips (loadFromJSON data empty)))
                            <-> In k (map zip data)).
  { intros k. rewrite ZipFacts.loadFromJSON_zips, keys_index_all. simpl. intuition. }
  split; [reflexivity|]. split; [reflexivity|]. split; [exact Hnd|]. split; [exact Hkeys|].
  change (totalRecords (loadFromJSON data empty))
    with (length (zips (ZipFacts.index_all data empty))).
  rewrite <- (length_map fst), <- (length_map zip data).
  apply NoDup_incl_length; [exact Hnd|]. intros k Hk. apply Hkeys. exact Hk.
Qed.

(** *** The grid *)

(** The stub that [buildSpatialIndex] adds to the cell [key] for an entry of
    the record store: none when a coordinate is [null] or the record lies
    in another cell. *)
Definition stub_for (key : gridKey) (entry : string * ZipRecord) : list stub :=
  match lat (snd entry), lng (snd entry) with
  | Some la, Some lo =>
      if gridKey_eqb key (getGridKey la lo 0.5%Q) then [mkStub (fst entry) la lo] else []
  | _, _ => []
  end.

Definition stubs_at (cells : list (gridKey * list stub)) (key : gridKey) : list stub :=
  match Map_get gridKey_eqb key cells with
  | Some c => c
  | None => []
  end.

Lemma gridKey_eqb_refl (key : gridKey) : gridKey_eqb key key = true.
Proof. apply ZipFacts.gridKey_eqb_eq. reflexivity. Qed.

Lemma stubs_at_add_stub (cells : list (gridKey * list stub)) (entry : string * ZipRecord)
  (key : gridKey) :
  stubs_at (add_stub cells entry) key = stubs_at cells key ++ stub_for key entry.
Proof.
  destruct entry as [k rec]. unfold add_stub, stub_for. cbn [fst snd].
  destruct (lat rec) as [la|]; [|symmetry; apply app_nil_r].
  destruct (lng rec) as [lo|]; [|symmetry; apply app_nil_r].
  unfold stubs_at.
  destruct (gridKey_eqb key (getGridKey la lo 0.5%Q)) eqn:E.
  - apply ZipFacts.gridKey_eqb_eq in E. subst key.
    rewrite (JSFacts.Map_get_set_same ZipFacts.gridKey_eqb_eq). reflexivity.
  - rewrite app_nil_r.
    rewrite (JSFacts.Map_get_set_other ZipFacts.gridKey_eqb_eq); [reflexivity|].
    intros ->. rewrite gridKey_eqb_refl in E. discriminate.
Qed.

Lemma stubs_at_fold (entries : list (string * ZipRecord)) :
  forall cells key,
  stubs_at (fold_left add_stub entries cells) key
  = stubs_at cells key ++ flat_map (stub_for key) entries.
Proof.
  induction entries as [|e entries IH]; intros cells key.
  - simpl. rewrite app_nil_r. reflexivity.
  - cbn [fold_left flat_map]. rewrite IH, stubs_at_add_stub, app_assoc. reflexivity.
Qed.

Lemma spatialIndex_index_all (data : list ZipRecord) : forall idx,
  spatialIndex (ZipFacts.index_all data idx) = spatialIndex idx.
Proof.
  induction data as [|x data IH]; intros idx; [reflexivity|].
  change (ZipFacts.index_all (x :: data) idx)
    with (ZipFacts.index_all data (indexRecord x idx)).
  rewrite IH. reflexivity.
Qed.

Lemma cells_at_load (data : list ZipRecord) (idx : index) (latGrid lngGrid : Z) :
  cells_at (loadFromJSON data idx) latGrid lngGrid
  = cells_at idx latGrid lngGrid
    ++ flat_map (stub_for (latGrid, lngGrid)) (zips (loadFromJSON data idx)).
Proof.
  change (cells_at (loadFromJSON data idx) latGrid lngGrid)
    with (stubs_at (fold_left add_stub (zips (ZipFacts.index_all data idx))
                      (spatialIndex (ZipFacts.index_all data idx))) (latGrid, lngGrid)).
  rewrite stubs_at_fold, spatialIndex_index_all. reflexivity.
Qed.

(** X20.  Every load appends to each grid cell one stub for every record
    then in the store whose coordinates fall into the cell, in the order of
    the store, behind the stubs the cell already had.  After a load into a
    fresh index a cell holds exactly the stubs of its records; a further
    load, even of a document without records, adds them all again. *)
Theorem buildSpatialIndex_appends_stubs
  (data : list ZipRecord) (idx : index) (latGrid lngGrid : Z) :
  cells_at (loadFromJSON data idx) latGrid lngGrid
  = cells_at idx latGrid lngGrid
    ++ flat_map (stub_for (latGrid, lngGrid)) (zips (loadFromJSON data idx))
  /\ cells_at (loadFromJSON data empty) latGrid lngGrid
     = flat_map (stub_for (latGrid, lngGrid)) (zips (loadFromJSON data empty))
  /\ cells_at (loadFromJSON [] (loadFromJSON data empty)) latGrid lngGrid
     = cells_at (loadFromJSON data empty) latGrid lngGrid
       ++ cells_at (loadFromJSON data empty) latGrid lngGrid.
Proof.
  split; [apply cells_at_load|].
  assert (Hfresh : cells_at (loadFromJSON data empty) latGrid lngGrid
                   = flat_map (stub_for (latGrid, lngGrid)) (zips (loadFromJSON data empty)))
    by (rewrite cells_at_load; reflexivity).
  split; [exact Hfresh|].
  rewrite (cells_at_load [] (loadFromJSON data empty)).
  change (zips (loadFromJSON [] (loadFromJSON data empty)))
    with (zips (loadFromJSON data empty)).
  rewrite <- Hfresh. reflexivity.
Qed.

(** *** The radius search against the record store *)

Lemma In_Z_range (lo hi x : Z) : lo <= x <= hi -> In x (Z_range lo hi).
Proof.
  intros H. unfold Z_range. apply in_map_iff. exists (Z.to_nat (x - lo)).
  split; [lia|]. apply in_seq. lia.
Qed.

Lemma floor_half_mono (x y : Q) :
  (x <= y)%Q -> Qfloor (x / 0.5) <= Qfloor (y / 0.5).
Proof.
  intros H. apply Qfloor_resp_le. unfold Qdiv. apply Qmult_le_compat_r; [exact H|].
  apply Qle_bool_iff. reflexivity.
Qed.

(** X21.  The grid hides no match.  After a load, a record of the store
    whose coordinates pass the bounding-box test and the distance test of
    the loop body is among the matches that the scan meets; it is returned
    whenever the matches do not outnumber a positive limit. *)
Theorem searchByRadius_finds_every_match
  (M : MathLib) (data : list ZipRecord) (idx0 : index) (qlat qlng radiusKm : Q)
  (limit : nat) (z : string) (rec : ZipRecord) (la lo : Q) :
  let idx := loadFromJSON data idx0 in
  let hit := mkFound rec (haversine M qlat qlng la lo) in
  get idx z = Some rec ->
  lat rec = Some la -> lng rec = Some lo ->
  in_box M qlat qlng radiusKm (mkStub z la lo) = true ->
  Qle_bool (haversine M qlat qlng la lo) radiusKm = true ->
  In hit (matches_in_scan_order M idx qlat qlng radiusKm)
  /\ ((1 <= limit)%nat ->
      (length (matches_in_scan_order M idx qlat qlng radiusKm) <= limit)%nat ->
      In hit (searchByRadius M idx qlat qlng radiusKm limit)).
Proof.
  intros idx hit Hget Hla Hlo Hbox Hdist.
  assert (Hin : In hit (matches_in_scan_order M idx qlat qlng radiusKm)).
  { pose proof (JSFacts.Map_get_In String.eqb_eq Hget) as Hstored.
    remember (padStart 5 "0" z) as k eqn:Ek.
    assert (Hcell : In (mkStub k la lo)
                       (cells_at idx (Qfloor (la / 0.5)) (Qfloor (lo / 0.5)))).
    { unfold idx. rewrite cells_at_load. apply in_or_app. right.
      apply in_flat_map. exists (k, rec). split; [exact Hstored|].
      unfold stub_for. cbn [fst snd]. rewrite Hla, Hlo.
      change (Qfloor (la / 0.5), Qfloor (lo / 0.5)) with (getGridKey la lo 0.5%Q).
      rewrite gridKey_eqb_refl. left. reflexivity. }
    assert (Hmatch : match_of M idx qlat qlng radiusKm (mkStub k la lo) = [hit]).
    { unfold match_of. cbn [stub_lat stub_lng stub_zip].
      change (in_box M qlat qlng radiusKm (mkStub k la lo))
        with (in_box M qlat qlng radiusKm (mkStub z la lo)).
      rewrite Hbox, Hdist. cbn [andb].
      replace (get idx k) with (Some rec); [reflexivity|].
      rewrite Ek. symmetry. unfold get. rewrite padStart_idempotent. exact Hget. }
    unfold in_box in Hbox. cbn [stub_lat stub_lng] in Hbox.
    rewrite !andb_true_iff, !Qle_bool_iff in Hbox.
    destruct Hbox as [[[H1 H2] H3] H4].
    unfold matches_in_scan_order. cbv zeta.
    apply in_flat_map. exists (Qfloor (la / 0.5)). split.
    { apply In_Z_range. split; apply floor_half_mono; assumption. }
    apply in_flat_map. exists (Qfloor (lo / 0.5)). split.
    { apply In_Z_range. split; apply floor_half_mono; assumption. }
    apply in_flat_map. exists (mkStub k la lo). split; [exact Hcell|].
    rewrite Hmatch. left. reflexivity. }
  split; [exact Hin|].
  intros Hlimit Hfew.
  rewrite (@ZipFacts.searchByRadius_take_then_sort M idx qlat qlng radiusKm limit Hlimit).
  rewrite firstn_all2 by exact Hfew.
  apply JSFacts.sort_In. exact Hin.
Qed.

Lemma searchByRadius_finds_every_match_witness :
  In (mkFound ZipFacts.nyc (haversine ZipFacts.approxMath 40.75 (-73.99) 40.75 (-73.99)))
     (searchByRadius ZipFacts.approxMath ZipFacts.nyc_index 40.75 (-73.99) 1 10).
Proof.
  assert (Hbox : in_box ZipFacts.approxMath 40.75 (-73.99) 1
                   (mkStub "10001" 40.75 (-73.99)) = true)
    by (vm_compute; reflexivity).
  assert (Hdist : Qle_bool (haversine ZipFacts.approxMath 40.75 (-73.99) 40.75 (-73.99)) 1
                  = true)
    by (vm_compute; reflexivity).
  assert (Hfew : (length (matches_in_scan_order ZipFacts.approxMath ZipFacts.nyc_index
                            40.75 (-73.99) 1) <= 10)%nat).
  { assert (E : length (matches_in_scan_order ZipFacts.approxMath ZipFacts.nyc_index
                          40.75 (-73.99) 1) = 1%nat) by (vm_compute; reflexivity).
    rewrite E. lia. }
  pose proof (@searchByRadius_finds_every_match ZipFacts.approxMath [ZipFacts.nyc] empty
                40.75 (-73.99) 1 10 "10001" ZipFacts.nyc 40.75 (-73.99)
                eq_refl eq_refl eq_refl Hbox Hdist) as H.
  exact (proj2 H ltac:(lia) Hfew).
Defined.

(** *** Query by city *)

Definition city_matching (idx : index) (searchTerm : string) (stateId : option string)
  : list string :=
  flat_map snd (filter (fun e => city_matches searchTerm stateId (fst e)) (cityIndex idx)).

Lemma city_loop_firstn (idx : index) (term : string) (st : option string) (limit : nat)
  (entries : list (string * list string)) :
  forall results, (length results < limit)%nat ->
  city_loop idx term st limit entries results
  = results ++ firstn (limit - length results)
                 (map (get idx)
                    (flat_map snd (filter (fun e => city_matches term st (fst e)) entries))).
Proof.
  induction entries as [|[k set] entries IH]; intros results Hlt.
  - simpl. rewrite firstn_nil, app_nil_r. reflexivity.
  - cbn [city_loop filter fst]. destruct (city_matches term st k).
    + cbn [flat_map snd]. rewrite ZipFacts.push_until_firstn.
      replace (Nat.max 1 (limit - length results)) with (limit - length results)%nat by lia.
      rewrite map_app, firstn_app, firstn_map, length_map.
      destruct (Nat.leb_spec limit
                  (length (results ++ map (get idx) (firstn (limit - length results) set))))
        as [Hge|Hlt'];
        rewrite length_app, length_map, length_firstn in *.
      * replace (limit - length results - length set)%nat with 0%nat by lia.
        rewrite firstn_0, app_nil_r. reflexivity.
      * rewrite IH by (rewrite length_app, length_map, length_firstn; lia).
        rewrite length_app, length_map, length_firstn.
        rewrite (@firstn_all2 _ (limit - length results) set) by lia.
        rewrite <- app_assoc. f_equal. f_equal. f_equal. lia.
    + replace (limit <=? length results)%nat with false
        by (symmetry; apply Nat.leb_gt; exact Hlt).
      apply IH. exact Hlt.
Qed.

(** X22.  With a limit of at least one, [searchByCity] returns the records
    of the first [limit] ZIPs filed under the matching city keys, in the
    order of the city index.  With a limit of zero only the first city key
    is looked at: one record when it matches, nothing when it does not,
    whatever the later keys are. *)
Theorem searchByCity_first_matches
  (idx : index) (cityName : string) (stateId : option string) (limit : nat) :
  ((1 <= limit)%nat ->
   searchByCity idx cityName stateId limit
   = firstn limit (map (get idx) (city_matching idx (toLowerCase cityName) stateId)))
  /\ searchByCity idx cityName stateId 0
     = match cityIndex idx with
       | [] => []
       | (cityKey, zipSet) :: _ =>
           if city_matches (toLowerCase cityName) stateId cityKey
           then map (get idx) (firstn 1 zipSet)
           else []
       end.
Proof.
  split.
  - intros Hlimit. unfold searchByCity, city_matching.
    rewrite city_loop_firstn by (simpl; lia). cbn [app length].
    rewrite Nat.sub_0_r. reflexivity.
  - unfold searchByCity. destruct (cityIndex idx) as [|[k set] rest]; [reflexivity|].
    cbn [city_loop]. destruct (city_matches (toLowerCase cityName) stateId k).
    + rewrite ZipFacts.push_until_firstn. reflexivity.
    + reflexivity.
Qed.

Definition two_cities : index :=
  loadFromJSON [mkZip "10001" (Some 40.75%Q) (Some (-73.99)%Q) "New York" "NY" "36061"
                      "New York" 21102;
                mkZip "10002" (Some 40.72%Q) (Some (-73.99)%Q) "New York" "NY" "36061"
                      "New York" 74993;
                mkZip "14201" (Some 42.90%Q) (Some (-78.88)%Q) "Buffalo" "NY" "36029"
                      "Erie" 11549] empty.

Lemma searchByCity_first_matches_witness :
  map (option_map zip) (searchByCity two_cities "YORK" (Some "ny"%string) 5)
  = [Some "10001"%string; Some "10002"%string].
Proof.
  rewrite (proj1 (@searchByCity_first_matches two_cities "YORK" (Some "ny"%string) 5)
                 ltac:(lia)).
  reflexivity.
Defined.

(** *** City keys *)

Fixpoint no_comma (s : string) : bool :=
  match s with
  | EmptyString => true
  | String c rest => negb (Ascii.eqb c ","%char) && no_comma rest
  end.

Lemma append_empty_r (s : string) : String.append s EmptyString = s.
Proof. induction s as [|c s IH]; simpl; [reflexivity | rewrite IH; reflexivity]. Qed.

Lemma append_snoc (a : string) (c : ascii) (b : string) :
  String.append (String.append a (String c EmptyString)) b = String.append a (String c b).
Proof. induction a as [|x a IH]; simpl; [reflexivity | rewrite IH; reflexivity]. Qed.

Lemma split_comma_no_comma (s : string) : forall current,
  no_comma s = true -> split_comma s current = [String.append current s].
Proof.
  induction s as [|c s IH]; intros current H; cbn [split_comma no_comma] in *.
  - rewrite append_empty_r. reflexivity.
  - apply andb_true_iff in H. destruct H as [Hc Hs].
    destruct (Ascii.eqb c ","%char); [discriminate|].
    rewrite IH by exact Hs. rewrite append_snoc. reflexivity.
Qed.

Lemma split_comma_key (c rest : string) : forall current,
  no_comma c = true ->
  split_comma (String.append c (String ","%char rest)) current
  = String.append current c :: split_comma rest EmptyString.
Proof.
  induction c as [|x c IH]; intros current H; cbn [String.append split_comma no_comma] in *.
  - rewrite append_empty_r. reflexivity.
  - apply andb_true_iff in H. destruct H as [Hx Hc].
    destruct (Ascii.eqb x ","%char); [discriminate|].
    rewrite IH by exact Hc. rewrite append_snoc. reflexivity.
Qed.

Lemma lower_char_comma (c : ascii) :
  Ascii.eqb (lower_char c) ","%char = Ascii.eqb c ","%char.
Proof. destruct c as [[] [] [] [] [] [] [] []]; reflexivity. Qed.

Lemma no_comma_toLowerCase (s : string) : no_comma (toLowerCase s) = no_comma s.
Proof.
  unfold toLowerCase. induction s as [|c s IH]; [reflexivity|].
  cbn [map_string no_comma]. rewrite lower_char_comma, IH. reflexivity.
Qed.

(** The state filter of [searchByCity]. *)
Definition state_filter (stateId : option string) (state : string) : bool :=
  match stateId with
  | None => true
  | Some st => if truthy st then String.eqb state (toUpperCase st) else true
  end.

(** X23.  The key under which [indexRecord] files a city is taken apart
    again by [searchByCity] when neither the city nor the state contains a
    comma: the key matches when the lower-cased city contains the search
    term and the stored state equals the upper-cased filter.  When the city
    reads [a,b] the search takes [a] for the city and [b] for the state,
    and the state of the record plays no part. *)
Theorem city_key_round_trip
  (searchTerm : string) (stateId : option string) (r : ZipRecord) :
  let cityKey := String.append (toLowerCase (city r)) (String.append "," (state_id r)) in
  (no_comma (city r) = true -> no_comma (state_id r) = true ->
   city_matches searchTerm stateId cityKey
   = includes (toLowerCase (city r)) searchTerm && state_filter stateId (state_id r))
  /\ (forall a b, city r = String.append a (String ","%char b) ->
      no_comma a = true -> no_comma b = true ->
      city_matches searchTerm stateId cityKey
      = includes (toLowerCase a) searchTerm && state_filter stateId (toLowerCase b)).
Proof.
  cbv zeta. split.
  - intros Hc Hs. unfold city_matches.
    change (String.append "," (state_id r)) with (String ","%char (state_id r)).
    rewrite split_comma_key by (rewrite no_comma_toLowerCase; exact Hc).
    rewrite split_comma_no_comma by exact Hs.
    cbn [nth nth_error String.append]. destruct stateId as [st|]; reflexivity.
  - intros a b Hcity Ha Hb. unfold city_matches. rewrite Hcity.
    assert (Hlower : toLowerCase (String.append a (String ","%char b))
                     = String.append (toLowerCase a) (String ","%char (toLowerCase b))).
    { clear. unfold toLowerCase. induction a as [|x a IH]; [reflexivity|].
      cbn [String.append map_string]. rewrite IH. reflexivity. }
    rewrite Hlower.
    change (String.append "," (state_id r)) with (String ","%char (state_id r)).
    assert (Hassoc : forall x y z,
              String.append (String.append x y) z = String.append x (String.append y z)).
    { clear. induction x as [|c x IH]; intros y z; simpl; [reflexivity|].
      rewrite IH. reflexivity. }
    rewrite Hassoc. cbn [String.append].
    rewrite split_comma_key by (rewrite no_comma_toLowerCase; exact Ha).
    rewrite split_comma_key by (rewrite no_comma_toLowerCase; exact Hb).
    cbn [nth nth_error String.append]. destruct stateId as [st|]; reflexivity.
Qed.

Lemma city_key_round_trip_witness :
  city_matches "york" (Some "ny"%string) "new york,NY" = true
  /\ city_matches "winston" (Some "NC"%string) "winston,salem,NC" = false.
Proof.
  split.
  - exact (proj1 (@city_key_round_trip "york" (Some "ny"%string) ZipFacts.nyc)
                 eq_refl eq_refl).
  - exact (proj2 (@city_key_round_trip "winston" (Some "NC"%string)
                    (mkZip "27101" None None "Winston,Salem" "NC" "37067" "Forsyth" 0))
                 "Winston"%string "Salem"%string eq_refl eq_refl eq_refl).
Defined.

End IndexLaws.

(** ** The error log *)

Module LogLaws.
Import JS ACS.

Lemma logError_skipn (A : Type) (m : nat) (e : A) (log : list A) :
  (length log <= m)%nat ->
  logError m e log = skipn (length (log ++ [e]) - m) (log ++ [e]).
Proof.
  intros Hlen. unfold logError. rewrite length_app. cbn [length].
  destruct (Nat.ltb_spec m (length log + 1)) as [Hgt|Hle].
  - replace (length log + 1 - m)%nat with 1%nat by lia.
    destruct (log ++ [e]); reflexivity.
  - replace (length log + 1 - m)%nat with 0%nat by lia. reflexivity.
Qed.

Lemma log_all_skipn (A : Type) (m : nat) (entries : list A) : forall log,
  (length log <= m)%nat ->
  log_all m entries log = skipn (length (log ++ entries) - m) (log ++ entries).
Proof.
  induction entries as [|e entries IH]; intros log Hlen.
  - rewrite app_nil_r. replace (length log - m)%nat with 0%nat by lia. reflexivity.
  - change (log_all m (e :: entries) log) with (log_all m entries (logError m e log)).
    rewrite (@logError_skipn A m e log Hlen).
    assert (Hd : (length (log ++ [e]) - m <= length (log ++ [e]))%nat) by lia.
    remember (length (log ++ [e]) - m)%nat as d eqn:Ed.
    assert (Hlen' : (length (skipn d (log ++ [e])) <= m)%nat)
      by (rewrite length_skipn; lia).
    rewrite IH by exact Hlen'.
    assert (Happ : skipn d (log ++ [e]) ++ entries = skipn d (log ++ e :: entries)).
    { replace (log ++ e :: entries) with ((log ++ [e]) ++ entries)
        by (rewrite <- app_assoc; reflexivity).
      rewrite (skipn_app d (log ++ [e]) entries).
      replace (d - length (log ++ [e]))%nat with 0%nat by lia.
      reflexivity. }
    rewrite Happ, skipn_skipn. f_equal.
    rewrite length_skipn, !length_app in *. cbn [length] in *. lia.
Qed.

(** X24.  The error log keeps the latest entries.  Starting from the empty
    log of the constructor, after any number of calls of [logError] the log
    holds the last [maxErrorLogSize] entries logged, oldest first, and never
    more.  [getErrorLog(limit)] returns the last [limit] of them for a
    limit of at least one, and the whole log, not an empty list, for a limit
    of zero. *)
Theorem errorLog_keeps_latest (A : Type) (m : nat) (entries : list A) (limit : Z) :
  let errorLog := log_all m entries [] in
  errorLog = skipn (length entries - m) entries
  /\ (length errorLog <= m)%nat
  /\ getErrorLog 0 errorLog = errorLog
  /\ (1 <= limit ->
      getErrorLog limit errorLog = skipn (length errorLog - Z.to_nat limit) errorLog).
Proof.
  cbv zeta.
  assert (H : log_all m entries [] = skipn (length entries - m) entries)
    by (apply (@log_all_skipn A m entries []); simpl; lia).
  split; [exact H|]. split; [rewrite H, length_skipn; lia|]. split.
  - unfold getErrorLog, slice. cbn [Z.opp Z.ltb Z.compare].
    rewrite Z.min_l by lia. reflexivity.
  - intros Hlimit. unfold getErrorLog, slice.
    replace (- limit <? 0) with true by (symmetry; apply Z.ltb_lt; lia).
    f_equal. lia.
Qed.

Lemma errorLog_keeps_latest_witness :
  getErrorLog 2 (log_all 3 ["a"; "b"; "c"; "d"; "e"]%string [])
  = skipn (length (log_all 3 ["a"; "b"; "c"; "d"; "e"]%string []) - Z.to_nat 2)
          (log_all 3 ["a"; "b"; "c"; "d"; "e"]%string []).
Proof.
  exact (proj2 (proj2 (proj2
           (@errorLog_keeps_latest string 3 ["a"; "b"; "c"; "d"; "e"]%string 2)))
         ltac:(lia)).
Defined.

End LogLaws.
